(** * rstream-query: the reactive triple store

    A shallow embedding of [TripleStore] (triple table, the three field
    indices, the global identifier set, pattern / parametric queries and
    joins) together with the properties its specification states.

    Conventions of the embedding:
    - a term (triple field) is any JavaScript value: a primitive (a
      string or a number) or an object (an array, a plain object).  The
      key equality of a JS [Map] is Leibniz equality here: the value of
      a primitive, the identity of an object.  [equiv] is the structural
      comparison: it also tells two different objects of one structure
      equal, and coincides with the key equality when one side is
      primitive;
    - a JS [Set<number>] of triple ids is a [gset nat]; a JS [Map] is a
      [gmap]; the sparse array [triples] is a [gmap nat Triple];
    - the index sets are shared mutable objects: a value travelling on a
      channel is a *reference* to such a set ([SetRef]) and is dereferenced
      against the store at the moment it is used;
    - the static class field [TripleStore.NEXT_ID] is threaded explicitly
      through every operation that reads or writes it. *)

From stdpp Require Import gmap strings list fin_maps fin_sets.
From Stdlib Require Import Ascii.

#[local] Set Warnings "-clear-no-such-hyp".

(** ** Terms, triples and patterns *)

(** An object term carries [shape], its structure written canonically
    (all that [equiv] looks at), and [ref], which tells apart the objects
    of one structure: two object terms are the same [Map] key exactly
    when they are the same object, that is, when they are equal here. *)
Inductive Value :=
  | VStr (s : string)
  | VNum (n : Z)
  | VObj (shape : string) (ref : nat).

Global Instance Value_eq_dec : EqDecision Value.
Proof. solve_decision. Defined.

Definition Value_to_sum (v : Value) : string + Z + string * nat :=
  match v with
  | VStr s => inl (inl s)
  | VNum n => inl (inr n)
  | VObj sh r => inr (sh, r)
  end.

Definition Value_of_sum (x : string + Z + string * nat) : Value :=
  match x with
  | inl (inl s) => VStr s
  | inl (inr n) => VNum n
  | inr (sh, r) => VObj sh r
  end.

Lemma Value_of_to_sum v : Value_of_sum (Value_to_sum v) = v.
Proof. by destruct v. Qed.

Global Instance Value_countable : Countable Value :=
  inj_countable' Value_to_sum Value_of_sum Value_of_to_sum.

(** The three positions of a triple; they also name the source ids
    ["s"], ["p"], ["o"] of the store's selections. *)
Inductive Field := FS | FP | FO.

Global Instance Field_eq_dec : EqDecision Field.
Proof. solve_decision. Defined.

Definition Field_to_nat (f : Field) : nat :=
  match f with FS => 0 | FP => 1 | FO => 2 end.

Definition Field_of_nat (n : nat) : Field :=
  match n with 0 => FS | 1 => FP | _ => FO end.

Lemma Field_of_to_nat f : Field_of_nat (Field_to_nat f) = f.
Proof. by destruct f. Qed.

Global Instance Field_countable : Countable Field :=
  inj_countable' Field_to_nat Field_of_nat Field_of_to_nat.

(** [Triple = [any, any, any]] *)
Definition Triple : Type := Value * Value * Value.

Definition field (f : Field) (t : Triple) : Value :=
  match f with FS => t.1.1 | FP => t.1.2 | FO => t.2 end.

(** A primitive term, and a triple of primitive terms. *)
Definition primitive (v : Value) : bool :=
  match v with VObj _ _ => false | _ => true end.

Definition primitive_triple (t : Triple) : bool :=
  primitive t.1.1 && primitive t.1.2 && primitive t.2.

(** A pattern position is a concrete term or [null] (wildcard). *)
Definition Pattern : Type := option Value * option Value * option Value.

Definition pfield (f : Field) (pat : Pattern) : option Value :=
  match f with FS => pat.1.1 | FP => pat.1.2 | FO => pat.2 end.

(** [TripleIds = Set<number>] *)
Abbreviation TripleIds := (gset nat).

(** ** Channel payloads

    A reference to one of the store's shared id sets: the global set
    [allIDs], or the set stored under key [k] in the index of field [f].
    Each such set object is created once and then only grows, so the pair
    [(f, k)] identifies it. *)
Inductive SetRef :=
  | RAll
  | RIdx (f : Field) (k : Value).

Global Instance SetRef_eq_dec : EqDecision SetRef.
Proof. solve_decision. Defined.

(** [Edit = { index: TripleIds, key: any }] *)
Record Edit := mkEdit { index : SetRef; key : Value }.

Global Instance Edit_eq_dec : EqDecision Edit.
Proof. solve_decision. Defined.

(** The [next()] calls the store itself performs, in program order. *)
Inductive Push :=
  | PushAll (ids : SetRef)                       (* streamAll.next(allIDs) *)
  | PushField (f : Field) (e : Edit)             (* streamS/P/O.next(edit) *)
  | PushSel (f : Field) (k : Value) (e : Edit).  (* selection.next(edit) in submit *)

(** One [sync] node of a pattern query: the latest value seen from each
    of its three sources and everything it has emitted (oldest first). *)
Record Sync := mkSync {
  q_id : string;
  q_pattern : Pattern;
  q_latest : option SetRef * option SetRef * option SetRef;
  q_out : list TripleIds
}.

(** ** The store *)

Record TripleStore := mkStore {
  triples : gmap nat Triple;
  indexS : gmap Value TripleIds;
  indexP : gmap Value TripleIds;
  indexO : gmap Value TripleIds;
  (* cached narrow-casts, keyed by (field, key), with their current value *)
  indexSelections : gmap (Field * Value) (option SetRef);
  allIDs : TripleIds;
  (* current value of the ALL stream, which its three pass-through
     subscriptions allSelections.s/p/o mirror *)
  streamAll : option SetRef;
  queries : list Sync;
  pushes : list Push
}.

(** [static NEXT_ID = 0] *)
Definition NEXT_ID_init : nat := 0.

(** The constructor body up to the optional [addTriples] call. *)
Definition empty_store : TripleStore :=
  mkStore ∅ ∅ ∅ ∅ ∅ ∅ None [] [].

Definition index_of (st : TripleStore) (f : Field) : gmap Value TripleIds :=
  match f with FS => indexS st | FP => indexP st | FO => indexO st end.

Definition deref (st : TripleStore) (r : SetRef) : TripleIds :=
  match r with
  | RAll => allIDs st
  | RIdx f k => default ∅ (index_of st f !! k)
  end.

Definition set_queries (qs : list Sync) (st : TripleStore) : TripleStore :=
  mkStore (triples st) (indexS st) (indexP st) (indexO st)
          (indexSelections st) (allIDs st) (streamAll st) qs (pushes st).

Definition set_selections (m : gmap (Field * Value) (option SetRef))
    (st : TripleStore) : TripleStore :=
  mkStore (triples st) (indexS st) (indexP st) (indexO st)
          m (allIDs st) (streamAll st) (queries st) (pushes st).

Definition set_streamAll (v : option SetRef) (st : TripleStore) : TripleStore :=
  mkStore (triples st) (indexS st) (indexP st) (indexO st)
          (indexSelections st) (allIDs st) v (queries st) (pushes st).

Definition log_push (p : Push) (st : TripleStore) : TripleStore :=
  mkStore (triples st) (indexS st) (indexP st) (indexO st)
          (indexSelections st) (allIDs st) (streamAll st) (queries st)
          (pushes st ++ [p]).

(** ** Lookup: [findInIndices] and [has] *)

(** Modelled from the spec: [equiv] of the api package is not among the
    sources at hand; it is the structural comparison of two values.
    On two terms: primitives are compared by value, two objects by
    structure whatever their identity, and a primitive equals no
    object. *)
Definition equiv_term (a b : Value) : bool :=
  match a, b with
  | VObj sh _, VObj sh' _ => bool_decide (sh = sh')
  | _, _ => bool_decide (a = b)
  end.

(** [equiv(triples[id], f)]: two triples (arrays of three terms) are
    compared term by term; a hole of the sparse array is [undefined]
    and equal to no triple. *)
Definition equiv (a : option Triple) (f : Triple) : bool :=
  match a with
  | Some t =>
      equiv_term t.1.1 f.1.1 && equiv_term t.1.2 f.1.2 && equiv_term t.2 f.2
  | None => false
  end.

(** The nested conditional of [findInIndices] choosing the set to scan. *)
Definition pick_index (s p o : TripleIds) : TripleIds :=
  if decide (size s < size p) then
    if decide (size s < size o) then s
    else if decide (size p < size o) then p else o
  else
    if decide (size p < size o) then p
    else if decide (size s < size o) then s else o.

(** [for (let id of index) if (equiv(triples[id], f)) return id;] *)
Fixpoint scan (tr : gmap nat Triple) (f : Triple) (ids : list nat) : option nat :=
  match ids with
  | [] => None
  | id :: rest => if equiv (tr !! id) f then Some id else scan tr f rest
  end.

(** [None] stands for the result [-1].  The chosen set is scanned in the
    order of [elements]; which of several structurally-equal triples is
    found first depends on that order, whether one is found does not. *)
Definition findInIndices (st : TripleStore)
    (s p o : option TripleIds) (f : Triple) : option nat :=
  match s, p, o with
  | Some s, Some p, Some o => scan (triples st) f (elements (pick_index s p o))
  | _, _, _ => None
  end.

Definition has (st : TripleStore) (f : Triple) : bool :=
  bool_decide (findInIndices st
                 (indexS st !! field FS f)
                 (indexP st !! field FP f)
                 (indexO st !! field FO f) f ≠ None).

(** ** The channel primitive

    The reactive-stream library ([Stream], [Subscription], [sync]) is
    not among the sources at hand; the definitions of this part that
    stand for it follow the interface the spec gives: a push is
    delivered synchronously to the current subscribers, a channel keeps
    its latest value, and [sync] keeps the latest value of every source
    and recomputes on any upstream push. *)

Definition set_latest (f : Field) (v : SetRef)
    (l : option SetRef * option SetRef * option SetRef) :
    option SetRef * option SetRef * option SetRef :=
  match f with
  | FS => (Some v, l.1.2, l.2)
  | FP => (l.1.1, Some v, l.2)
  | FO => (l.1.1, l.1.2, Some v)
  end.

Definition get_latest (f : Field)
    (l : option SetRef * option SetRef * option SetRef) : option SetRef :=
  match f with FS => l.1.1 | FP => l.1.2 | FO => l.2 end.

(** Modelled from the spec: [intersection] of the associative-collections
    package is the set intersection of its two arguments.  Every call is
    recorded with its operands so that the order of the calls made by a
    transform can be observed. *)
Definition intersection (a b : TripleIds) : TripleIds * list (TripleIds * TripleIds) :=
  (a ∩ b, [(a, b)]).

(** [map(({ s, p, o }) => intersection(intersection(s, p), o))]:
    the result together with the [intersection] calls made, in order. *)
Definition xform (s p o : TripleIds) : TripleIds * list (TripleIds * TripleIds) :=
  let sp := intersection s p in
  let spo := intersection sp.1 o in
  (spo.1, sp.2 ++ spo.2).

(** Modelled from the spec: [sync] of the reactive-stream library is not
    among the sources at hand.  Source [f] of the sync node [q] delivers
    [v]: the node keeps [v] as the latest value of [f] and, once every
    source has a latest value, recomputes its transform on the three
    latest values and emits the result.  The values are references to
    the store's sets, read when the transform runs. *)
Definition sync_next (st : TripleStore) (f : Field) (v : SetRef) (q : Sync) : Sync :=
  let l := set_latest f v (q_latest q) in
  match l with
  | (Some s, Some p, Some o) =>
      mkSync (q_id q) (q_pattern q) l
             (q_out q ++ [(xform (deref st s) (deref st p) (deref st o)).1])
  | _ => mkSync (q_id q) (q_pattern q) l (q_out q)
  end.

(** Modelled from the spec: a subscription without transform passes
    every value on.  What a push on ALL does to one sync node through
    [allSelections[f]], the source of its wildcard field [f]. *)
Definition on_all (st : TripleStore) (f : Field) (q : Sync) : Sync :=
  match pfield f (q_pattern q) with
  | None => sync_next st f RAll q
  | Some _ => q
  end.

(** [indexSel(key)]: an edit pushed on the stream of field [f] passes
    the narrow-cast for [k] iff [equiv(e.key, k)]; what it then does to
    one sync node, which listens to the narrow-cast of its own key. *)
Definition on_sel (st : TripleStore) (f : Field) (e : Edit) (q : Sync) : Sync :=
  match pfield f (q_pattern q) with
  | Some k => if equiv_term (key e) k then sync_next st f (index e) q else q
  | None => q
  end.

(** An edit pushed on the narrow-cast of [(f, k)] itself reaches, if it
    passes [indexSel(k)], the sync nodes that listen to this narrow-cast:
    those whose pattern has the very key [k] at [f]
    ([indexSelections[id].get(key)] is a [Map] lookup). *)
Definition on_cast (st : TripleStore) (f : Field) (k : Value) (e : Edit)
    (q : Sync) : Sync :=
  if decide (pfield f (q_pattern q) = Some k)
  then sync_next st f (index e) q else q.

(** [this.streamAll.next(this.allIDs)]: the push is logged, becomes the
    current value of ALL and reaches, through [allSelections.s], [.p]
    and [.o] in this order, the sync nodes subscribed to them. *)
Definition next_all (st : TripleStore) : TripleStore :=
  let st1 := log_push (PushAll RAll) st in
  let st2 := set_streamAll (Some RAll) st1 in
  set_queries
    (on_all st2 FO <$> (on_all st2 FP <$> (on_all st2 FS <$> queries st2))) st2.

(** The edit becomes the current value of every cached narrow-cast of
    field [f] whose key is [equiv] to the edit's key. *)
Definition touch_selection (f : Field) (e : Edit)
    (m : gmap (Field * Value) (option SetRef)) : gmap (Field * Value) (option SetRef) :=
  map_imap (λ fk v, if decide (fk.1 = f)
                    then if equiv_term (key e) fk.2
                         then Some (Some (index e)) else Some v
                    else Some v) m.

(** [this.streamS.next(e)] (and likewise for P and O) *)
Definition next_field (f : Field) (e : Edit) (st : TripleStore) : TripleStore :=
  let st1 := log_push (PushField f e) st in
  let st2 := set_selections (touch_selection f e (indexSelections st1)) st1 in
  set_queries (on_sel st2 f e <$> queries st2) st2.

(** [sel.next(e)] on the narrow-cast of [(f, k)]: the edit runs through
    [indexSel(k)] and, if it passes, reaches every subscriber of it. *)
Definition next_sel (f : Field) (k : Value) (e : Edit) (st : TripleStore) : TripleStore :=
  let st1 := log_push (PushSel f k e) st in
  if equiv_term (key e) k then
    let st2 := set_selections (<[(f, k) := Some (index e)]> (indexSelections st1)) st1 in
    set_queries (on_cast st2 f k e <$> queries st2) st2
  else st1.

(** ** Insertion *)

Definition addTriple (t : Triple) (st : TripleStore) (NEXT_ID : nat) :
    bool * TripleStore * nat :=
  let s := indexS st !! field FS t in
  let p := indexP st !! field FP t in
  let o := indexO st !! field FO t in
  match findInIndices st s p o t with
  | Some _ => (false, st, NEXT_ID)
  | None =>
      let id := NEXT_ID in
      let is_ := default ∅ s in
      let ip_ := default ∅ p in
      let io_ := default ∅ o in
      (* the id sets are mutated in place, and stored in the map when new *)
      let st1 :=
        mkStore (<[id := t]> (triples st))
                (<[field FS t := is_ ∪ {[id]}]> (indexS st))
                (<[field FP t := ip_ ∪ {[id]}]> (indexP st))
                (<[field FO t := io_ ∪ {[id]}]> (indexO st))
                (indexSelections st)
                (allIDs st ∪ {[id]})
                (streamAll st) (queries st) (pushes st) in
      let st2 := next_all st1 in
      let st3 := next_field FS (mkEdit (RIdx FS (field FS t)) (field FS t)) st2 in
      let st4 := next_field FP (mkEdit (RIdx FP (field FP t)) (field FP t)) st3 in
      let st5 := next_field FO (mkEdit (RIdx FO (field FO t)) (field FO t)) st4 in
      (true, st5, S NEXT_ID)
  end.

(** [for (let f of triples) ok = this.addTriple(f) && ok;] *)
Fixpoint addTriples (ts : list Triple) (st : TripleStore) (NEXT_ID : nat) :
    bool * TripleStore * nat :=
  match ts with
  | [] => (true, st, NEXT_ID)
  | f :: rest =>
      let '(b, st1, n1) := addTriple f st NEXT_ID in
      let '(ok, st2, n2) := addTriples rest st1 n1 in
      (b && ok, st2, n2)
  end.

(** [new TripleStore(triples?)]; the static counter is not touched by
    the constructor itself. *)
Definition constructor (ts : option (list Triple)) (NEXT_ID : nat) : TripleStore * nat :=
  match ts with
  | Some l => let '(_, st, n) := addTriples l empty_store NEXT_ID in (st, n)
  | None => (empty_store, NEXT_ID)
  end.

(** ** Pattern queries *)

(** [getIndexSelection]: a concrete key gets its narrow-cast, created
    (without a value yet) on first request; [null] gets
    [allSelections[id]]. *)
Definition getIndexSelection (f : Field) (k : option Value) (st : TripleStore) : TripleStore :=
  match k with
  | Some k =>
      match indexSelections st !! (f, k) with
      | Some _ => st
      | None => set_selections (<[(f, k) := None]> (indexSelections st)) st
      end
  | None => st
  end.

(** Modelled from the spec: the current (latest) value of a channel, here
    of the source that [getIndexSelection] returned. *)
Definition source_current (st : TripleStore) (f : Field) (k : option Value) : option SetRef :=
  match k with
  | Some k => default None (indexSelections st !! (f, k))
  | None => streamAll st
  end.

(** Modelled from the spec: [sync] with [reset: true] replays the current
    value of a source, if it has one, when the source is wired. *)
Definition wire (st : TripleStore) (f : Field) (q : Sync) : Sync :=
  match source_current st f (pfield f (q_pattern q)) with
  | Some v => sync_next st f v q
  | None => q
  end.

(** The local closure [submit(index, stream, key)]. *)
Definition submit (f : Field) (k : option Value) (st : TripleStore) : TripleStore :=
  match k with
  | Some k =>
      match index_of st f !! k with
      | Some _ => next_sel f k (mkEdit (RIdx f k) k) st
      | None => st
      end
  | None => st
  end.

(** What [addPatternQuery] returns: [results] is the ALL stream or the
    [n]-th sync node, optionally followed by [asTriples]. *)
Inductive Results :=
  | ResAll
  | ResSync (n : nat).

Record Subscription := mkSub { results : Results; emitTriples : bool }.

(** [key == null] *)
Definition isNull (k : option Value) : bool :=
  match k with None => true | Some _ => false end.

Definition addPatternQuery (id : string) (pat : Pattern) (emit : bool)
    (st : TripleStore) : Subscription * TripleStore :=
  let s := pfield FS pat in
  let p := pfield FP pat in
  let o := pfield FO pat in
  if isNull s && isNull p && isNull o then (mkSub ResAll emit, st)
  else
    let st1 := getIndexSelection FS s st in
    let st2 := getIndexSelection FP p st1 in
    let st3 := getIndexSelection FO o st2 in
    let q := wire st3 FO (wire st3 FP (wire st3 FS
               (mkSync id pat (None, None, None) []))) in
    let st4 := set_queries (queries st3 ++ [q]) st3 in
    let st5 := submit FS s st4 in
    let st6 := submit FP p st5 in
    let st7 := submit FO o st6 in
    (mkSub (ResSync (length (queries st3))) emit, st7).

(** [asTriples(graph)]: the stored triples of the given ids. *)
Definition asTriples (st : TripleStore) (ids : TripleIds) : list Triple :=
  omap (λ id, triples st !! id) (elements ids).

(** The id sets pushed so far on the channel [results] of a
    subscription, oldest first: the emissions of its sync node, or for
    the ALL stream the pushes of the global set (one shared object, so
    every one of them shows its current content). *)
Definition emitted (st : TripleStore) (sub : Subscription) : list TripleIds :=
  match results sub with
  | ResAll =>
      omap (λ p, match p with PushAll r => Some (deref st r) | _ => None end)
           (pushes st)
  | ResSync n => default [] (q_out <$> queries st !! n)
  end.


(** ** Reachable stores and the data invariant *)

(** A triple is stored when it sits in some slot of the triple table
    (the same terms: equal primitives, the same objects). *)
Definition stored (st : TripleStore) (t : Triple) : Prop :=
  ∃ id, triples st !! id = Some t.

(** A structurally-equal triple is stored. *)
Definition equiv_stored (st : TripleStore) (t : Triple) : Prop :=
  ∃ id, equiv (triples st !! id) t = true.

(** Every fact of the store consists of primitive terms. *)
Definition plain (st : TripleStore) : Prop :=
  ∀ id t, triples st !! id = Some t → primitive_triple t = true.

Record data_inv (st : TripleStore) (n : nat) : Prop := mkDataInv {
  inv_fresh : ∀ id t, triples st !! id = Some t → id < n;
  inv_all : allIDs st = dom (triples st);
  inv_sound : ∀ f k ids id,
    index_of st f !! k = Some ids → id ∈ ids →
    ∃ t, triples st !! id = Some t ∧ field f t = k;
  inv_complete : ∀ f id t,
    triples st !! id = Some t →
    ∃ ids, index_of st f !! field f t = Some ids ∧ id ∈ ids;
  inv_nonempty : ∀ f k ids, index_of st f !! k = Some ids → ids ≠ ∅
}.

(** The stores a program can build, with the value of the static
    counter at that moment.  The counter is shared: insertions into
    other stores move it without touching this store. *)
Inductive reachable : TripleStore → nat → Prop :=
  | reach_new n :
      reachable empty_store n
  | reach_elsewhere st n :
      reachable st n → reachable st (S n)
  | reach_addTriple st n t :
      reachable st n →
      reachable (addTriple t st n).1.2 (addTriple t st n).2
  | reach_addPatternQuery st n id pat emit :
      reachable st n →
      reachable (addPatternQuery id pat emit st).2 n.

(** Two stores with the same table, indices and global set. *)
Definition same_data (st st' : TripleStore) : Prop :=
  triples st' = triples st ∧ indexS st' = indexS st ∧ indexP st' = indexP st
  ∧ indexO st' = indexO st ∧ allIDs st' = allIDs st.

(** ** Auxiliary notions for the statements *)

(** The data part of the store after a successful insertion. *)
Definition inserted (t : Triple) (st : TripleStore) (id : nat) : TripleStore :=
  mkStore (<[id := t]> (triples st))
          (<[field FS t := default ∅ (indexS st !! field FS t) ∪ {[id]}]> (indexS st))
          (<[field FP t := default ∅ (indexP st !! field FP t) ∪ {[id]}]> (indexP st))
          (<[field FO t := default ∅ (indexO st !! field FO t) ∪ {[id]}]> (indexO st))
          (indexSelections st)
          (allIDs st ∪ {[id]})
          (streamAll st) (queries st) (pushes st).

(** The four emissions of a successful insertion. *)
Definition emissions (t : Triple) (st : TripleStore) : TripleStore :=
  next_field FO (mkEdit (RIdx FO (field FO t)) (field FO t))
    (next_field FP (mkEdit (RIdx FP (field FP t)) (field FP t))
      (next_field FS (mkEdit (RIdx FS (field FS t)) (field FS t))
        (next_all st))).

(** What the four emissions of a successful [addTriple(t)] do to one
    sync node: the push on ALL through the three pass-through
    selections, then the three edits through the narrow-casts. *)
Definition delivered (t : Triple) (st : TripleStore) (q : Sync) : Sync :=
  on_sel st FO (mkEdit (RIdx FO (field FO t)) (field FO t))
    (on_sel st FP (mkEdit (RIdx FP (field FP t)) (field FP t))
      (on_sel st FS (mkEdit (RIdx FS (field FS t)) (field FS t))
        (on_all st FO (on_all st FP (on_all st FS q))))).

(** Two independent stores built one after the other by the same
    program: the first receives [t1], then the second is constructed and
    receives [t2]. *)
Definition two_stores (t1 t2 : Triple) : TripleStore * TripleStore * nat :=
  let '(a, n0) := constructor None NEXT_ID_init in
  let '(_, a1, n1) := addTriple t1 a n0 in
  let '(b, n2) := constructor None n1 in
  let '(_, b1, n3) := addTriple t2 b n2 in
  (a1, b1, n3).

(** Sample terms and triples used by the concrete instances below. *)
Definition abc : Triple := (VStr "a", VStr "b", VStr "c").
Definition abd : Triple := (VStr "a", VStr "b", VStr "d").
Definition aec : Triple := (VStr "a", VStr "e", VStr "c").

Definition store_abc : TripleStore := (addTriple abc empty_store 0).1.2.

(** Two triples whose subjects are two different arrays with the one element x, and
    the store that holds the first. *)
Definition xpo : Triple := (VObj "[x]" 0, VStr "p", VStr "o").
Definition xpo' : Triple := (VObj "[x]" 1, VStr "p", VStr "o").
Definition store_xpo : TripleStore := (addTriple xpo empty_store 0).1.2.


(** ** Notions for the query statements *)

(** A triple matches a pattern when it agrees with every concrete field. *)
Definition matches (pat : Pattern) (t : Triple) : Prop :=
  ∀ f k, pfield f pat = Some k → field f t = k.

(** At least one field of the pattern is concrete. *)
Definition constrained (pat : Pattern) : Prop :=
  isNull (pfield FS pat) && isNull (pfield FP pat) && isNull (pfield FO pat) = false.

(** The set a source of a pattern query refers to: the index set of the
    key for a concrete field, the global set for a wildcard. *)
Definition src_ref (f : Field) (pat : Pattern) : SetRef :=
  match pfield f pat with
  | Some k => RIdx f k
  | None => RAll
  end.

(** The referenced set exists (for the global set: it has been pushed). *)
Definition live (st : TripleStore) (r : SetRef) : bool :=
  match r with
  | RAll => bool_decide (allIDs st ≠ ∅)
  | RIdx f k => bool_decide (is_Some (index_of st f !! k))
  end.

Definition all_live (st : TripleStore) (pat : Pattern) : bool :=
  live st (src_ref FS pat) && live st (src_ref FP pat) && live st (src_ref FO pat).

(** The three-way intersection of the sets a pattern refers to. *)
Definition matching (st : TripleStore) (pat : Pattern) : TripleIds :=
  deref st (src_ref FS pat) ∩ deref st (src_ref FP pat) ∩ deref st (src_ref FO pat).

(** The pushes of the three [submit] calls for a pattern. *)
Definition replay_of (st : TripleStore) (f : Field) (pat : Pattern) : list Push :=
  match pfield f pat with
  | Some k =>
      match index_of st f !! k with
      | Some _ => [PushSel f k (mkEdit (RIdx f k) k)]
      | None => []
      end
  | None => []
  end.

Definition replay (st : TripleStore) (pat : Pattern) : list Push :=
  replay_of st FS pat ++ replay_of st FP pat ++ replay_of st FO pat.

(** Every source of the node has delivered. *)
Definition complete (q : Sync) : Prop :=
  ∀ f, is_Some (get_latest f (q_latest q)).

(** What a node has seen are the sets of its pattern, and they exist. *)
Definition sound (st : TripleStore) (q : Sync) : Prop :=
  ∀ f v, get_latest f (q_latest q) = Some v →
         v = src_ref f (q_pattern q) ∧ live st v = true.

(** A node emits only once it is complete. *)
Definition quiet (q : Sync) : Prop := q_out q ≠ [] → complete q.

(** The last emission of a complete node is the current intersection. *)
Definition fresh (st : TripleStore) (q : Sync) : Prop :=
  complete q → last (q_out q) = Some (matching st (q_pattern q)).

Record sync_inv (st : TripleStore) (q : Sync) : Prop := mkSyncInv {
  si_constrained : constrained (q_pattern q);
  si_latest : ∀ f, get_latest f (q_latest q)
                   = if live st (src_ref f (q_pattern q))
                     then Some (src_ref f (q_pattern q)) else None;
  si_out : if all_live st (q_pattern q)
           then last (q_out q) = Some (matching st (q_pattern q))
           else q_out q = []
}.

(** The current value of a cached narrow-cast is the index set of its key. *)
Definition sel_sound (st : TripleStore) : Prop :=
  ∀ f k v, indexSelections st !! (f, k) = Some (Some v) →
           v = RIdx f k ∧ is_Some (index_of st f !! k).

Record query_inv (st : TripleStore) : Prop := mkQueryInv {
  qi_all : streamAll st = if bool_decide (allIDs st ≠ ∅) then Some RAll else None;
  qi_sel : sel_sound st;
  qi_sync : Forall (sync_inv st) (queries st)
}.

(** A source delivers its own set to the node, or stays silent. *)
Definition touch (st : TripleStore) (b : bool) (f : Field) (q : Sync) : Sync :=
  if b then sync_next st f (src_ref f (q_pattern q)) q else q.

Fixpoint run (st : TripleStore) (bs : list (bool * Field)) (q : Sync) : Sync :=
  match bs with
  | [] => q
  | (b, f) :: bs => run st bs (touch st b f q)
  end.

Definition touched (g : Field) (bs : list (bool * Field)) : bool :=
  existsb (λ x, x.1 && bool_decide (x.2 = g)) bs.

Definition any_touch (bs : list (bool * Field)) : bool := existsb fst bs.

(** Later states of a store: the operations of [reachable], started
    from an arbitrary store. *)
Inductive steps (st0 : TripleStore) (n0 : nat) : TripleStore → nat → Prop :=
  | steps_refl :
      steps st0 n0 st0 n0
  | steps_elsewhere st n :
      steps st0 n0 st n → steps st0 n0 st (S n)
  | steps_addTriple st n t :
      steps st0 n0 st n →
      steps st0 n0 (addTriple t st n).1.2 (addTriple t st n).2
  | steps_addPatternQuery st n id pat emit :
      steps st0 n0 st n →
      steps st0 n0 (addPatternQuery id pat emit st).2 n.

(** The deliveries one successful [addTriple(t)] of a triple of
    primitive terms makes to a sync node of pattern [pat]: through
    [allSelections] for its wildcards, then through the narrow-casts
    whose key is a field of [t] ([equiv] against a primitive term is
    equality; [delivered] covers any terms). *)
Definition deliveries (t : Triple) (pat : Pattern) : list (bool * Field) :=
  [ (isNull (pfield FS pat), FS);
    (isNull (pfield FP pat), FP);
    (isNull (pfield FO pat), FO);
    (bool_decide (pfield FS pat = Some (field FS t)), FS);
    (bool_decide (pfield FP pat = Some (field FP t)), FP);
    (bool_decide (pfield FO pat = Some (field FO t)), FO) ].

(** Whether [submit] for field [f] of the new pattern [pat] reaches a
    node of pattern [pat']. *)
Definition submit_hit (st : TripleStore) (f : Field) (pat pat' : Pattern) : bool :=
  match pfield f pat with
  | Some k => bool_decide (is_Some (index_of st f !! k))
              && bool_decide (pfield f pat' = Some k)
  | None => false
  end.

Definition submits (st : TripleStore) (pat pat' : Pattern) : list (bool * Field) :=
  [ (submit_hit st FS pat pat', FS);
    (submit_hit st FP pat pat', FP);
    (submit_hit st FO pat pat', FO) ].

(** Which sources replay a current value when a node is wired. *)
Definition wirings (st : TripleStore) (pat : Pattern) : list (bool * Field) :=
  [ (bool_decide (is_Some (source_current st FS (pfield FS pat))), FS);
    (bool_decide (is_Some (source_current st FP (pfield FP pat))), FP);
    (bool_decide (is_Some (source_current st FO (pfield FO pat))), FO) ].

(** The store after the three [getIndexSelection] calls. *)
Definition selected (pat : Pattern) (st : TripleStore) : TripleStore :=
  getIndexSelection FO (pfield FO pat)
    (getIndexSelection FP (pfield FP pat)
      (getIndexSelection FS (pfield FS pat) st)).

(** The claim that the transform intersects the two smallest sets first:
    neither operand of its first [intersection] call is larger than the
    set joined in by the second call. *)
Definition smallest_pair_first (s p o : TripleIds) : Prop :=
  match (xform s p o).2 with
  | (a, b) :: (_, c) :: _ => size a ≤ size c ∧ size b ≤ size c
  | _ => False
  end.

(** The three facts of the intersection example and the query [a, b, *]. *)
Definition store_abc_abd : TripleStore := (addTriple abd store_abc 1).1.2.
Definition store3 : TripleStore := (addTriple aec store_abc_abd 2).1.2.
Definition pat_ab : Pattern := (Some (VStr "a"), Some (VStr "b"), None).

(** ** Parametric queries *)

(** [Solution]: a record from variable names to bound values. *)
Abbreviation Solution := (gmap string Value).

(** [Solutions = Set<Solution>]: a JS set of record objects, each a
    distinct object, in insertion order. *)
Abbreviation Solutions := (list (gmap string Value)).

(** Modelled from the spec: [isQVar] of the query-variable module is not
    among the sources at hand.  A query variable is a string with the
    prefix [?]; the rest of the string is the variable name. *)
Definition isQVar (x : option Value) : bool :=
  match x with
  | Some (VStr (String c _)) => bool_decide (c = "?"%char)
  | _ => false
  end.

Definition qvarName (x : option Value) : string :=
  match x with
  | Some (VStr (String _ name)) => name
  | _ => EmptyString
  end.

Definition bind_qvar (b : bool) (x : option Value) (v : Value)
    (sol : gmap string Value) : gmap string Value :=
  if b then <[qvarName x := v]> sol else sol.

(** Modelled from the spec: [qvarResolver] of the pattern module is not
    among the sources at hand.  With no query variable there is nothing
    to resolve and no resolver; otherwise the resolver builds, for a
    triple, the record binding the name of every variable field to the
    triple's value at that position. *)
Definition qvarResolver (vs vp vo : bool) (s p o : option Value) :
    option (Triple → gmap string Value) :=
  if vs || vp || vo then
    Some (λ f, bind_qvar vo o (field FO f)
                 (bind_qvar vp p (field FP f)
                    (bind_qvar vs s (field FS f) ∅)))
  else None.

Inductive Error :=
  | IllegalArgumentError (msg : string).

(** A call either returns or throws. *)
Inductive Outcome (A : Type) :=
  | Returned (a : A)
  | Thrown (e : Error).
Arguments Returned {A} a.
Arguments Thrown {A} e.

(** Modelled from the spec: [illegalArgs] of the api package is not among
    the sources at hand; it raises an illegal-argument error. *)
Definition illegalArgs {A : Type} (msg : string) : Outcome A :=
  Thrown (IllegalArgumentError msg).

(** The subscription built by [addParamQuery]: the raw pattern query
    followed by the resolving [map] stage. *)
Record ParamSubscription := mkParam {
  p_id : string;
  p_raw : Subscription;
  p_resolve : Triple → gmap string Value
}.

Definition addParamQuery (id : string) (pat : Pattern) (st : TripleStore) :
    Outcome ParamSubscription * TripleStore :=
  let s := pfield FS pat in
  let p := pfield FP pat in
  let o := pfield FO pat in
  let vs := isQVar s in
  let vp := isQVar p in
  let vo := isQVar o in
  match qvarResolver vs vp vo s p o with
  | None =>
      (illegalArgs "at least 1 query variable is required in pattern", st)
  | Some resolve =>
      let r := addPatternQuery (id +:+ "-raw")
                 (if vs then None else s, if vp then None else p, if vo then None else o)
                 true st in
      (Returned (mkParam id r.1 resolve), r.2)
  end.

(** The [map] stage of a parametric query on one emitted set of triples. *)
Definition solutions_of (ps : ParamSubscription) (ts : list Triple) : Solutions :=
  p_resolve ps <$> ts.

(** ** Joins *)

(** Two records agree when every name bound in both has one value. *)
Definition agree (x y : gmap string Value) : bool :=
  forallb (λ kv, match y !! kv.1 with
                 | Some w => bool_decide (kv.2 = w)
                 | None => true
                 end) (map_to_list x).

(** Modelled from the spec: [join] of the associative-collections
    package is not among the sources at hand.  The natural join of two
    relations: one merged record per pair of records that agree on the
    names they share. *)
Definition join (a b : Solutions) : Solutions :=
  flat_map (λ x, flat_map (λ y, if agree x y then [x ∪ y] else []) b) a.

(** [comp(map(({ a, b }) => join(a, b)), filter((x) => x.size > 0))]:
    [None] when the filter drops the value. *)
Definition join_xform (a b : Solutions) : option Solutions :=
  let x := join a b in
  if 0 <? length x then Some x else None.

Inductive Side := SideA | SideB.

(** Modelled from the spec: the [sync] node of a join (see [sync_next]):
    the latest value of either source, and the emitted values (oldest
    first). *)
Record JoinSync := mkJoin {
  j_id : string;
  j_a : option Solutions;
  j_b : option Solutions;
  j_out : list Solutions
}.

(** One source of the join delivers [v]. *)
Definition join_next (side : Side) (v : Solutions) (j : JoinSync) : JoinSync :=
  let a := match side with SideA => Some v | SideB => j_a j end in
  let b := match side with SideA => j_b j | SideB => Some v end in
  match a, b with
  | Some xa, Some xb =>
      match join_xform xa xb with
      | Some x => mkJoin (j_id j) a b (j_out j ++ [x])
      | None => mkJoin (j_id j) a b (j_out j)
      end
  | _, _ => mkJoin (j_id j) a b (j_out j)
  end.

(** [addQueryJoin(id, a, b)]: a new node without values; the deliveries
    of its inputs [a] and [b] are [join_next SideA] and
    [join_next SideB]. *)
Definition addQueryJoin (id : string) : JoinSync :=
  mkJoin id None None [].

(** The node after a sequence of deliveries from its two inputs. *)
Definition join_run (j : JoinSync) (us : list (Side * Solutions)) : JoinSync :=
  foldl (λ j u, join_next u.1 u.2 j) j us.

(** Sample solution sets: [?x -> a] against [?x -> b], and against
    [?x -> a, ?y -> c]. *)
Definition sol_xa : gmap string Value := {[ "x" := VStr "a" ]}.
Definition sol_xb : gmap string Value := {[ "x" := VStr "b" ]}.
Definition sol_xa_yc : gmap string Value := <[ "y" := VStr "c" ]> sol_xa.

(** ** Sample runs *)

(** The query [a, b, *] subscribed on the empty store, before the three
    facts are inserted. *)
Definition early_sub : Subscription := (addPatternQuery "q" pat_ab false empty_store).1.

Definition early_store : TripleStore :=
  let st0 := (addPatternQuery "q" pat_ab false empty_store).2 in
  let st1 := (addTriple abc st0 0).1.2 in
  let st2 := (addTriple abd st1 1).1.2 in
  (addTriple aec st2 2).1.2.

(** Two "friend" facts and the parametric query [?x, friend, ?y]. *)
Definition alice_bob : Triple := (VStr "alice", VStr "friend", VStr "bob").
Definition carol_dave : Triple := (VStr "carol", VStr "friend", VStr "dave").
Definition friends : TripleStore :=
  (addTriples [alice_bob; carol_dave] empty_store 0).1.2.
Definition pat_friend : Pattern :=
  (Some (VStr "?x"), Some (VStr "friend"), Some (VStr "?y")).

(** The solutions a parametric query currently shows. *)
Definition param_current (st : TripleStore) (ps : ParamSubscription) : option Solutions :=
  (λ ids, solutions_of ps (asTriples st ids)) <$> last (emitted st (p_raw ps)).

(** ** Further notions: the store as a set of facts *)

(** No triple sits in two slots of the table. *)
Definition unique_triples (st : TripleStore) : Prop :=
  ∀ id id' t, triples st !! id = Some t → triples st !! id' = Some t → id = id'.

(** The stored facts, as a set. *)
Definition stored_set (st : TripleStore) : gset Triple := map_img (triples st).

(** A later store extends an earlier one: slots, index sets, the global
    set and the log of pushes only grow. *)
Definition extends (st st' : TripleStore) : Prop :=
  triples st ⊆ triples st'
  ∧ (∀ f k ids, index_of st f !! k = Some ids →
                ∃ ids', index_of st' f !! k = Some ids' ∧ ids ⊆ ids')
  ∧ allIDs st ⊆ allIDs st'
  ∧ pushes st `prefix_of` pushes st'
  ∧ length (queries st) ≤ length (queries st').

(** The (field, key) pairs a pattern constrains. *)
Definition key_of (f : Field) (pat : Pattern) : gset (Field * Value) :=
  match pfield f pat with
  | Some k => {[ (f, k) ]}
  | None => ∅
  end.

Definition concrete_keys (pat : Pattern) : gset (Field * Value) :=
  key_of FS pat ∪ key_of FP pat ∪ key_of FO pat.

(** The pattern [addParamQuery] hands to [addPatternQuery]:
    [[vs ? null : s, vp ? null : p, vo ? null : o]]. *)
Definition raw_pattern (pat : Pattern) : Pattern :=
  (if isQVar (pfield FS pat) then None else pfield FS pat,
   if isQVar (pfield FP pat) then None else pfield FP pat,
   if isQVar (pfield FO pat) then None else pfield FO pat).

(** Every set a sync node has emitted consists of ids of the store. *)
Definition out_bounded (st : TripleStore) (q : Sync) : Prop :=
  Forall (λ ids : TripleIds, ids ⊆ allIDs st) (q_out q).

(** Two stores of one program, sharing the static counter: the second
    is constructed at some point of the life of the first, and from then
    on either of them is operated. *)
Inductive reachable2 : TripleStore → TripleStore → nat → Prop :=
  | reach2_second a n :
      reachable a n → reachable2 a empty_store n
  | reach2_elsewhere a b n :
      reachable2 a b n → reachable2 a b (S n)
  | reach2_addTriple_fst a b n t :
      reachable2 a b n →
      reachable2 (addTriple t a n).1.2 b (addTriple t a n).2
  | reach2_addTriple_snd a b n t :
      reachable2 a b n →
      reachable2 a (addTriple t b n).1.2 (addTriple t b n).2
  | reach2_addPatternQuery_fst a b n id pat emit :
      reachable2 a b n →
      reachable2 (addPatternQuery id pat emit a).2 b n
  | reach2_addPatternQuery_snd a b n id pat emit :
      reachable2 a b n →
      reachable2 a (addPatternQuery id pat emit b).2 n.

(** An edit pushed by the store carries the index set of its own key,
    and that set exists. *)
Definition edit_ok (st : TripleStore) (f : Field) (e : Edit) : Prop :=
  index e = RIdx f (key e) ∧ is_Some (index_of st f !! key e).

Definition push_ok (st : TripleStore) (p : Push) : Prop :=
  match p with
  | PushAll r => r = RAll
  | PushField f e => edit_ok st f e
  | PushSel f k e => key e = k ∧ edit_ok st f e
  end.

(** ** The gesture stream

    The transform that [gestureStream] maps over the merged DOM events,
    with the three variables it closes over ([isDown], [clickPos],
    [zoom]) as explicit state.  JavaScript numbers are IEEE doubles; the
    arithmetic on them is kept abstract (a class of operations without
    laws), so that what is proved holds for the real arithmetic as for
    any other.  [clamp] of the math package is not among the sources
    at hand and is one of these operations. *)

Class Number (Num : Type) := {
  num_of_Z : Z → Num;                  (* a numeric literal *)
  num_gt0 : Num → bool;                (* x > 0 *)
  num_int32 : Num → Num;               (* x | 0 *)
  num_neg : Num → Num;
  num_add : Num → Num → Num;
  num_sub : Num → Num → Num;
  num_mul : Num → Num → Num;
  num_div : Num → Num → Num;
  clamp : Num → Num → Num → Num        (* clamp(x, min, max) *)
}.

Inductive GestureType := START | MOVE | DRAG | END | ZOOM.

Inductive TouchName := touchstart | touchmove | touchend | touchcancel.
Inductive MouseName := mousedown | mousemove | mouseup | wheel.

Global Instance TouchName_eq_dec : EqDecision TouchName.
Proof. solve_decision. Defined.

(** [touchEventMap] *)
Definition touchEventMap (name : TouchName) : GestureType :=
  match name with
  | touchstart => START
  | touchmove => DRAG
  | touchend => END
  | touchcancel => END
  end.

Section gesture.
Context {Num : Type} {NumOps : Number Num}.

(** [~~b] for a boolean [b] *)
Definition num_of_bool (b : bool) : Num := num_of_Z (if b then 1 else 0).

(** The events of the eight listened names: a touch event (it has
    [touches]) with the client position of [changedTouches[0]], or a
    mouse or wheel event with its [buttons], client position, and the
    wheel fields [wheelDeltaY] (present or not) and [deltaY]. *)
Inductive UIEvent :=
  | TouchEvent (name : TouchName) (clientX clientY : Num)
  | MouseEvent (name : MouseName) (buttons : Num) (clientX clientY : Num)
               (wheelDeltaY : option Num) (deltaY : Num).

(** The options the transform reads. *)
Record GestureStreamOpts := mkOpts {
  o_zoom : Num;
  o_absZoom : bool;
  o_minZoom : Num;
  o_maxZoom : Num;
  o_smooth : Num;
  o_local : bool;
  o_scale : bool
}.

Record GestureInfo := mkInfo {
  g_pos : Num * Num;
  g_click : option (Num * Num);
  g_delta : option (Num * Num);
  g_zoom : Num;
  g_zoomDelta : Num;
  g_buttons : Num
}.

(** What the transform does with one event: it returns a gesture event
    [[type, body]], or reading [clickPos[0]] of [null] throws. *)
Inductive GestureOutcome :=
  | Gesture (type : GestureType) (body : GestureInfo)
  | TypeErrorThrown.

Record GestureState := mkGState {
  isDown : bool;
  clickPos : option (Num * Num);
  zoom : Num
}.

(** [let isDown = false; let clickPos = null;
     let zoom = clamp(opts.zoom, opts.minZoom, opts.maxZoom);] *)
Definition gesture_init (opts : GestureStreamOpts) : GestureState :=
  mkGState false None (clamp (o_zoom opts) (o_minZoom opts) (o_maxZoom opts)).

(** The gesture type the transform assigns: through [touchEventMap] for
    a touch event, through the object literal for the others, where
    [isDown] has just been set to [buttons > 0]. *)
Definition gesture_type (e : UIEvent) : GestureType :=
  match e with
  | TouchEvent name _ _ => touchEventMap name
  | MouseEvent name buttons _ _ _ _ =>
      match name with
      | mousedown => START
      | mousemove => if num_gt0 buttons then DRAG else MOVE
      | mouseup => END
      | wheel => ZOOM
      end
  end.

(** [buttons]: [~~(e.type == "touchstart" || e.type != "touchmove")] for a
    touch event, [evt.buttons] otherwise. *)
Definition gesture_buttons (e : UIEvent) : Num :=
  match e with
  | TouchEvent name _ _ =>
      num_of_bool (bool_decide (name = touchstart)
                   || negb (bool_decide (name = touchmove)))
  | MouseEvent _ buttons _ _ _ _ => buttons
  end.

(** [pos]: the client position cut to 32-bit integers, then made local
    to the element ([rect] is its bounding rectangle's [left], [top])
    and scaled by the device pixel ratio, as the options ask. *)
Definition gesture_pos (opts : GestureStreamOpts) (dpr : Num) (rect : Num * Num)
    (e : UIEvent) : Num * Num :=
  let client := match e with
                | TouchEvent _ x y => (x, y)
                | MouseEvent _ _ x y _ _ => (x, y)
                end in
  let pos0 := (num_int32 client.1, num_int32 client.2) in
  let pos1 := if o_local opts
              then (num_sub pos0.1 rect.1, num_sub pos0.2 rect.2) else pos0 in
  if o_scale opts then (num_mul pos1.1 dpr, num_mul pos1.2 dpr) else pos1.

(** [zdelta] of a wheel event *)
Definition gesture_zdelta (opts : GestureStreamOpts) (e : UIEvent) : Num :=
  match e with
  | MouseEvent _ _ _ _ (Some w) _ =>
      num_mul (o_smooth opts) (num_div (num_neg w) (num_of_Z 120))
  | MouseEvent _ _ _ _ None deltaY =>
      num_mul (o_smooth opts) (num_div deltaY (num_of_Z 40))
  | TouchEvent _ _ _ => num_of_Z 0
  end.

(** The body of the [map] transform on one event. *)
Definition gesture_step (opts : GestureStreamOpts) (dpr : Num) (rect : Num * Num)
    (e : UIEvent) (s : GestureState) : GestureOutcome * GestureState :=
  let down := match e with
              | TouchEvent _ _ _ => isDown s
              | MouseEvent _ buttons _ _ _ _ => num_gt0 buttons
              end in
  let type := gesture_type e in
  let pos := gesture_pos opts dpr rect e in
  let body := mkInfo pos None None (zoom s) (num_of_Z 0) (gesture_buttons e) in
  match type with
  | START => (Gesture type body, mkGState true (Some pos) (zoom s))
  | END => (Gesture type body, mkGState false None (zoom s))
  | DRAG =>
      match clickPos s with
      | Some c =>
          (Gesture type
             (mkInfo pos (Some c)
                     (Some (num_sub pos.1 c.1, num_sub pos.2 c.2))
                     (zoom s) (num_of_Z 0) (gesture_buttons e)),
           mkGState down (clickPos s) (zoom s))
      | None => (TypeErrorThrown, mkGState down (clickPos s) (zoom s))
      end
  | ZOOM =>
      let zdelta := gesture_zdelta opts e in
      let z := if o_absZoom opts
               then clamp (num_add (zoom s) zdelta) (o_minZoom opts) (o_maxZoom opts)
               else zdelta in
      (Gesture type (mkInfo pos None None z zdelta (gesture_buttons e)),
       mkGState down (clickPos s) z)
  | MOVE => (Gesture type body, mkGState down (clickPos s) (zoom s))
  end.

(** The transform over a sequence of events (each with the element's
    rectangle at that moment), up to the first throw: the outcomes in
    order and the final state. *)
Fixpoint gesture_run (opts : GestureStreamOpts) (dpr : Num)
    (es : list ((Num * Num) * UIEvent)) (s : GestureState) :
    list GestureOutcome * GestureState :=
  match es with
  | [] => ([], s)
  | (rect, e) :: rest =>
      let r := gesture_step opts dpr rect e s in
      match r.1 with
      | TypeErrorThrown => ([TypeErrorThrown], r.2)
      | out =>
          let r' := gesture_run opts dpr rest r.2 in
          (out :: r'.1, r'.2)
      end
  end.

(** Two states of the closure that agree on [clickPos] and [zoom]. *)
Definition same_gesture (s s' : GestureState) : Prop :=
  clickPos s = clickPos s' ∧ zoom s = zoom s'.

(** The zoom an outcome reports, if it is a gesture. *)
Definition outcome_zoom (o : GestureOutcome) : option Num :=
  match o with
  | Gesture _ body => Some (g_zoom body)
  | TypeErrorThrown => None
  end.
End gesture.

(** Integers as a stand-in number type, for evaluating sample runs. *)
Definition Z_number : Number Z :=
  {| num_of_Z := id;
     num_gt0 := λ x, bool_decide (0 < x)%Z;
     num_int32 := id;
     num_neg := Z.opp;
     num_add := Z.add;
     num_sub := Z.sub;
     num_mul := Z.mul;
     num_div := Z.div;
     clamp := λ x lo hi, Z.max lo (Z.min x hi) |}.

(** ** Further sample data *)

(** The query [a, b, *] subscribed once [abc] is stored, its sync node,
    and both after [abd] has been inserted as well. *)
Definition late_store : TripleStore :=
  (addPatternQuery "q" pat_ab false store_abc).2.
Definition late_node : Sync :=
  default (mkSync "q" pat_ab (None, None, None) []) (head (queries late_store)).
Definition late_store_abd : TripleStore := (addTriple abd late_store 1).1.2.
Definition late_node_abd : Sync :=
  default (mkSync "q" pat_ab (None, None, None) []) (head (queries late_store_abd)).

(** A second store that inserts [abd] after [store_abc] took id 0. *)
Definition store_abd_second : TripleStore := (addTriple abd empty_store 1).1.2.

(** Gesture samples over the integers: default-like options, a mouse
    down, a wheel turn, a mouse move with the button held, a touch
    start, and the element's rectangle at the origin. *)
Definition sample_opts : @GestureStreamOpts Z := mkOpts 1%Z true 0%Z 4%Z 1%Z true false.
Definition rect0 : Z * Z := (0%Z, 0%Z).
Definition ev_down : @UIEvent Z := MouseEvent mousedown 1%Z 10%Z 20%Z None 0%Z.
Definition ev_wheel : @UIEvent Z := MouseEvent wheel 0%Z 12%Z 22%Z (Some 120%Z) 0%Z.
Definition ev_drag : @UIEvent Z := MouseEvent mousemove 1%Z 15%Z 26%Z None 0%Z.
Definition ev_touch : @UIEvent Z := TouchEvent touchstart 3%Z 4%Z.
Section data_lemmas.
Implicit Types (st : TripleStore) (t f : Triple) (n id : nat).

Lemma same_data_refl st : same_data st st.
Proof. by repeat split. Qed.

Lemma same_data_trans st1 st2 st3 :
  same_data st1 st2 → same_data st2 st3 → same_data st1 st3.
Proof.
  intros (?&?&?&?&?) (?&?&?&?&?). repeat split; congruence.
Qed.

Lemma same_data_index st st' fl :
  same_data st st' → index_of st' fl = index_of st fl.
Proof. intros (?&?&?&?&?). by destruct fl. Qed.

Lemma same_data_deref st st' r :
  same_data st st' → deref st' r = deref st r.
Proof.
  intros H. destruct r as [|fl k]; simpl.
  - by destruct H as (?&?&?&?&?).
  - by rewrite (same_data_index _ _ _ H).
Qed.

Lemma same_data_inv st st' n :
  same_data st st' → data_inv st n → data_inv st' n.
Proof.
  intros H [H1 H2 H3 H4 H5].
  assert (Ht : triples st' = triples st) by apply H.
  assert (Ha : allIDs st' = allIDs st) by apply H.
  split.
  - intros id t. rewrite Ht. apply H1.
  - by rewrite Ha, Ht.
  - intros fl k ids id. rewrite Ht, (same_data_index _ _ fl H). apply H3.
  - intros fl id t. rewrite Ht, (same_data_index _ _ fl H). apply H4.
  - intros fl k ids. rewrite (same_data_index _ _ fl H). apply H5.
Qed.

Lemma same_data_next_all st : same_data st (next_all st).
Proof. by repeat split. Qed.

Lemma same_data_next_field fl e st : same_data st (next_field fl e st).
Proof. by repeat split. Qed.

Lemma same_data_next_sel fl k e st : same_data st (next_sel fl k e st).
Proof. unfold next_sel. destruct (equiv_term _ _); by repeat split. Qed.

Lemma same_data_getIndexSelection fl k st :
  same_data st (getIndexSelection fl k st).
Proof.
  unfold getIndexSelection. destruct k as [k|]; [|apply same_data_refl].
  destruct (indexSelections st !! (fl, k)); by repeat split.
Qed.

Lemma same_data_submit fl k st : same_data st (submit fl k st).
Proof.
  unfold submit. destruct k as [k|]; [|apply same_data_refl].
  destruct (index_of st fl !! k); [apply same_data_next_sel|apply same_data_refl].
Qed.

Lemma same_data_addPatternQuery qid pat emit st :
  same_data st (addPatternQuery qid pat emit st).2.
Proof.
  unfold addPatternQuery.
  destruct (isNull _ && isNull _ && isNull _); simpl; [apply same_data_refl|].
  eapply same_data_trans; [|apply same_data_submit].
  eapply same_data_trans; [|apply same_data_submit].
  eapply same_data_trans; [|apply same_data_submit].
  eapply same_data_trans; [|by repeat split].
  eapply same_data_trans; [|apply same_data_getIndexSelection].
  eapply same_data_trans; [|apply same_data_getIndexSelection].
  apply same_data_getIndexSelection.
Qed.
End data_lemmas.

Section lookup_lemmas.
Implicit Types (st : TripleStore) (t f : Triple) (n id : nat) (s p o : TripleIds).

Lemma equiv_term_refl (a : Value) : equiv_term a a = true.
Proof. destruct a; simpl; by rewrite bool_decide_true. Qed.

Lemma equiv_term_primitive_l (a b : Value) :
  primitive a = true → equiv_term a b = bool_decide (a = b).
Proof. by destruct a. Qed.

Lemma equiv_term_primitive_r (a b : Value) :
  primitive b = true → equiv_term a b = bool_decide (a = b).
Proof. by destruct a, b. Qed.

Lemma equiv_refl f : equiv (Some f) f = true.
Proof. unfold equiv. by rewrite !equiv_term_refl. Qed.

Lemma equiv_is_Some a f : equiv a f = true → is_Some a.
Proof. destruct a; [by eexists|done]. Qed.

Lemma equiv_same a f : a = Some f → equiv a f = true.
Proof. intros ->. apply equiv_refl. Qed.

(** Against a triple of primitive terms, structural equality is
    equality. *)
Lemma equiv_true a f :
  primitive_triple f = true → equiv a f = true ↔ a = Some f.
Proof.
  intros Hp. split; [|apply equiv_same].
  destruct a as [[[x y] z]|]; [|done]. destruct f as [[x' y'] z'].
  unfold primitive_triple in Hp. unfold equiv. cbn [fst snd] in *.
  apply andb_true_iff in Hp as [[Hx Hy]%andb_true_iff Hz].
  rewrite !equiv_term_primitive_r by done.
  intros [[->%bool_decide_eq_true ->%bool_decide_eq_true]%andb_true_iff
            ->%bool_decide_eq_true]%andb_true_iff.
  done.
Qed.

(** A triple of primitive terms is structurally equal to itself only. *)
Lemma equiv_true_l t f :
  primitive_triple t = true → equiv (Some t) f = true → Some t = Some f.
Proof.
  intros Hp. destruct t as [[x y] z], f as [[x' y'] z'].
  unfold primitive_triple in Hp. unfold equiv. cbn [fst snd] in *.
  apply andb_true_iff in Hp as [[Hx Hy]%andb_true_iff Hz].
  rewrite !equiv_term_primitive_l by done.
  intros [[->%bool_decide_eq_true ->%bool_decide_eq_true]%andb_true_iff
            ->%bool_decide_eq_true]%andb_true_iff.
  done.
Qed.

Lemma scan_Some tr f ids id :
  scan tr f ids = Some id → id ∈ ids ∧ equiv (tr !! id) f = true.
Proof.
  induction ids as [|x rest IH]; simpl; [done|].
  destruct (equiv (tr !! x) f) eqn:E.
  - intros [= <-]. split; [left|done].
  - intros H. destruct (IH H). split; [by right|done].
Qed.

Lemma scan_None tr f ids :
  scan tr f ids = None ↔ ∀ id, id ∈ ids → equiv (tr !! id) f = false.
Proof.
  induction ids as [|x rest IH]; simpl.
  - split; [|done]. intros _ id Hid. by apply elem_of_nil in Hid.
  - destruct (equiv (tr !! x) f) eqn:E.
    + split; [done|]. intros H.
      rewrite (H x) in E; [done|left].
    + rewrite IH. split.
      * intros H id [->|Hid]%elem_of_cons; [done|by apply H].
      * intros H id Hid. apply H. by right.
Qed.

Lemma pick_index_cases s p o :
  pick_index s p o = s ∨ pick_index s p o = p ∨ pick_index s p o = o.
Proof. unfold pick_index. repeat case_decide; auto. Qed.

Lemma pick_index_min s p o :
  size (pick_index s p o) ≤ size s
  ∧ size (pick_index s p o) ≤ size p
  ∧ size (pick_index s p o) ≤ size o.
Proof. unfold pick_index. repeat case_decide; lia. Qed.

Lemma findInIndices_Some st (os op oo : option TripleIds) f id :
  findInIndices st os op oo f = Some id → equiv (triples st !! id) f = true.
Proof.
  unfold findInIndices. destruct os, op, oo; try done.
  intros H. by apply scan_Some in H as [_ ?].
Qed.

Lemma has_true st f :
  has st f = true ↔
  is_Some (findInIndices st (indexS st !! field FS f)
             (indexP st !! field FP f) (indexO st !! field FO f) f).
Proof.
  unfold has. rewrite bool_decide_eq_true.
  destruct (findInIndices _ _ _ _ _); split; intros H; try done;
    by destruct H.
Qed.

(** A positive answer comes from a structurally-equal stored triple. *)
Lemma has_equiv_stored st f : has st f = true → equiv_stored st f.
Proof.
  rewrite has_true. intros [id H]. exists id.
  by eapply findInIndices_Some.
Qed.

Lemma equiv_stored_primitive st f :
  primitive_triple f = true → equiv_stored st f ↔ stored st f.
Proof.
  intros Hp. unfold equiv_stored, stored.
  by setoid_rewrite (equiv_true _ _ Hp).
Qed.

Lemma stored_equiv_stored st f : stored st f → equiv_stored st f.
Proof. intros [id Hid]. exists id. by apply equiv_same. Qed.

Lemma has_stored_1 st f :
  primitive_triple f = true → has st f = true → stored st f.
Proof.
  intros Hp H. by apply (equiv_stored_primitive _ _ Hp), has_equiv_stored.
Qed.

(** Enough for a positive answer: the table slot [id] holds [f] and
    [id] is listed under each of [f]'s three keys. *)
Lemma has_intro st f id s p o :
  triples st !! id = Some f →
  indexS st !! field FS f = Some s → id ∈ s →
  indexP st !! field FP f = Some p → id ∈ p →
  indexO st !! field FO f = Some o → id ∈ o →
  has st f = true.
Proof.
  intros Ht Hs His Hp Hip Ho Hio.
  rewrite has_true, Hs, Hp, Ho. simpl.
  destruct (scan _ _ _) eqn:E; [by eexists|].
  exfalso. rewrite scan_None in E. specialize (E id).
  rewrite (equiv_same _ _ Ht) in E. apply diff_true_false, E.
  apply elem_of_elements.
  destruct (pick_index_cases s p o) as [->|[->| ->]]; done.
Qed.

(** The triple itself being stored is enough, whatever its terms. *)
Lemma stored_has st n f : data_inv st n → stored st f → has st f = true.
Proof.
  intros Hinv [id Hid].
  destruct (inv_complete _ _ Hinv FS _ _ Hid) as (s & Hs & His).
  destruct (inv_complete _ _ Hinv FP _ _ Hid) as (p & Hp & Hip).
  destruct (inv_complete _ _ Hinv FO _ _ Hid) as (o & Ho & Hio).
  by eapply has_intro.
Qed.

Lemma has_stored st n f :
  data_inv st n → primitive_triple f = true →
  (has st f = true ↔ stored st f).
Proof.
  intros Hinv Hp. split; [by apply has_stored_1|by eapply stored_has].
Qed.

Lemma not_equiv_stored_empty f : ¬ equiv_stored empty_store f.
Proof. intros [id Hid]. simpl in Hid. by rewrite lookup_empty in Hid. Qed.
End lookup_lemmas.

Section addTriple_lemmas.
Implicit Types (st : TripleStore) (t f : Triple) (n id : nat).

Lemma addTriple_unfold t st n :
  addTriple t st n =
    if has st t then (false, st, n)
    else (true, emissions t (inserted t st n), S n).
Proof.
  unfold addTriple, has.
  destruct (findInIndices _ _ _ _ _) eqn:E.
  - by rewrite bool_decide_true.
  - by rewrite bool_decide_false by (by intros []).
Qed.

Lemma same_data_emissions t st : same_data st (emissions t st).
Proof. by repeat split. Qed.

Lemma index_of_inserted fl t st id :
  index_of (inserted t st id) fl =
    <[field fl t := default ∅ (index_of st fl !! field fl t) ∪ {[id]}]> (index_of st fl).
Proof. by destruct fl. Qed.

Lemma data_inv_mono st n : data_inv st n → data_inv st (S n).
Proof.
  intros [H1 H2 H3 H4 H5]. split; try done.
  intros id t Hid. specialize (H1 _ _ Hid). lia.
Qed.

Lemma data_inv_inserted t st n :
  data_inv st n → data_inv (inserted t st n) (S n).
Proof.
  intros [Hfr Hall Hsnd Hcmp Hne]. split.
  - intros id t'. simpl. rewrite lookup_insert.
    case_decide; [lia|]. intros Hid. specialize (Hfr _ _ Hid). lia.
  - simpl. rewrite dom_insert_L, Hall. set_solver.
  - intros fl k ids id. rewrite index_of_inserted. simpl.
    rewrite lookup_insert. case_decide as Hk.
    + intros [= <-] [Hid|Hid%elem_of_singleton]%elem_of_union.
      * destruct (index_of st fl !! field fl t) as [old|] eqn:E;
          simpl in Hid; [|set_solver].
        destruct (Hsnd _ _ _ _ E Hid) as (t' & Ht' & Hf).
        exists t'. split; [|congruence].
        rewrite lookup_insert_ne; [done|].
        specialize (Hfr _ _ Ht'). lia.
      * subst id. exists t. by rewrite lookup_insert_eq.
    + intros E Hid. destruct (Hsnd _ _ _ _ E Hid) as (t' & Ht' & Hf).
      exists t'. split; [|done].
      rewrite lookup_insert_ne; [done|].
      specialize (Hfr _ _ Ht'). lia.
  - intros fl id t'. rewrite index_of_inserted. simpl.
    rewrite lookup_insert. case_decide as Hid.
    + intros [= <-]. rewrite lookup_insert_eq.
      eexists. split; [done|]. set_solver.
    + intros Ht'. destruct (Hcmp fl _ _ Ht') as (ids & E & Hin).
      rewrite lookup_insert. case_decide as Hk.
      * eexists. split; [done|]. rewrite Hk, E. simpl. set_solver.
      * by exists ids.
  - intros fl k ids. rewrite index_of_inserted, lookup_insert.
    case_decide; [intros [= <-]; set_solver|apply Hne].
Qed.

Lemma data_inv_addTriple t st n :
  data_inv st n → data_inv (addTriple t st n).1.2 (addTriple t st n).2.
Proof.
  intros Hinv. rewrite addTriple_unfold.
  destruct (has st t); simpl; [done|].
  eapply same_data_inv; [apply same_data_emissions|].
  by apply data_inv_inserted.
Qed.

Lemma data_inv_empty n : data_inv empty_store n.
Proof.
  split; simpl.
  - intros id t. by rewrite lookup_empty.
  - by rewrite dom_empty_L.
  - intros fl k ids id. destruct fl; simpl; by rewrite lookup_empty.
  - intros fl id t. by rewrite lookup_empty.
  - intros fl k ids. destruct fl; simpl; by rewrite lookup_empty.
Qed.

Lemma reachable_data_inv st n : reachable st n → data_inv st n.
Proof.
  induction 1.
  - apply data_inv_empty.
  - by apply data_inv_mono.
  - by apply data_inv_addTriple.
  - eapply same_data_inv; [apply same_data_addPatternQuery|done].
Qed.
End addTriple_lemmas.

Section reachable_closure.
Implicit Types (st : TripleStore) (n : nat).

Lemma reachable_addTriples ts st n :
  reachable st n →
  reachable (addTriples ts st n).1.2 (addTriples ts st n).2.
Proof.
  revert st n. induction ts as [|t ts IH]; intros st n Hr; simpl; [done|].
  pose proof (reach_addTriple st n t Hr) as H1.
  destruct (addTriple t st n) as [[b st1] n1]. simpl in H1.
  specialize (IH st1 n1 H1).
  by destruct (addTriples ts st1 n1) as [[ok st2] n2].
Qed.

Lemma reachable_constructor ts n :
  reachable (constructor ts n).1 (constructor ts n).2.
Proof.
  destruct ts as [l|]; simpl; [|apply reach_new].
  pose proof (reachable_addTriples l empty_store n (reach_new n)) as H.
  by destruct (addTriples l empty_store n) as [[ok st] n'].
Qed.
End reachable_closure.

(** ** Properties of the fact store *)

Section store_properties.
Implicit Types (st : TripleStore) (t : Triple) (n : nat).

Lemma has_after_insert t st n : has (emissions t (inserted t st n)) t = true.
Proof.
  eapply (has_intro _ t n); simpl;
    first [apply lookup_insert_eq | set_solver].
Qed.

(** C1, as the code has it.  In every store a program can build, if
    the triple itself is already stored (the same terms: equal
    primitives, the same objects), [addTriple] returns [false] and the
    store after the call is the store before it (so the triple table,
    the three index maps with their id sets and the global id set are
    untouched, and the static counter too); for a triple of primitive
    terms this is so as soon as a structurally-equal triple is stored.
    On a triple no structurally-equal triple of which is stored, a first
    [addTriple] returns [true] and the immediately following one
    returns [false]. *)
Theorem addTriple_idempotent st n t :
  reachable st n →
  (stored st t → addTriple t st n = (false, st, n))
  ∧ (primitive_triple t = true → equiv_stored st t →
     addTriple t st n = (false, st, n))
  ∧ (¬ equiv_stored st t →
     ∃ st', addTriple t st n = (true, st', S n)
            ∧ addTriple t st' (S n) = (false, st', S n)).
Proof.
  intros Hr%reachable_data_inv.
  assert (Hdup : stored st t → addTriple t st n = (false, st, n)).
  { intros Hst. rewrite addTriple_unfold.
    by rewrite (stored_has _ _ _ Hr Hst). }
  split; [done|]. split.
  - intros Hp Hst. by apply Hdup, (equiv_stored_primitive _ _ Hp).
  - intros Hst. exists (emissions t (inserted t st n)).
    rewrite !addTriple_unfold, has_after_insert.
    destruct (has st t) eqn:E; [|done].
    by apply has_equiv_stored in E.
Qed.

(** C1 as stated fails: with an array as subject, a second triple whose
    subject is another array of the same structure is structurally
    equal to the stored one, and yet [addTriple] returns [true] and
    stores it under a new identifier. *)
Lemma addTriple_equal_arrays_stored_twice :
  reachable store_xpo 1
  ∧ equiv_stored store_xpo xpo'
  ∧ (addTriple xpo' store_xpo 1).1.1 = true
  ∧ (addTriple xpo' store_xpo 1).2 = 2
  ∧ triples (addTriple xpo' store_xpo 1).1.2 !! 0 = Some xpo
  ∧ triples (addTriple xpo' store_xpo 1).1.2 !! 1 = Some xpo'.
Proof.
  split; [exact (reach_addTriple empty_store 0 xpo (reach_new 0))|].
  split; [exists 0; by vm_compute|].
  repeat split; by vm_compute.
Qed.

(** C2. After an [addTriple(t)] that returned [true], [has(t)] is true,
    and the identifier given to [t] (the slot of the table that now
    holds [t]) is a member of the subject index set of [t[0]], of the
    predicate index set of [t[1]], of the object index set of [t[2]]
    and of the global id set. *)
Theorem addTriple_containment t st n st' n' :
  addTriple t st n = (true, st', n') →
  has st' t = true
  ∧ triples st' !! n = Some t
  ∧ (∃ ids, indexS st' !! field FS t = Some ids ∧ n ∈ ids)
  ∧ (∃ ids, indexP st' !! field FP t = Some ids ∧ n ∈ ids)
  ∧ (∃ ids, indexO st' !! field FO t = Some ids ∧ n ∈ ids)
  ∧ n ∈ allIDs st'.
Proof.
  rewrite addTriple_unfold. destruct (has st t); [done|].
  intros [= <- <-]. split; [apply has_after_insert|]. simpl.
  split; [apply lookup_insert_eq|].
  repeat split; try (eexists; split; [apply lookup_insert_eq|]); set_solver.
Qed.

(** C3, as the code has it.  In every store a program can build, for
    a triple [t] of primitive terms [has(t)] is true exactly when a
    structurally-equal triple is stored; for any triple it is true if
    [t] itself is stored and only if a structurally-equal triple is.  It
    looks [t]'s subject, predicate and object up in their indices; if
    one of the lookups has no entry the answer is [false] with nothing
    scanned; otherwise the set chosen by the nested size comparison is
    one of the three candidates and no larger than any of them, and the
    answer is whether that set alone lists a slot holding a triple
    structurally equal to [t]. *)
Theorem has_spec st n t :
  reachable st n →
  (primitive_triple t = true → (has st t = true ↔ equiv_stored st t))
  ∧ (stored st t → has st t = true)
  ∧ (has st t = true → equiv_stored st t)
  ∧ (indexS st !! field FS t = None ∨ indexP st !! field FP t = None
     ∨ indexO st !! field FO t = None → has st t = false)
  ∧ (∀ s p o,
       indexS st !! field FS t = Some s →
       indexP st !! field FP t = Some p →
       indexO st !! field FO t = Some o →
       (pick_index s p o = s ∨ pick_index s p o = p ∨ pick_index s p o = o)
       ∧ size (pick_index s p o) ≤ size s
       ∧ size (pick_index s p o) ≤ size p
       ∧ size (pick_index s p o) ≤ size o
       ∧ findInIndices st (Some s) (Some p) (Some o) t
           = scan (triples st) t (elements (pick_index s p o))
       ∧ (has st t = true ↔
          ∃ id, id ∈ pick_index s p o ∧ equiv (triples st !! id) t = true)).
Proof.
  intros Hr%reachable_data_inv.
  split; [|split; [|split; [|split]]].
  - intros Hp. rewrite (equiv_stored_primitive _ _ Hp). by eapply has_stored.
  - by eapply stored_has.
  - apply has_equiv_stored.
  - intros H. apply not_true_is_false. rewrite has_true.
    intros [id Hid]. unfold findInIndices in Hid.
    destruct (indexS st !! _), (indexP st !! _), (indexO st !! _);
      naive_solver.
  - intros s p o Hs Hp Ho.
    split; [apply pick_index_cases|].
    destruct (pick_index_min s p o) as (?&?&?).
    repeat split; try done.
    + rewrite has_true, Hs, Hp, Ho. simpl. intros [id Hid].
      apply scan_Some in Hid as [Hin ?]. exists id.
      by rewrite elem_of_elements in Hin.
    + intros (id & Hin & Hid). rewrite has_true, Hs, Hp, Ho. simpl.
      destruct (scan _ _ _) eqn:E; [by eexists|].
      exfalso. rewrite scan_None in E. specialize (E id).
      rewrite Hid in E. apply diff_true_false, E.
      by apply elem_of_elements.
Qed.

(** C3 as stated fails: a triple whose subject is another array of the
    same structure as the stored one's is structurally equal to a
    stored triple, and [has] answers [false]: the subject index has no
    entry for this array. *)
Lemma has_misses_equal_array :
  reachable store_xpo 1
  ∧ equiv_stored store_xpo xpo'
  ∧ indexS store_xpo !! field FS xpo' = None
  ∧ has store_xpo xpo' = false.
Proof.
  split; [exact (reach_addTriple empty_store 0 xpo (reach_new 0))|].
  split; [exists 0; by vm_compute|].
  split; by vm_compute.
Qed.

End store_properties.

(** ** The identifier counter *)

Lemma reachable_store_abc : reachable store_abc 1.
Proof. exact (reach_addTriple empty_store 0 abc (reach_new 0)). Defined.

Section counter_properties.
Implicit Types (st : TripleStore) (t : Triple) (n : nat).

(** C5, as the code has it. The identifier counter is a static field
    of the class, shared by all stores: it starts at zero when the
    class is loaded, store construction leaves it alone, every
    successful insertion into any store takes its current value as the
    new identifier and increments it exactly once, a duplicate
    insertion leaves it alone, and every identifier in use is below it
    (so none is reset or reused).  The first triple added to a newly
    constructed store receives the current value of the counter. *)
Theorem NEXT_ID_shared_counter st n t :
  reachable st n →
  NEXT_ID_init = 0
  ∧ constructor None n = (empty_store, n)
  ∧ (∀ id, id ∈ allIDs st → id < n)
  ∧ (let r := addTriple t st n in
     if r.1.1
     then r.2 = S n ∧ triples r.1.2 = <[n := t]> (triples st)
          ∧ allIDs r.1.2 = allIDs st ∪ {[n]}
     else r.2 = n ∧ r.1.2 = st)
  ∧ (let r := addTriple t (constructor None n).1 (constructor None n).2 in
     r.1.1 = true ∧ r.2 = S n ∧ triples r.1.2 = {[n := t]}).
Proof.
  intros Hr%reachable_data_inv.
  split; [done|]. split; [done|]. split; [|split].
  - intros id. rewrite (inv_all _ _ Hr), elem_of_dom. intros [t' Ht'].
    by eapply inv_fresh.
  - simpl. rewrite addTriple_unfold. by destruct (has st t).
  - simpl. rewrite addTriple_unfold.
    replace (has empty_store t) with false; [done|].
    symmetry. apply not_true_is_false. intros H%has_equiv_stored.
    by apply not_equiv_stored_empty in H.
Qed.

Lemma NEXT_ID_shared_counter_witness :
  reachable store_abc 1
  ∧ (addTriple abd store_abc 1).2 = 2
  ∧ (addTriple abc store_abc 1).2 = 1.
Proof.
  split; [exact reachable_store_abc|].
  pose proof (NEXT_ID_shared_counter store_abc 1 abd reachable_store_abc)
    as (_ & _ & _ & Hd & _).
  pose proof (NEXT_ID_shared_counter store_abc 1 abc reachable_store_abc)
    as (_ & _ & _ & Hc & _).
  split.
  - simpl in Hd. destruct (addTriple abd store_abc 1).1.1 eqn:E.
    + apply Hd.
    + exfalso. revert E. vm_compute. discriminate.
  - simpl in Hc. destruct (addTriple abc store_abc 1).1.1 eqn:E.
    + exfalso. revert E. vm_compute. discriminate.
    + apply Hc.
Defined.

(** C5 as stated fails: the first triple added to a second store,
    constructed after another store has inserted one triple, is given
    identifier 1, not 0. *)
Lemma NEXT_ID_second_store_not_zero :
  let b1 := (two_stores abc abd).1.2 in
  triples b1 !! 0 = None
  ∧ triples b1 !! 1 = Some abd
  ∧ ¬ (0 ∈ allIDs b1).
Proof.
  simpl. split; [by vm_compute|]. split; [by vm_compute|].
  intros H. apply elem_of_elements in H. revert H. vm_compute.
  intros H. by repeat (apply elem_of_cons in H as [?|H]; [done|]);
    apply elem_of_nil in H.
Qed.
End counter_properties.

Section store_witnesses.

Lemma stored_store_abc : stored store_abc abc.
Proof. exists 0. by vm_compute. Defined.

Lemma addTriple_idempotent_witness :
  reachable store_abc 1
  ∧ addTriple abc store_abc 1 = (false, store_abc, 1).
Proof.
  split; [exact reachable_store_abc|].
  exact (proj1 (addTriple_idempotent store_abc 1 abc reachable_store_abc)
               stored_store_abc).
Defined.

Lemma addTriple_abc_empty :
  addTriple abc empty_store 0 = (true, store_abc, 1).
Proof. by vm_compute. Defined.

Lemma addTriple_containment_witness :
  addTriple abc empty_store 0 = (true, store_abc, 1)
  ∧ has store_abc abc = true.
Proof.
  split; [exact addTriple_abc_empty|].
  exact (proj1 (addTriple_containment abc empty_store 0 store_abc 1
                  addTriple_abc_empty)).
Defined.

Lemma has_spec_witness :
  reachable store_abc 1
  ∧ primitive_triple abc = true
  ∧ (has store_abc abc = true ↔ equiv_stored store_abc abc).
Proof.
  split; [exact reachable_store_abc|]. split; [reflexivity|].
  exact (proj1 (has_spec store_abc 1 abc reachable_store_abc) eq_refl).
Defined.
End store_witnesses.

(** ** The sync node *)

Section sync_lemmas.
Implicit Types (st D : TripleStore) (q : Sync) (f g : Field) (v : SetRef).

Lemma get_set_latest f g v l :
  get_latest g (set_latest f v l) = if decide (g = f) then Some v else get_latest g l.
Proof. destruct l as [[??]?], f, g; by simpl. Qed.

Lemma q_pattern_sync_next D f v q : q_pattern (sync_next D f v q) = q_pattern q.
Proof.
  unfold sync_next. by destruct (set_latest f v (q_latest q)) as [[[?|] [?|]] [?|]].
Qed.

Lemma q_id_sync_next D f v q : q_id (sync_next D f v q) = q_id q.
Proof.
  unfold sync_next. by destruct (set_latest f v (q_latest q)) as [[[?|] [?|]] [?|]].
Qed.

Lemma q_latest_sync_next D f v q :
  q_latest (sync_next D f v q) = set_latest f v (q_latest q).
Proof.
  unfold sync_next. by destruct (set_latest f v (q_latest q)) as [[[?|] [?|]] [?|]].
Qed.

Lemma complete_inv q :
  complete q ↔ ∃ s p o, q_latest q = (Some s, Some p, Some o).
Proof.
  unfold complete. destruct (q_latest q) as [[a b] c]. split.
  - intros H. destruct (H FS) as [s Hs], (H FP) as [p Hp], (H FO) as [o Ho].
    simpl in *. subst. by eexists _, _, _.
  - intros (s & p & o & [= -> -> ->]) []; by eexists.
Qed.

(** One delivery: the output grows by the recomputed intersection of
    the latest sets exactly when all three sources have a value. *)
Lemma q_out_sync_next D f v q :
  q_out (sync_next D f v q) =
    match set_latest f v (q_latest q) with
    | (Some s, Some p, Some o) =>
        q_out q ++ [deref D s ∩ deref D p ∩ deref D o]
    | _ => q_out q
    end.
Proof.
  unfold sync_next. by destruct (set_latest f v (q_latest q)) as [[[?|] [?|]] [?|]].
Qed.

Lemma sync_next_same_data D D' f v q :
  same_data D D' → sync_next D' f v q = sync_next D f v q.
Proof.
  intros H. unfold sync_next.
  destruct (set_latest f v (q_latest q)) as [[[?|] [?|]] [?|]]; try done.
  unfold xform, intersection. simpl.
  by rewrite !(same_data_deref _ _ _ H).
Qed.

Lemma sound_sync_next D f q :
  sound D q → live D (src_ref f (q_pattern q)) = true →
  sound D (sync_next D f (src_ref f (q_pattern q)) q).
Proof.
  intros Hs Hl g v. rewrite q_latest_sync_next, q_pattern_sync_next, get_set_latest.
  case_decide as E; [|apply Hs]. intros [= <-]. by subst g.
Qed.

Lemma quiet_sync_next D f v q : quiet q → quiet (sync_next D f v q).
Proof.
  unfold quiet. rewrite q_out_sync_next. rewrite !complete_inv.
  rewrite q_latest_sync_next.
  destruct (set_latest f v (q_latest q)) as [[[s|] [p|]] [o|]] eqn:E;
    try (intros H Hne; specialize (H Hne); destruct H as (s' & p' & o' & Hq);
         rewrite Hq in E; destruct f; simpl in E; congruence).
  intros _ _. by eexists _, _, _.
Qed.

Lemma fresh_sync_next D f q :
  sound D q → live D (src_ref f (q_pattern q)) = true →
  fresh D (sync_next D f (src_ref f (q_pattern q)) q).
Proof.
  intros Hs Hl Hc.
  pose proof (sound_sync_next _ _ _ Hs Hl) as Hs'.
  apply complete_inv in Hc as (s & p & o & Hq).
  pose proof (Hs' FS s) as [-> _]; [by rewrite Hq|].
  pose proof (Hs' FP p) as [-> _]; [by rewrite Hq|].
  pose proof (Hs' FO o) as [-> _]; [by rewrite Hq|].
  rewrite q_latest_sync_next in Hq.
  rewrite q_out_sync_next, Hq, last_snoc, !q_pattern_sync_next. done.
Qed.
End sync_lemmas.

Section run_lemmas.
Implicit Types (st D : TripleStore) (q : Sync) (f g : Field) (v : SetRef)
               (bs : list (bool * Field)).

Lemma q_pattern_touch D b f q : q_pattern (touch D b f q) = q_pattern q.
Proof. destruct b; [apply q_pattern_sync_next|done]. Qed.

Lemma touch_same_data D D' b f q :
  same_data D D' → touch D' b f q = touch D b f q.
Proof. intros H. destruct b; [by apply sync_next_same_data|done]. Qed.

Lemma run_same_data D D' bs q :
  same_data D D' → run D' bs q = run D bs q.
Proof.
  intros H. revert q. induction bs as [|[b f] bs IH]; intros q; simpl; [done|].
  by rewrite IH, (touch_same_data _ _ _ _ _ H).
Qed.

Lemma run_app D bs1 bs2 q : run D (bs1 ++ bs2) q = run D bs2 (run D bs1 q).
Proof.
  revert q. induction bs1 as [|[b f] bs1 IH]; intros q; simpl; [done|].
  by rewrite IH.
Qed.

Lemma q_pattern_run D bs q : q_pattern (run D bs q) = q_pattern q.
Proof.
  revert q. induction bs as [|[b f] bs IH]; intros q; simpl; [done|].
  by rewrite IH, q_pattern_touch.
Qed.

Lemma touched_live D bs g pat :
  (∀ b f, (b, f) ∈ bs → b = true → live D (src_ref f pat) = true) →
  touched g bs = true → live D (src_ref g pat) = true.
Proof.
  intros H. unfold touched. rewrite existsb_exists.
  intros ([b f] & Hin & Hb). simpl in Hb.
  apply andb_true_iff in Hb as [-> Hf]. apply bool_decide_eq_true in Hf as <-.
  apply (H true f); [|done]. by apply list_elem_of_In.
Qed.

Lemma any_touch_false bs g : any_touch bs = false → touched g bs = false.
Proof.
  unfold any_touch, touched. induction bs as [|[b f] bs IH]; simpl; [done|].
  intros [-> H]%orb_false_iff. by rewrite IH.
Qed.

Lemma run_spec D bs q :
  sound D q → quiet q →
  (∀ b f, (b, f) ∈ bs → b = true → live D (src_ref f (q_pattern q)) = true) →
  sound D (run D bs q) ∧ quiet (run D bs q)
  ∧ (∀ g, get_latest g (q_latest (run D bs q))
          = if touched g bs then Some (src_ref g (q_pattern q))
            else get_latest g (q_latest q))
  ∧ (if any_touch bs then fresh D (run D bs q) else run D bs q = q).
Proof.
  revert q. induction bs as [|[b f] bs IH]; intros q Hs Hq Hl; simpl; [done|].
  assert (Hl' : ∀ b' f', (b', f') ∈ bs → b' = true →
                live D (src_ref f' (q_pattern (touch D b f q))) = true).
  { intros b' f' Hin Hb. rewrite q_pattern_touch. apply (Hl b' f'); [by right|done]. }
  destruct b; simpl.
  - assert (Hlf : live D (src_ref f (q_pattern q)) = true) by (apply (Hl true f); [left|done]).
    destruct (IH (touch D true f q) (sound_sync_next _ _ _ Hs Hlf)
                (quiet_sync_next D f _ _ Hq) Hl')
      as (Hs' & Hq' & Hg & Ht).
    change (touch D true f q) with (sync_next D f (src_ref f (q_pattern q)) q) in *.
    split; [done|]. split; [done|]. split.
    + intros g. rewrite Hg, q_pattern_sync_next, q_latest_sync_next, get_set_latest.
      destruct (touched g bs); [by rewrite orb_true_r|]. rewrite orb_false_r.
      destruct (decide (g = f)) as [->|Hne].
      * by rewrite bool_decide_true.
      * by rewrite bool_decide_false.
    + destruct (any_touch bs); [done|]. rewrite Ht.
      by apply fresh_sync_next.
  - destruct (IH (touch D false f q) Hs Hq Hl') as (Hs' & Hq' & Hg & Ht). done.
Qed.

Lemma sync_inv_sound st q : sync_inv st q → sound st q.
Proof.
  intros [_ Hl _] f v. rewrite Hl.
  destruct (live st _) eqn:E; [|done]. by intros [= <-].
Qed.

Lemma all_live_complete st q :
  (∀ f, get_latest f (q_latest q)
        = if live st (src_ref f (q_pattern q))
          then Some (src_ref f (q_pattern q)) else None) →
  all_live st (q_pattern q) = true ↔ complete q.
Proof.
  intros Hl. unfold all_live, complete. rewrite !andb_true_iff. split.
  - intros [[H1 H2] H3] []; rewrite Hl; [rewrite H1|rewrite H2|rewrite H3]; by eexists.
  - intros H. pose proof (H FS) as HS. pose proof (H FP) as HP. pose proof (H FO) as HO.
    rewrite !Hl in HS, HP, HO.
    destruct (live st (src_ref FS _)), (live st (src_ref FP _)),
             (live st (src_ref FO _)); try done;
      by (destruct HS || destruct HP || destruct HO).
Qed.

Lemma sync_inv_quiet st q : sync_inv st q → quiet q.
Proof.
  intros [_ Hl Ho] Hne. apply (all_live_complete st q Hl).
  destruct (all_live st (q_pattern q)); [done|]. by rewrite Ho in Hne.
Qed.

(** A node that satisfied the invariant before the data changed from
    [st] to [D] satisfies it again after the deliveries [bs], provided
    sets only appear, the delivering sources exist, and the sets of
    the silent sources did not change. *)
Lemma sync_inv_run st D bs q :
  sync_inv st q →
  (∀ r, live st r = true → live D r = true) →
  (∀ b f, (b, f) ∈ bs → b = true → live D (src_ref f (q_pattern q)) = true) →
  (∀ g, touched g bs = false →
        live D (src_ref g (q_pattern q)) = live st (src_ref g (q_pattern q))
        ∧ deref D (src_ref g (q_pattern q)) = deref st (src_ref g (q_pattern q))) →
  sync_inv D (run D bs q).
Proof.
  intros Hinv Hmono Hl Hun.
  assert (Hs : sound D q).
  { intros f v Hv. destruct (sync_inv_sound _ _ Hinv f v Hv) as [-> ?].
    split; [done|]. by apply Hmono. }
  destruct (run_spec D bs q Hs (sync_inv_quiet _ _ Hinv) Hl) as (Hs' & Hq' & Hg & Ht).
  assert (Hlat : ∀ f, get_latest f (q_latest (run D bs q))
                 = if live D (src_ref f (q_pattern (run D bs q)))
                   then Some (src_ref f (q_pattern (run D bs q))) else None).
  { intros g. rewrite Hg, q_pattern_run. destruct (touched g bs) eqn:E.
    - by rewrite (touched_live D bs g _ Hl E).
    - destruct (Hun g E) as [-> _]. apply Hinv. }
  split.
  - rewrite q_pattern_run. apply Hinv.
  - done.
  - destruct (all_live D (q_pattern (run D bs q))) eqn:E.
    + pose proof (proj1 (all_live_complete D _ Hlat) E) as Hc.
      destruct (any_touch bs) eqn:Ea; [by apply Ht|].
      rewrite Ht in *.
      assert (Hsame : ∀ g,
                live D (src_ref g (q_pattern q)) = live st (src_ref g (q_pattern q))
                ∧ deref D (src_ref g (q_pattern q))
                  = deref st (src_ref g (q_pattern q))).
      { intros g. apply Hun. by apply any_touch_false. }
      pose proof (si_out _ _ Hinv) as Ho.
      unfold all_live in E, Ho. unfold matching.
      rewrite !(proj1 (Hsame _)) in E. rewrite E in Ho.
      rewrite !(proj2 (Hsame _)). exact Ho.
    + destruct (q_out (run D bs q)) eqn:Eo; [done|].
      assert (Hc : complete (run D bs q)) by (apply Hq'; by rewrite Eo).
      apply (all_live_complete D _ Hlat) in Hc. congruence.
Qed.
End run_lemmas.

(** ** Deliveries of the store operations, node by node *)

Section delivery_lemmas.
Implicit Types (st D : TripleStore) (q : Sync) (f g : Field) (t : Triple)
               (pat : Pattern) (k : Value).

Lemma on_all_touch D f q :
  on_all D f q = touch D (isNull (pfield f (q_pattern q))) f q.
Proof.
  unfold on_all, touch, src_ref. by destruct (pfield f (q_pattern q)).
Qed.

Lemma primitive_field f t :
  primitive_triple t = true → primitive (field f t) = true.
Proof.
  unfold primitive_triple.
  intros [[??]%andb_true_iff ?]%andb_true_iff. by destruct f.
Qed.

(** An edit with a primitive key passes the narrow-casts of that very
    key only. *)
Lemma on_sel_touch D f k q :
  primitive k = true →
  on_sel D f (mkEdit (RIdx f k) k) q
  = touch D (bool_decide (pfield f (q_pattern q) = Some k)) f q.
Proof.
  intros Hp. unfold on_sel, touch, src_ref. simpl.
  destruct (pfield f (q_pattern q)) as [k'|] eqn:E.
  - rewrite (equiv_term_primitive_l _ _ Hp). case_bool_decide as Hk.
    + subst k'. by rewrite bool_decide_true.
    + rewrite bool_decide_false; [done|]. congruence.
  - by rewrite bool_decide_false.
Qed.

Lemma on_cast_touch D f k q :
  on_cast D f k (mkEdit (RIdx f k) k) q
  = touch D (bool_decide (pfield f (q_pattern q) = Some k)) f q.
Proof.
  unfold on_cast, touch, src_ref. simpl. case_decide as E.
  - rewrite bool_decide_true by done. by rewrite E.
  - by rewrite bool_decide_false.
Qed.

Lemma q_pattern_on_all D f q : q_pattern (on_all D f q) = q_pattern q.
Proof.
  unfold on_all. destruct (pfield f (q_pattern q)); [done|].
  apply q_pattern_sync_next.
Qed.

Lemma q_pattern_on_sel D f (e : Edit) q : q_pattern (on_sel D f e q) = q_pattern q.
Proof.
  unfold on_sel. destruct (pfield f (q_pattern q)); [|done].
  destruct (equiv_term _ _); [apply q_pattern_sync_next|done].
Qed.

Lemma q_id_on_all D f q : q_id (on_all D f q) = q_id q.
Proof.
  unfold on_all. destruct (pfield f (q_pattern q)); [done|].
  apply q_id_sync_next.
Qed.

Lemma q_id_on_sel D f (e : Edit) q : q_id (on_sel D f e q) = q_id q.
Proof.
  unfold on_sel. destruct (pfield f (q_pattern q)); [|done].
  destruct (equiv_term _ _); [apply q_id_sync_next|done].
Qed.

Lemma on_all_same_data D D' f q :
  same_data D D' → on_all D' f q = on_all D f q.
Proof.
  intros H. unfold on_all. destruct (pfield f (q_pattern q)); [done|].
  by apply sync_next_same_data.
Qed.

Lemma on_sel_same_data D D' f (e : Edit) q :
  same_data D D' → on_sel D' f e q = on_sel D f e q.
Proof.
  intros H. unfold on_sel. destruct (pfield f (q_pattern q)); [|done].
  destruct (equiv_term _ _); [by apply sync_next_same_data|done].
Qed.

Lemma q_pattern_delivered t D q : q_pattern (delivered t D q) = q_pattern q.
Proof. unfold delivered. by rewrite !q_pattern_on_sel, !q_pattern_on_all. Qed.

Lemma q_id_delivered t D q : q_id (delivered t D q) = q_id q.
Proof. unfold delivered. by rewrite !q_id_on_sel, !q_id_on_all. Qed.

(** Whatever the terms, the sync nodes after the four emissions. *)
Lemma queries_emissions_delivered t st :
  queries (emissions t st) = delivered t st <$> queries st.
Proof.
  unfold emissions, next_field, next_all. simpl.
  rewrite <- !list_fmap_compose. apply list_fmap_ext. intros _ q _. simpl.
  unfold delivered.
  set (D0 := set_streamAll _ _).
  rewrite !(on_all_same_data st D0) by (by repeat split).
  rewrite (on_sel_same_data st) by (by repeat split).
  rewrite (on_sel_same_data st _ FP) by (by repeat split).
  rewrite (on_sel_same_data st _ FS) by (by repeat split).
  done.
Qed.

Lemma addTriple_deliveries D D0 D1 D2 D3 t q :
  primitive_triple t = true →
  same_data D D0 → same_data D D1 → same_data D D2 → same_data D D3 →
  on_sel D3 FO (mkEdit (RIdx FO (field FO t)) (field FO t))
    (on_sel D2 FP (mkEdit (RIdx FP (field FP t)) (field FP t))
      (on_sel D1 FS (mkEdit (RIdx FS (field FS t)) (field FS t))
        (on_all D0 FO (on_all D0 FP (on_all D0 FS q)))))
  = run D (deliveries t (q_pattern q)) q.
Proof.
  intros Hp H0 H1 H2 H3.
  rewrite !on_sel_touch, !on_all_touch by (by apply primitive_field).
  rewrite !q_pattern_touch.
  rewrite (touch_same_data _ _ _ _ _ H3), (touch_same_data _ _ _ _ _ H2),
          (touch_same_data _ _ _ _ _ H1), !(touch_same_data _ _ _ _ _ H0).
  done.
Qed.

Lemma queries_emissions t st :
  primitive_triple t = true →
  queries (emissions t st)
  = (λ q, run st (deliveries t (q_pattern q)) q) <$> queries st.
Proof.
  intros Hp. unfold emissions, next_field, next_all. simpl.
  rewrite <- !list_fmap_compose. apply list_fmap_ext. intros _ q _. simpl.
  apply addTriple_deliveries; [done|by repeat split..].
Qed.

Lemma queries_submit f pat st :
  queries (submit f (pfield f pat) st)
  = (λ q, touch st (submit_hit st f pat (q_pattern q)) f q) <$> queries st.
Proof.
  unfold submit, submit_hit. destruct (pfield f pat) as [k|].
  - destruct (index_of st f !! k) eqn:E.
    + unfold next_sel. simpl. rewrite equiv_term_refl. simpl.
      apply list_fmap_ext. intros _ q _.
      rewrite on_cast_touch.
      apply touch_same_data. by repeat split.
    + rewrite bool_decide_false by (by intros []). simpl.
      by rewrite list_fmap_id.
  - by rewrite list_fmap_id.
Qed.

Lemma submit_hit_same_data st st' f pat pat' :
  same_data st st' → submit_hit st' f pat pat' = submit_hit st f pat pat'.
Proof.
  intros H. unfold submit_hit. by rewrite (same_data_index _ _ _ H).
Qed.

Lemma queries_submits pat st :
  queries (submit FO (pfield FO pat) (submit FP (pfield FP pat)
             (submit FS (pfield FS pat) st)))
  = (λ q, run st (submits st pat (q_pattern q)) q) <$> queries st.
Proof.
  rewrite !queries_submit, <- !list_fmap_compose.
  apply list_fmap_ext. intros _ q _. simpl.
  pose proof (same_data_submit FS (pfield FS pat) st) as H1.
  pose proof (same_data_trans _ _ _ H1
                (same_data_submit FP (pfield FP pat) _)) as H2.
  rewrite !q_pattern_touch.
  rewrite (submit_hit_same_data _ _ _ _ _ H2), (submit_hit_same_data _ _ _ _ _ H1).
  by rewrite (touch_same_data _ _ _ _ _ H2), (touch_same_data _ _ _ _ _ H1).
Qed.

Lemma queries_getIndexSelection f ok st :
  queries (getIndexSelection f ok st) = queries st.
Proof.
  unfold getIndexSelection. destruct ok as [k|]; [|done].
  by destruct (indexSelections st !! (f, k)).
Qed.

Lemma queries_selected pat st : queries (selected pat st) = queries st.
Proof. unfold selected. by rewrite !queries_getIndexSelection. Qed.

Lemma same_data_selected pat st : same_data st (selected pat st).
Proof.
  unfold selected.
  eapply same_data_trans; [|apply same_data_getIndexSelection].
  eapply same_data_trans; [|apply same_data_getIndexSelection].
  apply same_data_getIndexSelection.
Qed.

Lemma addPatternQuery_unfold qid pat emit st :
  constrained pat →
  addPatternQuery qid pat emit st =
    (mkSub (ResSync (length (queries st))) emit,
     submit FO (pfield FO pat) (submit FP (pfield FP pat)
       (submit FS (pfield FS pat)
         (set_queries
            (queries st ++
               [wire (selected pat st) FO (wire (selected pat st) FP
                  (wire (selected pat st) FS
                     (mkSync qid pat (None, None, None) [])))])
            (selected pat st))))).
Proof.
  intros Hc. unfold addPatternQuery. unfold constrained in Hc. rewrite Hc.
  fold (selected pat st). by rewrite queries_selected.
Qed.

Lemma addPatternQuery_wildcard qid pat emit st :
  ¬ constrained pat → addPatternQuery qid pat emit st = (mkSub ResAll emit, st).
Proof.
  intros Hc. unfold addPatternQuery, constrained in *.
  by destruct (isNull _ && isNull _ && isNull _).
Qed.
End delivery_lemmas.

(** ** The query invariant *)

Section query_invariant.
Implicit Types (st D : TripleStore) (q : Sync) (f g : Field) (t : Triple)
               (pat : Pattern) (k : Value) (n : nat).

Lemma live_same_data st st' r : same_data st st' → live st' r = live st r.
Proof.
  intros H. destruct r as [|f k]; simpl.
  - by destruct H as (_&_&_&_&->).
  - by rewrite (same_data_index _ _ _ H).
Qed.

Lemma sync_inv_same_data st st' q :
  same_data st st' → sync_inv st q → sync_inv st' q.
Proof.
  intros H [H1 H2 H3]. split; [done| |].
  - intros f. by rewrite (live_same_data _ _ _ H).
  - unfold all_live, matching in *.
    by rewrite !(live_same_data _ _ _ H), !(same_data_deref _ _ _ H).
Qed.

Lemma sync_inv_intro D q :
  constrained (q_pattern q) → quiet q →
  (∀ f, get_latest f (q_latest q)
        = if live D (src_ref f (q_pattern q))
          then Some (src_ref f (q_pattern q)) else None) →
  (all_live D (q_pattern q) = true →
   last (q_out q) = Some (matching D (q_pattern q))) →
  sync_inv D q.
Proof.
  intros Hc Hq Hl Ho. split; [done|done|].
  destruct (all_live D (q_pattern q)) eqn:E; [by apply Ho|].
  destruct (q_out q) eqn:Eo; [done|].
  assert (Hcomp : complete q) by (apply Hq; by rewrite Eo).
  apply (all_live_complete D _ Hl) in Hcomp. congruence.
Qed.

(** *** Insertion *)

Lemma live_inserted t st n r :
  live st r = true → live (inserted t st n) r = true.
Proof.
  destruct r as [|f k]; simpl; rewrite !bool_decide_eq_true.
  - set_solver.
  - rewrite index_of_inserted, lookup_insert. by case_decide.
Qed.

Lemma live_wildcard t st n pat f :
  isNull (pfield f pat) = true →
  live (inserted t st n) (src_ref f pat) = true.
Proof.
  unfold src_ref. destruct (pfield f pat); [done|]. intros _. simpl.
  apply bool_decide_eq_true. set_solver.
Qed.

Lemma live_hit t st n pat f :
  bool_decide (pfield f pat = Some (field f t)) = true →
  live (inserted t st n) (src_ref f pat) = true.
Proof.
  intros H%bool_decide_eq_true. unfold src_ref. rewrite H. simpl.
  apply bool_decide_eq_true. by rewrite index_of_inserted, lookup_insert_eq.
Qed.

Lemma live_deliveries t st n pat b f :
  (b, f) ∈ deliveries t pat → b = true →
  live (inserted t st n) (src_ref f pat) = true.
Proof.
  unfold deliveries. rewrite !elem_of_cons, elem_of_nil.
  intros H Hb.
  destruct H as [H|[H|[H|[H|[H|[H|[]]]]]]]; injection H as -> ->;
    first [by apply live_wildcard | by apply live_hit].
Qed.

Lemma touched_intro g (bs : list (bool * Field)) :
  (true, g) ∈ bs → touched g bs = true.
Proof.
  intros H. unfold touched. apply existsb_exists. exists (true, g).
  split; [by apply list_elem_of_In|]. simpl. by rewrite bool_decide_true.
Qed.

Lemma deliveries_wildcard t pat g :
  (isNull (pfield g pat), g) ∈ deliveries t pat.
Proof. unfold deliveries. destruct g; rewrite !elem_of_cons; auto 10. Qed.

Lemma deliveries_hit t pat g :
  (bool_decide (pfield g pat = Some (field g t)), g) ∈ deliveries t pat.
Proof. unfold deliveries. destruct g; rewrite !elem_of_cons; auto 10. Qed.

Lemma untouched_deliveries t st n pat g :
  touched g (deliveries t pat) = false →
  live (inserted t st n) (src_ref g pat) = live st (src_ref g pat)
  ∧ deref (inserted t st n) (src_ref g pat) = deref st (src_ref g pat).
Proof.
  intros H.
  assert (∃ k, pfield g pat = Some k ∧ k ≠ field g t) as (k & Hk & Hne).
  { destruct (pfield g pat) as [k|] eqn:E.
    - exists k. split; [done|]. intros ->.
      pose proof (deliveries_hit t pat g) as Hin.
      rewrite E, bool_decide_true in Hin by done.
      apply touched_intro in Hin. congruence.
    - pose proof (deliveries_wildcard t pat g) as Hin.
      rewrite E in Hin. apply touched_intro in Hin. congruence. }
  unfold src_ref. rewrite Hk. simpl.
  by rewrite index_of_inserted, lookup_insert_ne.
Qed.

Lemma touch_selection_lookup f (e : Edit) (m : gmap (Field * Value) (option SetRef)) g k v :
  primitive (key e) = true →
  touch_selection f e m !! (g, k) = Some (Some v) →
  m !! (g, k) = Some (Some v) ∨ (g = f ∧ k = key e ∧ v = index e).
Proof.
  intros Hp. unfold touch_selection. rewrite map_lookup_imap.
  destruct (m !! (g, k)) as [w|]; [|done]. cbn [option_bind mbind fst snd].
  destruct (decide (g = f)) as [->|Hne]; [|intros [= ->]; by left].
  rewrite (equiv_term_primitive_l _ _ Hp).
  case_bool_decide as E; [|intros [= ->]; by left].
  intros [= <-]. by right.
Qed.

Lemma sel_sound_emissions t st n :
  primitive_triple t = true →
  sel_sound st → sel_sound (emissions t (inserted t st n)).
Proof.
  intros Hp Hs g k v. unfold emissions, next_field. simpl.
  assert (Hold : indexSelections st !! (g, k) = Some (Some v) →
                 v = RIdx g k ∧ is_Some (index_of (inserted t st n) g !! k)).
  { intros H. destruct (Hs _ _ _ H) as [-> Hi]. split; [done|].
    rewrite index_of_inserted, lookup_insert. by case_decide. }
  intros H.
  apply touch_selection_lookup in H; [|by apply (primitive_field FO)].
  destruct H as [H|(->&->&->)];
    [|simpl; split; [done|]; by rewrite lookup_insert_eq].
  apply touch_selection_lookup in H; [|by apply (primitive_field FP)].
  destruct H as [H|(->&->&->)];
    [|simpl; split; [done|]; by rewrite lookup_insert_eq].
  apply touch_selection_lookup in H; [|by apply (primitive_field FS)].
  destruct H as [H|(->&->&->)];
    [|simpl; split; [done|]; by rewrite lookup_insert_eq].
  by apply Hold.
Qed.

Lemma query_inv_addTriple t st n :
  (has st t = false → primitive_triple t = true) →
  query_inv st → query_inv (addTriple t st n).1.2.
Proof.
  intros Hp [Ha Hs Hq]. rewrite addTriple_unfold.
  destruct (has st t); simpl; [done|]. specialize (Hp eq_refl). split.
  - simpl. rewrite bool_decide_true; [done|]. set_solver.
  - by apply sel_sound_emissions.
  - rewrite queries_emissions by done. apply Forall_fmap.
    eapply Forall_impl; [exact Hq|]. intros q Hinv. cbv beta.
    apply (sync_inv_same_data (inserted t st n)); [apply same_data_emissions|].
    apply (sync_inv_run st (inserted t st n) (deliveries t (q_pattern q)) q);
      [done| | |].
    + apply live_inserted.
    + apply live_deliveries.
    + apply untouched_deliveries.
Qed.
End query_invariant.

Section query_invariant_subscribe.
Implicit Types (st D : TripleStore) (q : Sync) (f g : Field) (t : Triple)
               (pat : Pattern) (k : Value) (n : nat).

Lemma query_inv_getIndexSelection f (ok : option Value) st :
  query_inv st → query_inv (getIndexSelection f ok st).
Proof.
  intros Hinv. unfold getIndexSelection.
  destruct ok as [k|]; [|done].
  destruct (indexSelections st !! (f, k)) eqn:E; [done|].
  destruct Hinv as [Ha Hs Hq]. split; [exact Ha| |].
  - intros g k' v. simpl. rewrite lookup_insert.
    destruct (decide ((f, k) = (g, k'))); [intros ?; simplify_eq|]. apply Hs.
  - simpl. eapply Forall_impl; [exact Hq|]. intros q.
    apply sync_inv_same_data. by repeat split.
Qed.

Lemma query_inv_selected pat st : query_inv st → query_inv (selected pat st).
Proof. intros H. unfold selected. by do 3 apply query_inv_getIndexSelection. Qed.

Lemma source_current_sound st f pat v :
  query_inv st → source_current st f (pfield f pat) = Some v →
  v = src_ref f pat ∧ live st v = true.
Proof.
  intros [Ha Hs _]. unfold source_current, src_ref.
  destruct (pfield f pat) as [k|].
  - destruct (indexSelections st !! (f, k)) as [[v'|]|] eqn:E; simpl; try done.
    intros [= ->]. destruct (Hs _ _ _ E) as [-> Hi]. split; [done|].
    by apply bool_decide_eq_true.
  - rewrite Ha. case_bool_decide as E; [|done]. intros [= <-].
    split; [done|]. by apply bool_decide_eq_true.
Qed.

Lemma wire_touch st f q :
  query_inv st →
  wire st f q
  = touch st (bool_decide (is_Some (source_current st f (pfield f (q_pattern q))))) f q.
Proof.
  intros Hinv. unfold wire.
  destruct (source_current st f (pfield f (q_pattern q))) as [v|] eqn:E.
  - destruct (source_current_sound _ _ _ _ Hinv E) as [-> _].
    by rewrite bool_decide_true.
  - by rewrite bool_decide_false by (by intros []).
Qed.

Lemma wire_run st q :
  query_inv st →
  wire st FO (wire st FP (wire st FS q)) = run st (wirings st (q_pattern q)) q.
Proof.
  intros Hinv. rewrite !wire_touch by done. by rewrite !q_pattern_touch.
Qed.

Lemma live_wirings st pat b f :
  query_inv st → (b, f) ∈ wirings st pat → b = true →
  live st (src_ref f pat) = true.
Proof.
  intros Hinv. unfold wirings. rewrite !elem_of_cons, elem_of_nil.
  intros H Hb.
  destruct H as [H|[H|[H|[]]]]; injection H as -> ->;
    apply bool_decide_eq_true in Hb as [v Hv];
    by destruct (source_current_sound _ _ _ _ Hinv Hv) as [-> ?].
Qed.

Lemma live_submit_hit st f pat pat' :
  submit_hit st f pat pat' = true → live st (src_ref f pat') = true.
Proof.
  unfold submit_hit, src_ref. destruct (pfield f pat) as [k|]; [|done].
  intros [Hi Hp%bool_decide_eq_true]%andb_true_iff. by rewrite Hp.
Qed.

Lemma live_submits st pat pat' b f :
  (b, f) ∈ submits st pat pat' → b = true → live st (src_ref f pat') = true.
Proof.
  unfold submits. rewrite !elem_of_cons, elem_of_nil.
  intros H Hb.
  destruct H as [H|[H|[H|[]]]]; injection H as -> ->;
    by apply (live_submit_hit st _ pat pat').
Qed.

Lemma submits_hit st pat pat' g :
  (submit_hit st g pat pat', g) ∈ submits st pat pat'.
Proof. unfold submits. destruct g; rewrite !elem_of_cons; auto 10. Qed.

Lemma wirings_hit st pat g :
  (bool_decide (is_Some (source_current st g (pfield g pat))), g) ∈ wirings st pat.
Proof. unfold wirings. destruct g; rewrite !elem_of_cons; auto 10. Qed.

Lemma touched_any g (bs : list (bool * Field)) :
  touched g bs = true → any_touch bs = true.
Proof.
  intros H. destruct (any_touch bs) eqn:E; [done|].
  apply (any_touch_false _ g) in E. congruence.
Qed.

Lemma touched_app g (bs1 bs2 : list (bool * Field)) :
  touched g (bs1 ++ bs2) = touched g bs1 || touched g bs2.
Proof. unfold touched. apply existsb_app. Qed.

(** A source of the new node that exists has delivered by the time
    [addPatternQuery] returns: a wildcard at wiring time, a concrete
    field through its [submit]. *)
Lemma live_touched_new st pat g :
  query_inv st → live st (src_ref g pat) = true →
  touched g (wirings st pat ++ submits st pat pat) = true.
Proof.
  intros Hinv Hl. rewrite touched_app. apply orb_true_iff.
  unfold src_ref in Hl. destruct (pfield g pat) as [k|] eqn:E; simpl in Hl.
  - right. apply touched_intro.
    pose proof (submits_hit st pat pat g) as Hin.
    unfold submit_hit in Hin. rewrite E in Hin.
    by rewrite Hl, bool_decide_true in Hin.
  - left. apply touched_intro.
    pose proof (wirings_hit st pat g) as Hin.
    rewrite E in Hin. simpl in Hin. rewrite (qi_all _ Hinv), Hl in Hin.
    by rewrite bool_decide_true in Hin.
Qed.

Lemma constrained_field pat : constrained pat → ∃ g k, pfield g pat = Some k.
Proof.
  unfold constrained. destruct pat as [[[s|] [p|]] [o|]]; simpl; try done;
    intros _; first [by exists FS; eexists | by exists FP; eexists | by exists FO; eexists].
Qed.

Lemma sync_inv_new st qid pat :
  query_inv st → constrained pat →
  sync_inv st (run st (wirings st pat ++ submits st pat pat)
                 (mkSync qid pat (None, None, None) [])).
Proof.
  intros Hinv Hc.
  remember (wirings st pat ++ submits st pat pat) as bs eqn:Hbs.
  set (q0 := mkSync qid pat (None, None, None) []).
  assert (Hs0 : sound st q0) by (by intros []).
  assert (Hq0 : quiet q0) by (by intros ?).
  assert (Hl0 : ∀ b f, (b, f) ∈ bs → b = true →
                 live st (src_ref f (q_pattern q0)) = true).
  { subst bs. intros b f [H|H]%elem_of_app Hb.
    - by eapply live_wirings.
    - by eapply live_submits. }
  assert (Hnew : ∀ g, live st (src_ref g pat) = true → touched g bs = true).
  { subst bs. intros g. by apply live_touched_new. }
  destruct (run_spec st bs q0 Hs0 Hq0 Hl0) as (Hs & Hq & Hg & Ht).
  assert (Hlat : ∀ f, get_latest f (q_latest (run st bs q0))
                 = if live st (src_ref f (q_pattern (run st bs q0)))
                   then Some (src_ref f (q_pattern (run st bs q0)))
                   else None).
  { intros g. rewrite Hg, q_pattern_run.
    change (q_pattern q0) with pat.
    change (q_latest q0) with (@None SetRef, @None SetRef, @None SetRef).
    destruct (live st (src_ref g pat)) eqn:El.
    - by rewrite (Hnew g El).
    - destruct (touched g bs) eqn:Et; [|by destruct g].
      apply (touched_live st bs g pat) in Et; [congruence|done]. }
  apply sync_inv_intro; [by rewrite q_pattern_run|done|done|].
  intros Hall.
  pose proof (proj1 (all_live_complete st _ Hlat) Hall) as Hcomp.
  destruct (constrained_field _ Hc) as (g & k & Hk).
  assert (Hlg : live st (src_ref g pat) = true).
  { rewrite q_pattern_run in Hall. change (q_pattern q0) with pat in Hall.
    unfold all_live in Hall.
    apply andb_true_iff in Hall as [[H1 H2]%andb_true_iff H3]. by destruct g. }
  rewrite (touched_any g bs (Hnew g Hlg)) in Ht.
  by apply Ht.
Qed.

Lemma streamAll_submit f (ok : option Value) st :
  streamAll (submit f ok st) = streamAll st.
Proof.
  unfold submit. destruct ok as [k|]; [|done].
  destruct (index_of st f !! k); [|done].
  unfold next_sel. by destruct (equiv_term _ _).
Qed.

Lemma sel_sound_submit f (ok : option Value) st :
  sel_sound st → sel_sound (submit f ok st).
Proof.
  intros Hs. unfold submit. destruct ok as [k|]; [|done].
  destruct (index_of st f !! k) as [ids|] eqn:E; [|done].
  unfold next_sel. simpl. rewrite equiv_term_refl.
  intros g k' v. simpl. rewrite lookup_insert. case_decide as Hk.
  - injection Hk as <- <-. intros [= <-]. split; [done|].
    change (is_Some (index_of st f !! k)). by rewrite E.
  - apply Hs.
Qed.

Lemma query_inv_addPatternQuery qid pat emit st :
  query_inv st → query_inv (addPatternQuery qid pat emit st).2.
Proof.
  intros Hinv.
  destruct (decide (constrained pat)) as [Hc|Hc];
    [|by rewrite addPatternQuery_wildcard].
  rewrite addPatternQuery_unfold by done. cbn [snd].
  pose proof (query_inv_selected pat st Hinv) as Hinv3.
  set (qw := wire _ FO _).
  set (st4 := set_queries _ _).
  assert (Hd : same_data (selected pat st) st4) by (by repeat split).
  assert (Hd7 : same_data st4
            (submit FO (pfield FO pat) (submit FP (pfield FP pat)
               (submit FS (pfield FS pat) st4)))).
  { eapply same_data_trans; [|apply same_data_submit].
    eapply same_data_trans; [|apply same_data_submit].
    apply same_data_submit. }
  split.
  - rewrite !streamAll_submit.
    destruct Hd7 as (_&_&_&_&->). apply Hinv3.
  - do 3 apply sel_sound_submit. apply Hinv3.
  - rewrite queries_submits. apply Forall_fmap.
    change (queries st4) with (queries st ++ [qw]).
    apply Forall_app. split.
    + pose proof (qi_sync _ Hinv3) as Hq3. rewrite queries_selected in Hq3.
      eapply Forall_impl; [exact Hq3|]. intros q Hq. cbv beta.
      apply (sync_inv_same_data st4); [done|].
      apply (sync_inv_run st4 st4 (submits st4 pat (q_pattern q)) q).
      * by apply (sync_inv_same_data (selected pat st)).
      * done.
      * apply live_submits.
      * done.
    + apply Forall_singleton. cbv beta.
      apply (sync_inv_same_data st4); [done|].
      apply (sync_inv_same_data (selected pat st)); [done|].
      rewrite (run_same_data _ _ _ _ Hd).
      unfold qw. rewrite wire_run by done.
      rewrite q_pattern_run. simpl q_pattern.
      rewrite <- run_app.
      replace (submits st4 pat pat) with (submits (selected pat st) pat pat).
      * by apply sync_inv_new.
      * unfold submits. by rewrite !(submit_hit_same_data _ _ _ _ _ Hd).
Qed.

Lemma query_inv_empty : query_inv empty_store.
Proof.
  split.
  - simpl. by rewrite bool_decide_false by (intros H; by apply H).
  - intros f k v. simpl. by rewrite lookup_empty.
  - constructor.
Qed.

(** A store of primitive facts was one before every operation, and
    what it inserted was primitive. *)
Lemma plain_same_data st st' : same_data st st' → plain st' → plain st.
Proof. intros (Ht&_) Hp id t. rewrite <- Ht. apply Hp. Qed.

Lemma same_data_plain st st' : same_data st st' → plain st → plain st'.
Proof. intros (Ht&_) Hp id t. rewrite Ht. apply Hp. Qed.

Lemma plain_addTriple_inv t st n :
  data_inv st n → plain (addTriple t st n).1.2 →
  plain st ∧ (has st t = false → primitive_triple t = true).
Proof.
  intros Hinv. rewrite addTriple_unfold.
  destruct (has st t); cbn [fst snd]; [done|].
  intros Hp. split.
  - intros id t' Hid. apply (Hp id). simpl.
    rewrite lookup_insert_ne; [done|].
    pose proof (inv_fresh _ _ Hinv _ _ Hid). lia.
  - intros _. apply (Hp n). simpl. by rewrite lookup_insert_eq.
Qed.

Lemma plain_addTriple t st n :
  primitive_triple t = true → plain st → plain (addTriple t st n).1.2.
Proof.
  intros Ht Hp. rewrite addTriple_unfold.
  destruct (has st t); cbn [fst snd]; [done|].
  intros id t'. simpl. rewrite lookup_insert.
  case_decide; [by intros [= <-]|apply Hp].
Qed.

Lemma plain_empty : plain empty_store.
Proof. intros id t. simpl. by rewrite lookup_empty. Qed.

Lemma plain_addPatternQuery qid pat emit st :
  plain st → plain (addPatternQuery qid pat emit st).2.
Proof. apply same_data_plain, same_data_addPatternQuery. Qed.

Lemma reachable_query_inv st n : reachable st n → plain st → query_inv st.
Proof.
  induction 1 as [n|st n _ IH|st n t Hr IH|st n qid pat emit Hr IH]; intros Hp.
  - apply query_inv_empty.
  - by apply IH.
  - destruct (plain_addTriple_inv _ _ _ (reachable_data_inv _ _ Hr) Hp)
      as [Hp' Ht].
    apply query_inv_addTriple; [done|by apply IH].
  - apply query_inv_addPatternQuery, IH.
    by apply (plain_same_data _ _ (same_data_addPatternQuery qid pat emit st)).
Qed.
End query_invariant_subscribe.

(** ** Pattern queries *)

Section pattern_query_lemmas.
Implicit Types (st : TripleStore) (q : Sync) (f g : Field) (t : Triple)
               (pat : Pattern) (k : Value) (n id : nat).

Lemma pushes_getIndexSelection f (ok : option Value) st :
  pushes (getIndexSelection f ok st) = pushes st.
Proof.
  unfold getIndexSelection. destruct ok as [k|]; [|done].
  by destruct (indexSelections st !! (f, k)).
Qed.

Lemma pushes_selected pat st : pushes (selected pat st) = pushes st.
Proof. unfold selected. by rewrite !pushes_getIndexSelection. Qed.

Lemma pushes_submit f pat st :
  pushes (submit f (pfield f pat) st) = pushes st ++ replay_of st f pat.
Proof.
  unfold submit, replay_of. destruct (pfield f pat) as [k|].
  - destruct (index_of st f !! k).
    + unfold next_sel. simpl. by rewrite equiv_term_refl.
    + by rewrite app_nil_r.
  - by rewrite app_nil_r.
Qed.

Lemma replay_of_same_data st st' f pat :
  same_data st st' → replay_of st' f pat = replay_of st f pat.
Proof. intros H. unfold replay_of. by rewrite (same_data_index _ _ _ H). Qed.

Lemma pushes_addPatternQuery qid pat emit st :
  constrained pat →
  pushes (addPatternQuery qid pat emit st).2 = pushes st ++ replay st pat.
Proof.
  intros Hc. rewrite addPatternQuery_unfold by done. cbn [snd].
  set (st4 := set_queries _ _).
  assert (H4 : same_data st st4).
  { eapply same_data_trans; [apply same_data_selected|by repeat split]. }
  pose proof (same_data_trans _ _ _ H4 (same_data_submit FS (pfield FS pat) _)) as H5.
  pose proof (same_data_trans _ _ _ H5 (same_data_submit FP (pfield FP pat) _)) as H6.
  rewrite !pushes_submit.
  rewrite (replay_of_same_data _ _ _ _ H4), (replay_of_same_data _ _ _ _ H5),
          (replay_of_same_data _ _ _ _ H6).
  change (pushes st4) with (pushes (selected pat st)).
  rewrite pushes_selected. unfold replay. by rewrite <- !app_assoc.
Qed.

(** The sync node created by [addPatternQuery] sits behind the
    returned subscription and carries the pattern. *)
Lemma addPatternQuery_node qid pat emit st :
  constrained pat →
  ∃ q, queries (addPatternQuery qid pat emit st).2 !! length (queries st) = Some q
       ∧ q_pattern q = pat
       ∧ emitted (addPatternQuery qid pat emit st).2
                 (addPatternQuery qid pat emit st).1 = q_out q.
Proof.
  intros Hc. rewrite addPatternQuery_unfold by done. cbn [fst snd].
  unfold emitted. cbn [results].
  rewrite queries_submits.
  set (st4 := set_queries _ _).
  change (queries st4) with
    (queries st ++ [wire (selected pat st) FO (wire (selected pat st) FP
       (wire (selected pat st) FS (mkSync qid pat (None, None, None) [])))]).
  rewrite list_lookup_fmap, lookup_app_r by done.
  rewrite Nat.sub_diag. cbn [lookup list_lookup fmap option_fmap option_map].
  eexists. split; [done|]. split; [|done].
  rewrite q_pattern_run. unfold wire at 1.
  destruct (source_current _ _ _); rewrite ?q_pattern_sync_next;
    unfold wire at 1;
    destruct (source_current _ _ _); rewrite ?q_pattern_sync_next;
    unfold wire at 1;
    destruct (source_current _ _ _); by rewrite ?q_pattern_sync_next.
Qed.

(** The intersection of a pattern's sets is the set of slots holding
    a matching triple. *)
Lemma matching_spec st n pat id :
  data_inv st n →
  id ∈ matching st pat ↔ ∃ t, triples st !! id = Some t ∧ matches pat t.
Proof.
  intros Hinv.
  assert (Hone : ∀ f, id ∈ deref st (src_ref f pat) ↔
            ∃ t, triples st !! id = Some t
                 ∧ ∀ k, pfield f pat = Some k → field f t = k).
  { intros f. unfold src_ref. destruct (pfield f pat) as [k|]; simpl.
    - split.
      + destruct (index_of st f !! k) as [ids|] eqn:E; simpl; [|set_solver].
        intros Hin. destruct (inv_sound _ _ Hinv _ _ _ _ E Hin) as (t & Ht & Hf).
        exists t. split; [done|]. by intros k' [= <-].
      + intros (t & Ht & Hf). specialize (Hf k eq_refl). subst k.
        destruct (inv_complete _ _ Hinv f _ _ Ht) as (ids & -> & Hin). done.
    - rewrite (inv_all _ _ Hinv), elem_of_dom. split.
      + intros [t Ht]. by exists t.
      + intros (t & Ht & _). by exists t. }
  unfold matching. rewrite !elem_of_intersection, !Hone. split.
  - intros [[(t & Ht & HS) (t' & Ht' & HP)] (t'' & Ht'' & HO)].
    assert (t' = t) as -> by congruence. assert (t'' = t) as -> by congruence.
    exists t. split; [done|]. intros []; auto.
  - intros (t & Ht & Hm). repeat split; exists t; split; try done;
      intros k Hk; by apply Hm.
Qed.

(** With one constrained field, every source of a pattern exists iff
    each concrete field has an index entry. *)
Lemma all_live_iff st n pat :
  data_inv st n → constrained pat →
  all_live st pat = true ↔
  ∀ g j, pfield g pat = Some j → is_Some (index_of st g !! j).
Proof.
  intros Hinv Hc. unfold all_live. rewrite !andb_true_iff. split.
  - intros [[HS HP] HO] g j Hj.
    assert (Hl : live st (src_ref g pat) = true) by (by destruct g).
    unfold src_ref in Hl. rewrite Hj in Hl. by apply bool_decide_eq_true in Hl.
  - intros H.
    assert (Hall : allIDs st ≠ ∅).
    { destruct (constrained_field _ Hc) as (g & j & Hj).
      destruct (H _ _ Hj) as [ids Hids].
      pose proof (inv_nonempty _ _ Hinv _ _ _ Hids) as Hne.
      apply set_choose_L in Hne as [id Hid].
      destruct (inv_sound _ _ Hinv _ _ _ _ Hids Hid) as (t & Ht & _).
      rewrite (inv_all _ _ Hinv). intros He.
      assert (id ∈ dom (triples st)) as Hd by (apply elem_of_dom; by exists t).
      rewrite He in Hd. set_solver. }
    assert (Hl : ∀ g, live st (src_ref g pat) = true).
    { intros g. unfold src_ref. destruct (pfield g pat) as [j|] eqn:E; simpl.
      - apply bool_decide_eq_true. by apply H.
      - by apply bool_decide_eq_true. }
    by rewrite !Hl.
Qed.

Lemma not_all_live st n pat :
  data_inv st n → constrained pat →
  all_live st pat = false ↔
  ∃ g j, pfield g pat = Some j ∧ index_of st g !! j = None.
Proof.
  intros Hinv Hc. split.
  - intros Hf.
    destruct (pfield FS pat) as [a|] eqn:ES;
      [destruct (index_of st FS !! a) eqn:EiS; [|by exists FS, a]|];
    (destruct (pfield FP pat) as [b|] eqn:EP;
      [destruct (index_of st FP !! b) eqn:EiP; [|by exists FP, b]|]);
    (destruct (pfield FO pat) as [c|] eqn:EO;
      [destruct (index_of st FO !! c) eqn:EiO; [|by exists FO, c]|]);
    exfalso;
    (assert (all_live st pat = true) as Ht; [|congruence]);
    apply (all_live_iff st n pat Hinv Hc);
    intros [] j Hj; simplify_eq; by eexists.
  - intros (g & j & Hj & Hn).
    destruct (all_live st pat) eqn:E; [|done].
    pose proof (proj1 (all_live_iff st n pat Hinv Hc) E g j Hj) as E'.
    rewrite Hn in E'. by destruct E'.
Qed.





Lemma steps_reachable st0 n0 st n :
  reachable st0 n0 → steps st0 n0 st n → reachable st n.
Proof.
  intros H0. induction 1.
  - done.
  - by apply reach_elsewhere.
  - by apply reach_addTriple.
  - by apply reach_addPatternQuery.
Qed.

End pattern_query_lemmas.

(** ** Subscription replay, whatever the terms *)

Section replay_any_terms.
Implicit Types (st D : TripleStore) (q : Sync) (f g : Field) (t : Triple)
               (pat : Pattern) (k : Value) (n id : nat).

Lemma q_pattern_wire st f q : q_pattern (wire st f q) = q_pattern q.
Proof.
  unfold wire. destruct (source_current _ _ _); [apply q_pattern_sync_next|done].
Qed.

Lemma q_id_wire st f q : q_id (wire st f q) = q_id q.
Proof.
  unfold wire. destruct (source_current _ _ _); [apply q_id_sync_next|done].
Qed.















Lemma last_sync_next_complete D f (v : SetRef) q s p o :
  set_latest f v (q_latest q) = (Some s, Some p, Some o) →
  last (q_out (sync_next D f v q)) = Some (deref D s ∩ deref D p ∩ deref D o).
Proof. intros H. by rewrite q_out_sync_next, H, last_snoc. Qed.



End replay_any_terms.

Section pattern_query_properties.
Implicit Types (st : TripleStore) (q : Sync) (f g : Field) (t : Triple)
               (pat : Pattern) (k : Value) (n id : nat).

(** C4, as the code has it.  The transform of a pattern query always
    intersects the subject set with the predicate set first and the
    result with the object set, whatever their sizes; its value is the
    three-way intersection, which no other order of the operands
    changes.  Whenever a source delivers to the sync node and all
    three sources have a latest value, the node emits this transform
    of the three latest sets; otherwise it emits nothing. *)
Theorem xform_fixed_order (s p o : TripleIds) :
  (xform s p o).2 = [(s, p); (s ∩ p, o)]
  ∧ (xform s p o).1 = s ∩ p ∩ o
  ∧ (xform s p o).1 = (p ∩ o) ∩ s
  ∧ (xform s p o).1 = (s ∩ o) ∩ p
  ∧ ∀ st f v q,
      q_latest (sync_next st f v q) = set_latest f v (q_latest q)
      ∧ q_out (sync_next st f v q) =
          match set_latest f v (q_latest q) with
          | (Some a, Some b, Some c) =>
              q_out q ++ [(xform (deref st a) (deref st b) (deref st c)).1]
          | _ => q_out q
          end.
Proof.
  split; [done|]. split; [done|]. split; [simpl; set_solver|].
  split; [simpl; set_solver|].
  intros st f v q. split; [apply q_latest_sync_next|apply q_out_sync_next].
Qed.

(** C4 as stated fails: with a subject set of two ids, a predicate set
    of three and an object set of one, the first intersection is still
    subject with predicate, the two largest sets. *)
Lemma xform_not_smallest_pair_first :
  ¬ smallest_pair_first {[0; 1]} {[0; 1; 2]} {[0]}.
Proof.
  unfold smallest_pair_first. simpl. intros [H _].
  revert H. vm_compute. lia.
Qed.


End pattern_query_properties.

Section pattern_query_witnesses.



Lemma plain_store_abc : plain store_abc.
Proof. exact (plain_addTriple abc empty_store 0 eq_refl plain_empty). Defined.


End pattern_query_witnesses.

(** ** Parametric queries and joins *)

Section param_query_properties.
Implicit Types (st : TripleStore) (pat : Pattern).

(** C9. A pattern without any query variable makes [addParamQuery]
    throw an illegal-argument error at once, the store (its channels,
    selections, sync nodes and pushes) being exactly as before the
    call; a pattern with at least one query variable makes it return a
    subscription. *)
Theorem addParamQuery_requires_qvar qid pat st :
  if isQVar (pfield FS pat) || isQVar (pfield FP pat) || isQVar (pfield FO pat)
  then ∃ sub, (addParamQuery qid pat st).1 = Returned sub
  else addParamQuery qid pat st
       = (Thrown (IllegalArgumentError
                    "at least 1 query variable is required in pattern"), st).
Proof.
  unfold addParamQuery, qvarResolver.
  destruct (isQVar (pfield FS pat) || isQVar (pfield FP pat)
            || isQVar (pfield FO pat)); [|done].
  by eexists.
Qed.
End param_query_properties.

Section join_properties.
Implicit Types (x y r : gmap string Value) (a b v : Solutions) (j : JoinSync).

Lemma agree_spec x y :
  agree x y = true ↔
  ∀ k vx vy, x !! k = Some vx → y !! k = Some vy → vx = vy.
Proof.
  unfold agree. rewrite forallb_forall. split.
  - intros H k vx vy Hx Hy.
    specialize (H (k, vx)). simpl in H. rewrite Hy in H.
    eapply bool_decide_eq_true_1, H, list_elem_of_In.
    by apply elem_of_map_to_list.
  - intros H [k vx] Hin%list_elem_of_In%elem_of_map_to_list. simpl.
    destruct (y !! k) as [vy|] eqn:E; [|done].
    apply bool_decide_eq_true. by eapply H.
Qed.

Lemma join_spec a b r :
  r ∈ join a b ↔
  ∃ x y, x ∈ a ∧ y ∈ b ∧ agree x y = true ∧ r = x ∪ y.
Proof.
  unfold join. rewrite list_elem_of_In, in_flat_map. split.
  - intros (x & Hx & Hr). apply in_flat_map in Hr as (y & Hy & Hr).
    exists x, y. rewrite !list_elem_of_In.
    destruct (agree x y); [|done]. by destruct Hr as [<-|[]].
  - intros (x & y & Hx & Hy & Ha & ->). exists x.
    rewrite <- list_elem_of_In. split; [done|].
    apply in_flat_map. exists y. rewrite <- list_elem_of_In. split; [done|].
    rewrite Ha. by left.
Qed.

(** C8. On an update from either side the join node keeps that value
    as the side's latest and, having a latest value for both sides,
    recomputes their natural join: the merged records of all pairs that
    bind every shared variable name to equal values.  It emits the join
    if it is non-empty and emits nothing at all if it is empty. *)
Theorem join_emits_nonempty_only side v j a b :
  j_a (join_next side v j) = Some a →
  j_b (join_next side v j) = Some b →
  (match side with
   | SideA => a = v ∧ j_b j = Some b
   | SideB => j_a j = Some a ∧ b = v
   end)
  ∧ (∀ r, r ∈ join a b ↔
          ∃ x y, x ∈ a ∧ y ∈ b
                 ∧ (∀ k vx vy, x !! k = Some vx → y !! k = Some vy → vx = vy)
                 ∧ r = x ∪ y)
  ∧ j_out (join_next side v j)
    = match join a b with
      | [] => j_out j
      | _ :: _ => j_out j ++ [join a b]
      end.
Proof.
  intros Ha Hb.
  assert (Hlat : match side with
                 | SideA => a = v ∧ j_b j = Some b
                 | SideB => j_a j = Some a ∧ b = v
                 end).
  { revert Ha Hb. unfold join_next.
    destruct side, (j_a j) as [xa|], (j_b j) as [xb|]; simpl;
      try destruct (join_xform _ _); simpl; intros Ha Hb; split; congruence. }
  split; [done|]. split.
  - intros r. rewrite join_spec. by setoid_rewrite agree_spec.
  - unfold join_next, join_xform.
    destruct side; destruct Hlat as [H1 H2]; subst; rewrite ?H1, ?H2;
      by destruct (join _ _).
Qed.

Lemma join_emits_nonempty_only_witness :
  let j := join_next SideA [sol_xa] (addQueryJoin "j") in
  j_a (join_next SideB [sol_xb] j) = Some [sol_xa]
  ∧ j_b (join_next SideB [sol_xb] j) = Some [sol_xb]
  ∧ j_out (join_next SideB [sol_xb] j) = []
  ∧ j_out (join_next SideB [sol_xa_yc] j) = [[sol_xa_yc]].
Proof.
  cbv zeta.
  assert (H1 : j_a (join_next SideB [sol_xb]
                      (join_next SideA [sol_xa] (addQueryJoin "j")))
               = Some [sol_xa]) by (by vm_compute).
  assert (H2 : j_b (join_next SideB [sol_xb]
                      (join_next SideA [sol_xa] (addQueryJoin "j")))
               = Some [sol_xb]) by (by vm_compute).
  split; [exact H1|]. split; [exact H2|]. split.
  - rewrite (proj2 (proj2 (join_emits_nonempty_only SideB [sol_xb]
               (join_next SideA [sol_xa] (addQueryJoin "j"))
               [sol_xa] [sol_xb] H1 H2))).
    by vm_compute.
  - by vm_compute.
Defined.
End join_properties.

(** ** Sample runs of the specification's test scenarios *)

Section sample_runs.

Lemma reachable_addParamQuery qid pat st n :
  reachable st n → reachable (addParamQuery qid pat st).2 n.
Proof.
  intros Hr. unfold addParamQuery.
  destruct (qvarResolver _ _ _ _ _ _); [|done].
  by apply reach_addPatternQuery.
Qed.

Example idempotence_abc :
  (addTriple abc empty_store 0).1.1 = true
  ∧ (addTriple abc store_abc 1).1.1 = false
  ∧ (addTriple abc store_abc 1).1.2 = store_abc.
Proof. by vm_compute. Qed.

Example intersection_early :
  last (emitted early_store early_sub) = Some {[0; 1]}.
Proof. by vm_compute. Qed.

Example intersection_late :
  last (emitted (addPatternQuery "q" pat_ab false store3).2
                (addPatternQuery "q" pat_ab false store3).1) = Some {[0; 1]}
  ∧ 2 ∉ matching store3 pat_ab.
Proof.
  split; [by vm_compute|].
  intros H%elem_of_elements. revert H. vm_compute.
  intros H. repeat (apply elem_of_cons in H as [?|H]; [done|]).
  by apply elem_of_nil in H.
Qed.

Example wildcard_query_is_global :
  results (addPatternQuery "all" (None, None, None) false store3).1 = ResAll
  ∧ emitted store3 (mkSub ResAll false) = [allIDs store3; allIDs store3; allIDs store3].
Proof. by vm_compute. Qed.

Example parametric_resolution :
  ∃ ps, (addParamQuery "friends" pat_friend friends).1 = Returned ps
        ∧ param_current (addParamQuery "friends" pat_friend friends).2 ps
          = Some [ {[ "x" := VStr "carol"; "y" := VStr "dave" ]};
                   {[ "x" := VStr "alice"; "y" := VStr "bob" ]} ].
Proof. eexists. split; [reflexivity|]. by vm_compute. Qed.

Example invalid_query :
  (addParamQuery "q" (Some (VStr "a"), None, Some (VStr "b")) friends).1
  = Thrown (IllegalArgumentError "at least 1 query variable is required in pattern").
Proof. reflexivity. Qed.

Example join_suppression :
  j_out (join_run (addQueryJoin "j") [(SideA, [sol_xa]); (SideB, [sol_xb])]) = []
  ∧ j_out (join_run (addQueryJoin "j") [(SideA, [sol_xa]); (SideB, [sol_xa_yc])])
    = [[sol_xa_yc]].
Proof. by vm_compute. Qed.
End sample_runs.

(** ** The store as a set of facts *)

Section fact_set.
Implicit Types (st : TripleStore) (t : Triple) (n id : nat).

Lemma addTriples_cons t ts st n :
  addTriples (t :: ts) st n =
    ((addTriple t st n).1.1
       && (addTriples ts (addTriple t st n).1.2 (addTriple t st n).2).1.1,
     (addTriples ts (addTriple t st n).1.2 (addTriple t st n).2).1.2,
     (addTriples ts (addTriple t st n).1.2 (addTriple t st n).2).2).
Proof.
  simpl. destruct (addTriple t st n) as [[b st1] n1]. simpl.
  by destruct (addTriples ts st1 n1) as [[ok st2] n2].
Qed.

Lemma fresh_slot st n : data_inv st n → triples st !! n = None.
Proof.
  intros Hinv. destruct (triples st !! n) as [t|] eqn:E; [|done].
  pose proof (inv_fresh _ _ Hinv _ _ E). lia.
Qed.

Lemma not_has_not_stored_1 st n t :
  data_inv st n → has st t = false → ¬ stored st t.
Proof.
  intros Hinv Hh Hst. by rewrite (stored_has _ _ _ Hinv Hst) in Hh.
Qed.

Lemma not_has_not_stored st n t :
  data_inv st n → primitive_triple t = true →
  has st t = false ↔ ¬ stored st t.
Proof.
  intros Hinv Hp. rewrite <- (has_stored _ _ _ Hinv Hp). by destruct (has st t).
Qed.

(** What is stored after [addTriple(t)]: what was, and [t] if it was
    inserted. *)
Lemma stored_addTriple_any st n t t' :
  data_inv st n →
  stored (addTriple t st n).1.2 t' ↔ stored st t' ∨ (t' = t ∧ has st t = false).
Proof.
  intros Hinv. rewrite addTriple_unfold.
  destruct (has st t) eqn:E; cbn [fst snd].
  - split; [by left|]. by intros [?|[_ ?]].
  - unfold stored. simpl. split.
    + intros [id Hid]. rewrite lookup_insert in Hid.
      case_decide; [right; split; congruence|left; by exists id].
    + intros [[id Hid]|[-> _]].
      * exists id. rewrite lookup_insert_ne; [done|].
        pose proof (inv_fresh _ _ Hinv _ _ Hid). lia.
      * exists n. by rewrite lookup_insert_eq.
Qed.

Lemma stored_addTriple st n t t' :
  data_inv st n → primitive_triple t = true →
  stored (addTriple t st n).1.2 t' ↔ stored st t' ∨ t' = t.
Proof.
  intros Hinv Hp. rewrite (stored_addTriple_any _ _ _ _ Hinv). split.
  - intros [?|[? _]]; auto.
  - intros [?| ->]; [by left|].
    destruct (has st t) eqn:E; [left|by right].
    by apply (has_stored _ _ _ Hinv Hp).
Qed.

Lemma unique_addTriple st n t :
  data_inv st n → unique_triples st → unique_triples (addTriple t st n).1.2.
Proof.
  intros Hinv Hu. rewrite addTriple_unfold.
  destruct (has st t) eqn:E; cbn [fst snd]; [done|].
  apply (not_has_not_stored_1 _ _ _ Hinv) in E.
  intros id id' t'. simpl. rewrite !lookup_insert.
  destruct (decide (n = id)) as [<-|Hn], (decide (n = id')) as [<-|Hn']; try done.
  - intros [= <-] Hid'. destruct E. by exists id'.
  - intros Hid [= <-]. destruct E. by exists id.
  - apply Hu.
Qed.

Lemma reachable_unique st n : reachable st n → unique_triples st.
Proof.
  induction 1 as [n|st n _ IH|st n t Hr IH|st n qid pat emit _ IH].
  - intros id id' t. simpl. by rewrite lookup_empty.
  - done.
  - apply unique_addTriple; [by apply reachable_data_inv|done].
  - intros id id' t.
    destruct (same_data_addPatternQuery qid pat emit st) as (-> & _). apply IH.
Qed.

Lemma elem_of_stored_set st t : t ∈ stored_set st ↔ stored st t.
Proof. unfold stored_set, stored. apply elem_of_map_img. Qed.

Lemma stored_set_addTriple_any st n t :
  data_inv st n →
  stored_set (addTriple t st n).1.2
  = if has st t then stored_set st else stored_set st ∪ {[t]}.
Proof.
  intros Hinv. apply set_eq. intros t'.
  rewrite elem_of_stored_set, (stored_addTriple_any _ _ _ _ Hinv).
  destruct (has st t);
    rewrite ?elem_of_union, ?elem_of_singleton, !elem_of_stored_set;
    naive_solver.
Qed.

Lemma stored_set_addTriple st n t :
  data_inv st n → primitive_triple t = true →
  stored_set (addTriple t st n).1.2 = stored_set st ∪ {[t]}.
Proof.
  intros Hinv Hp. apply set_eq. intros t'.
  rewrite elem_of_union, elem_of_singleton, !elem_of_stored_set.
  by apply stored_addTriple.
Qed.

Lemma allIDs_addTriple st n t :
  allIDs (addTriple t st n).1.2
  = if has st t then allIDs st else allIDs st ∪ {[n]}.
Proof. rewrite addTriple_unfold. by destruct (has st t). Qed.

Lemma counter_addTriple st n t :
  (addTriple t st n).2 = if has st t then n else S n.
Proof. rewrite addTriple_unfold. by destruct (has st t). Qed.

Lemma pushes_length_addTriple st n t :
  length (pushes (addTriple t st n).1.2)
  = if has st t then length (pushes st) else length (pushes st) + 4.
Proof.
  rewrite addTriple_unfold. destruct (has st t); [done|].
  cbn [fst snd]. unfold emissions, next_field, next_all. simpl.
  rewrite !length_app. simpl. lia.
Qed.

Lemma fresh_id st n : data_inv st n → n ∉ allIDs st.
Proof.
  intros Hinv. rewrite (inv_all _ _ Hinv), not_elem_of_dom.
  by apply fresh_slot.
Qed.

Lemma size_stored_set st n :
  reachable st n → size (stored_set st) = size (allIDs st).
Proof.
  induction 1 as [n|st n _ IH|st n t Hr IH|st n qid pat emit _ IH].
  - unfold stored_set. simpl. by rewrite map_img_empty_L, !size_empty.
  - done.
  - pose proof (reachable_data_inv _ _ Hr) as Hinv.
    rewrite (stored_set_addTriple_any _ _ _ Hinv), allIDs_addTriple.
    destruct (has st t) eqn:E; [done|].
    + apply (not_has_not_stored_1 _ _ _ Hinv) in E.
      rewrite <- elem_of_stored_set in E.
      pose proof (fresh_id _ _ Hinv).
      rewrite !size_union, !size_singleton by set_solver. lia.
  - destruct (same_data_addPatternQuery qid pat emit st) as (Ht & _ & _ & _ & Ha).
    unfold stored_set. by rewrite Ht, Ha.
Qed.
End fact_set.

Section batch_insertion.
Implicit Types (st : TripleStore) (t : Triple) (ts : list Triple) (n id : nat).

Lemma data_inv_addTriples ts st n :
  data_inv st n → data_inv (addTriples ts st n).1.2 (addTriples ts st n).2.
Proof.
  revert st n. induction ts as [|t ts IH]; intros st n Hinv; [done|].
  rewrite addTriples_cons. cbn [fst snd]. by apply IH, data_inv_addTriple.
Qed.

Lemma addTriples_true_inv ts st n :
  data_inv st n →
  (addTriples ts st n).1.1 = true →
  NoDup ts ∧ ∀ t, t ∈ ts → ¬ stored st t.
Proof.
  revert st n. induction ts as [|t ts IH]; intros st n Hinv.
  - intros _. split; [constructor|].
    intros t Ht. by apply elem_of_nil in Ht.
  - rewrite addTriples_cons. cbn [fst snd].
    intros [Hb Hrest]%andb_true_iff.
    destruct (IH _ _ (data_inv_addTriple t st n Hinv) Hrest) as [Hnd Hall].
    assert (Hh : has st t = false).
    { revert Hb. rewrite addTriple_unfold. by destruct (has st t). }
    split; [constructor; [|done]|].
    + intros Hin. apply (Hall _ Hin), (stored_addTriple_any _ _ _ _ Hinv).
      by right.
    + intros t' [->|Hin]%elem_of_cons.
      * by apply (not_has_not_stored_1 _ _ _ Hinv).
      * intros Hs. apply (Hall _ Hin), (stored_addTriple_any _ _ _ _ Hinv).
        by left.
Qed.

Lemma addTriples_true_iff_inv ts st n :
  data_inv st n →
  (∀ t, t ∈ ts → primitive_triple t = true) →
  (addTriples ts st n).1.1 = true ↔
  NoDup ts ∧ ∀ t, t ∈ ts → ¬ stored st t.
Proof.
  intros Hinv Hp. split; [by apply addTriples_true_inv|].
  revert st n Hinv. induction ts as [|t ts IH]; intros st n Hinv; [done|].
  intros [[Hnin Hnd]%NoDup_cons Hall].
  assert (Hpt : primitive_triple t = true) by (apply Hp; by left).
  rewrite addTriples_cons. cbn [fst snd]. apply andb_true_iff. split.
  - rewrite addTriple_unfold.
    rewrite (proj2 (not_has_not_stored _ _ _ Hinv Hpt)); [done|].
    apply Hall. by left.
  - apply IH.
    + intros t' Hin. apply Hp. by right.
    + by apply data_inv_addTriple.
    + split; [done|].
      intros t' Hin [Hs| ->]%(stored_addTriple _ _ _ _ Hinv Hpt).
      * apply (Hall t'); [by right|done].
      * done.
Qed.

(** X1: [addTriples] answers [true] only if every triple of the batch
    was new (none was stored before, none occurs twice in the batch),
    and for a batch of triples of primitive terms exactly then. *)
Theorem addTriples_true_iff ts st n :
  reachable st n →
  ((addTriples ts st n).1.1 = true →
   NoDup ts ∧ ∀ t, t ∈ ts → ¬ stored st t)
  ∧ ((∀ t, t ∈ ts → primitive_triple t = true) →
     ((addTriples ts st n).1.1 = true ↔
      NoDup ts ∧ ∀ t, t ∈ ts → ¬ stored st t)).
Proof.
  intros Hr%reachable_data_inv.
  split; [by apply addTriples_true_inv|by apply addTriples_true_iff_inv].
Qed.

Lemma stored_addTriples_inv ts st n t :
  data_inv st n →
  (stored (addTriples ts st n).1.2 t → stored st t ∨ t ∈ ts)
  ∧ (stored st t → stored (addTriples ts st n).1.2 t).
Proof.
  revert st n. induction ts as [|t' ts IH]; intros st n Hinv.
  - simpl. split; [by left|done].
  - rewrite addTriples_cons. cbn [fst snd].
    destruct (IH _ _ (data_inv_addTriple t' st n Hinv)) as [IH1 IH2].
    split.
    + intros [[?|[-> _]]%(stored_addTriple_any _ _ _ _ Hinv)|Hin]%IH1.
      * by left.
      * right. by left.
      * right. by right.
    + intros Hs. apply IH2, (stored_addTriple_any _ _ _ _ Hinv). by left.
Qed.

Lemma addTriples_stored_inv ts st n t :
  data_inv st n →
  (∀ t', t' ∈ ts → primitive_triple t' = true) →
  (stored (addTriples ts st n).1.2 t ↔ stored st t ∨ t ∈ ts)
  ∧ (primitive_triple t = true →
     (has (addTriples ts st n).1.2 t = true ↔ has st t = true ∨ t ∈ ts)).
Proof.
  intros Hinv Hp.
  assert (Hst : stored (addTriples ts st n).1.2 t ↔ stored st t ∨ t ∈ ts).
  { revert st n Hinv. induction ts as [|t' ts IH]; intros st n Hinv.
    - simpl. split; [by left|]. intros [?|Hin]; [done|].
      by apply elem_of_nil in Hin.
    - rewrite addTriples_cons. cbn [fst snd].
      rewrite IH; [|intros ??; apply Hp; by right|by apply data_inv_addTriple].
      rewrite (stored_addTriple _ _ _ _ Hinv), elem_of_cons
        by (apply Hp; by left).
      tauto. }
  split; [done|]. intros Hpt.
  by rewrite (has_stored _ _ _ (data_inv_addTriples ts st n Hinv) Hpt),
             (has_stored _ _ _ Hinv Hpt).
Qed.

(** X2: [addTriples] does not stop at a duplicate.  Whatever it answers,
    nothing stored is lost and nothing but triples of the batch is
    added; for a batch of triples of primitive terms the store holds
    afterwards what it held before and every triple of the batch, and
    [has] says so of every triple of primitive terms. *)
Theorem addTriples_stored ts st n t :
  reachable st n →
  (stored (addTriples ts st n).1.2 t → stored st t ∨ t ∈ ts)
  ∧ (stored st t → stored (addTriples ts st n).1.2 t)
  ∧ ((∀ t', t' ∈ ts → primitive_triple t' = true) →
     (stored (addTriples ts st n).1.2 t ↔ stored st t ∨ t ∈ ts)
     ∧ (primitive_triple t = true →
        (has (addTriples ts st n).1.2 t = true ↔ has st t = true ∨ t ∈ ts))).
Proof.
  intros Hr%reachable_data_inv.
  destruct (stored_addTriples_inv ts st n t Hr) as [H1 H2].
  split; [done|]. split; [done|]. by apply addTriples_stored_inv.
Qed.

Lemma stored_set_addTriples ts st n :
  data_inv st n →
  (∀ t, t ∈ ts → primitive_triple t = true) →
  stored_set (addTriples ts st n).1.2 = stored_set st ∪ list_to_set ts.
Proof.
  intros Hinv Hp. apply set_eq. intros t.
  rewrite elem_of_union, elem_of_list_to_set, !elem_of_stored_set.
  by apply addTriples_stored_inv.
Qed.

Lemma addTriples_growth ts st n :
  data_inv st n →
  n ≤ (addTriples ts st n).2
  ∧ size (allIDs (addTriples ts st n).1.2) + n
    = size (allIDs st) + (addTriples ts st n).2
  ∧ length (pushes (addTriples ts st n).1.2) + 4 * n
    = length (pushes st) + 4 * (addTriples ts st n).2.
Proof.
  revert st n. induction ts as [|t ts IH]; intros st n Hinv.
  - simpl. lia.
  - rewrite addTriples_cons. cbn [fst snd].
    destruct (IH _ _ (data_inv_addTriple t st n Hinv)) as (H1 & H2 & H3).
    rewrite allIDs_addTriple, counter_addTriple, pushes_length_addTriple in *.
    pose proof (fresh_id _ _ Hinv) as Hf.
    destruct (has st t).
    + lia.
    + rewrite size_union, size_singleton in H2 by set_solver. lia.
Qed.

Lemma addTriples_counter_aux ts st n :
  reachable st n →
  (∀ t, t ∈ ts → primitive_triple t = true) →
  let r := addTriples ts st n in
  r.2 = n + size (list_to_set ts ∖ stored_set st)
  ∧ size (allIDs r.1.2) = size (allIDs st) + size (list_to_set ts ∖ stored_set st)
  ∧ length (pushes r.1.2)
    = length (pushes st) + 4 * size (list_to_set ts ∖ stored_set st).
Proof.
  intros Hr Hp. cbv zeta.
  pose proof (reachable_data_inv _ _ Hr) as Hinv.
  destruct (addTriples_growth ts st n Hinv) as (H1 & H2 & H3).
  pose proof (size_stored_set _ _ Hr) as Hs.
  pose proof (size_stored_set _ _ (reachable_addTriples ts st n Hr)) as Hs'.
  rewrite (stored_set_addTriples _ _ _ Hinv Hp), size_union_alt in Hs'.
  lia.
Qed.

(** X3: Every triple that [addTriples] really inserts takes one identifier
    and causes four pushes, and nothing else does: the counter, the
    size of the global id set and a quarter of the length of the log of
    pushes advance together; for a batch of triples of primitive terms
    they advance by the number of distinct triples of the batch that
    were not stored before. *)
Theorem addTriples_counter ts st n :
  reachable st n →
  let r := addTriples ts st n in
  (n ≤ r.2
   ∧ size (allIDs r.1.2) + n = size (allIDs st) + r.2
   ∧ length (pushes r.1.2) + 4 * n = length (pushes st) + 4 * r.2)
  ∧ ((∀ t, t ∈ ts → primitive_triple t = true) →
     r.2 = n + size (list_to_set ts ∖ stored_set st)
     ∧ size (allIDs r.1.2)
       = size (allIDs st) + size (list_to_set ts ∖ stored_set st)
     ∧ length (pushes r.1.2)
       = length (pushes st) + 4 * size (list_to_set ts ∖ stored_set st)).
Proof.
  intros Hr. cbv zeta. split.
  - by apply addTriples_growth, reachable_data_inv.
  - intros Hp. by apply addTriples_counter_aux.
Qed.
End batch_insertion.

Section store_invariants.
Implicit Types (st : TripleStore) (t : Triple) (n id : nat) (f : Field) (k : Value).

Lemma plain_unique_equiv st id id' t' :
  plain st → unique_triples st →
  equiv (triples st !! id) t' = true → triples st !! id' = Some t' → id = id'.
Proof.
  intros Hpl Hu He Hid'.
  apply (equiv_true _ _ (Hpl _ _ Hid')) in He. by eapply Hu.
Qed.

(** X4: In every store a program can build no triple sits in two slots
    of the table (a triple being its three terms: equal primitives, the
    same objects), so there are exactly as many identifiers as distinct
    stored triples; in a store of facts of primitive terms no two slots
    hold structurally-equal triples either: the store is a set of facts
    by content. *)
Theorem store_is_a_set st n :
  reachable st n →
  unique_triples st
  ∧ size (allIDs st) = size (stored_set st)
  ∧ size (triples st) = size (stored_set st)
  ∧ (plain st →
     ∀ id id' t', equiv (triples st !! id) t' = true →
                  triples st !! id' = Some t' → id = id').
Proof.
  intros Hr. split; [by eapply reachable_unique|].
  rewrite (size_stored_set _ _ Hr). split; [done|]. split.
  - by rewrite (inv_all _ _ (reachable_data_inv _ _ Hr)), size_dom.
  - intros Hpl id id' t'. apply plain_unique_equiv; [done|].
    by eapply reachable_unique.
Qed.

(** X5: The field indices describe the table exactly: under every key of a
    field index there is a non-empty set holding precisely the ids of
    the triples with that value in that field; a value is a key iff some
    stored triple has it in that field; and the global id set is the
    set of occupied slots. *)
Theorem index_invariant st n f k :
  reachable st n →
  (∀ ids, index_of st f !! k = Some ids →
     ids ≠ ∅
     ∧ ∀ id, id ∈ ids ↔ ∃ t, triples st !! id = Some t ∧ field f t = k)
  ∧ (is_Some (index_of st f !! k) ↔ ∃ t, stored st t ∧ field f t = k)
  ∧ (∀ id, id ∈ allIDs st ↔ is_Some (triples st !! id)).
Proof.
  intros Hinv%reachable_data_inv. split; [|split].
  - intros ids Hids. split; [by eapply inv_nonempty|].
    intros id. split; [by eapply inv_sound|].
    intros (t & Ht & <-).
    destruct (inv_complete _ _ Hinv f _ _ Ht) as (ids' & Hids' & Hin).
    congruence.
  - split.
    + intros [ids Hids].
      pose proof (inv_nonempty _ _ Hinv _ _ _ Hids) as [id Hid]%set_choose_L.
      destruct (inv_sound _ _ Hinv _ _ _ _ Hids Hid) as (t & Ht & Hf).
      exists t. split; [by exists id|done].
    + intros (t & [id Hid] & <-).
      destruct (inv_complete _ _ Hinv f _ _ Hid) as (ids & Hids & _).
      by eexists.
  - intros id. by rewrite (inv_all _ _ Hinv), elem_of_dom.
Qed.

(** X6: Each field index partitions the ids of the store: every id of the
    global set is listed under some key of the field, and under one key
    only, the value of its triple in that field. *)
Theorem index_partitions_ids st n f :
  reachable st n →
  (∀ id, id ∈ allIDs st ↔ ∃ k ids, index_of st f !! k = Some ids ∧ id ∈ ids)
  ∧ (∀ k k' ids ids' id,
       index_of st f !! k = Some ids → index_of st f !! k' = Some ids' →
       id ∈ ids → id ∈ ids' → k = k').
Proof.
  intros Hinv%reachable_data_inv. split.
  - intros id. rewrite (inv_all _ _ Hinv), elem_of_dom. split.
    + intros [t Ht].
      destruct (inv_complete _ _ Hinv f _ _ Ht) as (ids & Hids & Hin).
      by exists (field f t), ids.
    + intros (k & ids & Hids & Hin).
      destruct (inv_sound _ _ Hinv _ _ _ _ Hids Hin) as (t & Ht & _).
      by exists t.
  - intros k k' ids ids' id Hk Hk' Hin Hin'.
    destruct (inv_sound _ _ Hinv _ _ _ _ Hk Hin) as (t & Ht & <-).
    destruct (inv_sound _ _ Hinv _ _ _ _ Hk' Hin') as (t' & Ht' & <-).
    congruence.
Qed.

(** X7: [findInIndices], called as [has] and [addTriple] call it,
    returns only the identifier of a stored triple structurally equal to
    the given one, and returns [-1] only if the given triple itself is
    not stored; for a triple of primitive terms it returns the
    identifier of the stored triple equal to it, and [-1] exactly when
    there is none. *)
Theorem findInIndices_returns_id st n t :
  reachable st n →
  let r := findInIndices st (indexS st !! field FS t) (indexP st !! field FP t)
             (indexO st !! field FO t) t in
  (∀ id, r = Some id → equiv (triples st !! id) t = true)
  ∧ (r = None → ¬ stored st t)
  ∧ (primitive_triple t = true →
     (∀ id, r = Some id ↔ triples st !! id = Some t)
     ∧ (r = None ↔ ¬ stored st t)).
Proof.
  intros Hr. cbv zeta.
  pose proof (reachable_data_inv _ _ Hr) as Hinv.
  pose proof (reachable_unique _ _ Hr) as Hu.
  split; [intros id; apply findInIndices_Some|]. split.
  - intros Hn Hst. apply (stored_has _ _ _ Hinv), has_true in Hst.
    rewrite Hn in Hst. by destruct Hst.
  - intros Hp.
    pose proof (has_stored st n t Hinv Hp) as Hs. rewrite has_true in Hs.
    split.
    + intros id. split.
      * intros H%findInIndices_Some. by apply (equiv_true _ _ Hp).
      * intros Hid. destruct (proj2 Hs (ex_intro _ id Hid)) as [id' Hid'].
        rewrite Hid'. f_equal.
        apply findInIndices_Some, (equiv_true _ _ Hp) in Hid'. by eapply Hu.
    + rewrite <- Hs. destruct (findInIndices _ _ _ _ _); split; try done;
        first [by intros _ [] | intros H; destruct H; by eexists].
Qed.
End store_invariants.

Section store_growth.
Implicit Types (st : TripleStore) (t : Triple) (n id : nat) (f : Field) (k : Value).

Lemma extends_refl st : extends st st.
Proof.
  split; [done|]. split; [|done]. intros f k ids H. by exists ids.
Qed.

Lemma extends_trans st1 st2 st3 :
  extends st1 st2 → extends st2 st3 → extends st1 st3.
Proof.
  intros (H1 & H2 & H3 & H4 & H5) (G1 & G2 & G3 & G4 & G5).
  split; [by etrans|]. split; [|split; [by etrans|split; [by etrans|lia]]].
  intros f k ids Hids. destruct (H2 _ _ _ Hids) as (ids' & Hids' & Hsub).
  destruct (G2 _ _ _ Hids') as (ids'' & Hids'' & Hsub').
  exists ids''. split; [done|]. by etrans.
Qed.

Lemma extends_addTriple st n t :
  data_inv st n → extends st (addTriple t st n).1.2.
Proof.
  intros Hinv. rewrite addTriple_unfold.
  destruct (has st t); cbn [fst snd]; [apply extends_refl|].
  split; [|split; [|split; [|split]]].
  - simpl. apply insert_subseteq. by apply fresh_slot.
  - intros f k ids Hids.
    rewrite (same_data_index _ _ _ (same_data_emissions t (inserted t st n))).
    rewrite index_of_inserted, lookup_insert.
    case_decide as Hk; [|by exists ids].
    eexists. split; [done|]. subst k. rewrite Hids. simpl. set_solver.
  - simpl. set_solver.
  - unfold emissions, next_field, next_all. simpl.
    rewrite <- !app_assoc. by apply prefix_app_r.
  - rewrite queries_emissions_delivered, length_fmap. done.
Qed.

Lemma extends_addPatternQuery qid pat emit st :
  extends st (addPatternQuery qid pat emit st).2.
Proof.
  pose proof (same_data_addPatternQuery qid pat emit st) as Hsd.
  assert (Ht : triples (addPatternQuery qid pat emit st).2 = triples st) by apply Hsd.
  assert (Ha : allIDs (addPatternQuery qid pat emit st).2 = allIDs st) by apply Hsd.
  split; [by rewrite Ht|]. split; [|split; [by rewrite Ha|]].
  - intros f k ids Hids. exists ids.
    by rewrite (same_data_index _ _ _ Hsd).
  - destruct (decide (constrained pat)) as [Hc|Hc].
    + rewrite pushes_addPatternQuery by done. split; [by apply prefix_app_r|].
      destruct (addPatternQuery_node qid pat emit st Hc) as (q & Hq & _).
      apply lookup_lt_Some in Hq. lia.
    + by rewrite addPatternQuery_wildcard.
Qed.

(** X8: Nothing is ever taken back: along any sequence of operations the
    counter does not decrease, every slot keeps its triple, every index
    set and the global id set only gain ids, the log of pushes is only
    appended to, no sync node disappears, a stored triple stays stored
    and reported by [has], and a triple of primitive terms that [has]
    reported stays reported. *)
Theorem store_only_grows st n st' n' :
  reachable st n → steps st n st' n' →
  n ≤ n'
  ∧ extends st st'
  ∧ (∀ id t, triples st !! id = Some t → triples st' !! id = Some t)
  ∧ (∀ t, stored st t → stored st' t ∧ has st' t = true)
  ∧ (∀ t, primitive_triple t = true → has st t = true → has st' t = true).
Proof.
  intros Hr Hsteps.
  assert (Hmain : n ≤ n' ∧ extends st st').
  { induction Hsteps as [|st1 n1 Hs IH|st1 n1 t Hs IH|st1 n1 qid pat emit Hs IH].
    - split; [done|apply extends_refl].
    - destruct IH. split; [lia|done].
    - destruct IH as [Hn He].
      pose proof (reachable_data_inv _ _ (steps_reachable _ _ _ _ Hr Hs)) as Hinv.
      split.
      + rewrite counter_addTriple. destruct (has st1 t); lia.
      + eapply extends_trans; [done|by apply extends_addTriple].
    - destruct IH as [Hn He]. split; [done|].
      eapply extends_trans; [done|apply extends_addPatternQuery]. }
  destruct Hmain as [Hn He]. split; [done|]. split; [done|].
  assert (Hsl : ∀ id t, triples st !! id = Some t → triples st' !! id = Some t).
  { intros id t Hid. destruct He as (Hsub & _).
    by eapply lookup_weaken. }
  split; [done|].
  pose proof (reachable_data_inv _ _ Hr) as Hinv.
  pose proof (reachable_data_inv _ _ (steps_reachable _ _ _ _ Hr Hsteps))
    as Hinv'.
  assert (Hst : ∀ t, stored st t → stored st' t).
  { intros t [id Hid]. exists id. by apply Hsl. }
  split.
  - intros t Ht. split; [by apply Hst|]. by eapply stored_has, Hst.
  - intros t Hp.
    rewrite (has_stored _ _ _ Hinv Hp), (has_stored _ _ _ Hinv' Hp).
    apply Hst.
Qed.

(** X9: Subscribing a query never touches the facts: the table, the three
    indices, the global id set and the answers of [has] are the same
    after [addPatternQuery] and after [addParamQuery], whatever the
    pattern and whether or not [addParamQuery] throws. *)
Theorem queries_leave_facts st qid pat emit t :
  same_data st (addPatternQuery qid pat emit st).2
  ∧ same_data st (addParamQuery qid pat st).2
  ∧ has (addPatternQuery qid pat emit st).2 t = has st t
  ∧ has (addParamQuery qid pat st).2 t = has st t.
Proof.
  assert (Hp : same_data st (addParamQuery qid pat st).2).
  { unfold addParamQuery. destruct (qvarResolver _ _ _ _ _ _);
      [apply same_data_addPatternQuery|apply same_data_refl]. }
  assert (Hhas : ∀ st', same_data st st' → has st' t = has st t).
  { intros st' (Ht & HS & HP & HO & _).
    unfold has, findInIndices. by rewrite Ht, HS, HP, HO. }
  split; [apply same_data_addPatternQuery|]. split; [done|].
  split; apply Hhas; [apply same_data_addPatternQuery|done].
Qed.
End store_growth.

(** ** Selections and sync nodes *)

Section selection_cache.
Implicit Types (st : TripleStore) (t : Triple) (n : nat) (f : Field) (k : Value)
               (pat : Pattern).

Lemma dom_touch_selection f (e : Edit) (m : gmap (Field * Value) (option SetRef)) :
  dom (touch_selection f e m) = dom m.
Proof.
  apply set_eq. intros fk. unfold touch_selection.
  rewrite !elem_of_dom, map_lookup_imap.
  destruct (m !! fk) as [v|]; cbn [option_bind mbind]; [|done].
  destruct (decide (fk.1 = f)); [destruct (equiv_term _ _)|];
    split; intros _; by eexists.
Qed.

Lemma dom_selections_addTriple t st n :
  dom (indexSelections (addTriple t st n).1.2) = dom (indexSelections st).
Proof.
  rewrite addTriple_unfold. destruct (has st t); [done|].
  cbn [fst snd]. unfold emissions, next_field, next_all. simpl.
  by rewrite !dom_touch_selection.
Qed.

Lemma dom_getIndexSelection f pat st :
  dom (indexSelections (getIndexSelection f (pfield f pat) st))
  = dom (indexSelections st) ∪ key_of f pat.
Proof.
  unfold getIndexSelection, key_of.
  destruct (pfield f pat) as [k|]; [|set_solver].
  destruct (indexSelections st !! (f, k)) eqn:E.
  - assert ((f, k) ∈ dom (indexSelections st)) by (apply elem_of_dom; by eexists).
    set_solver.
  - simpl. rewrite dom_insert_L. set_solver.
Qed.

Lemma dom_submit f pat st :
  dom (indexSelections st) ⊆ dom (indexSelections (submit f (pfield f pat) st))
  ∧ dom (indexSelections (submit f (pfield f pat) st))
    ⊆ dom (indexSelections st) ∪ key_of f pat.
Proof.
  unfold submit, key_of. destruct (pfield f pat) as [k|]; [|set_solver].
  destruct (index_of st f !! k); [|set_solver].
  unfold next_sel. simpl. rewrite equiv_term_refl. simpl.
  rewrite dom_insert_L. set_solver.
Qed.

Lemma dom_selections_addPatternQuery qid pat emit st :
  dom (indexSelections (addPatternQuery qid pat emit st).2)
  = dom (indexSelections st) ∪ concrete_keys pat.
Proof.
  destruct (decide (constrained pat)) as [Hc|Hc].
  + rewrite addPatternQuery_unfold by done. cbn [snd].
    set (st4 := set_queries _ _).
    assert (H4 : dom (indexSelections st4)
                 = dom (indexSelections st) ∪ concrete_keys pat).
    { unfold st4, selected, concrete_keys. cbn [indexSelections set_queries].
      rewrite !dom_getIndexSelection. set_solver. }
    destruct (dom_submit FS pat st4) as [A1 A2].
    destruct (dom_submit FP pat (submit FS (pfield FS pat) st4)) as [B1 B2].
    destruct (dom_submit FO pat (submit FP (pfield FP pat)
                (submit FS (pfield FS pat) st4))) as [C1 C2].
    unfold concrete_keys in *. set_solver.
  + rewrite addPatternQuery_wildcard by done. cbn [snd].
    assert (concrete_keys pat = ∅) as ->; [|set_solver].
    unfold constrained, concrete_keys, key_of in *.
    destruct (pfield FS pat), (pfield FP pat), (pfield FO pat);
      simpl in Hc; try done; set_solver.
Qed.

(** X10: [getIndexSelection] builds a narrow-cast once: a second request for
    the same field and key changes nothing, a request for a key that
    has one keeps it with its current value, and a wildcard creates
    none.  So [addPatternQuery] leaves the store with a narrow-cast for
    exactly the old keys and the concrete fields of its pattern, and
    [addTriple] neither creates nor drops one. *)
Theorem selections_built_once qid pat emit t st n f (ok : option Value) :
  getIndexSelection f ok (getIndexSelection f ok st) = getIndexSelection f ok st
  ∧ (∀ k v, indexSelections st !! (f, k) = Some v →
            getIndexSelection f (Some k) st = st)
  ∧ getIndexSelection f None st = st
  ∧ dom (indexSelections (addPatternQuery qid pat emit st).2)
    = dom (indexSelections st) ∪ concrete_keys pat
  ∧ dom (indexSelections (addTriple t st n).1.2) = dom (indexSelections st).
Proof.
  split; [|split; [|split; [done|split]]].
  - unfold getIndexSelection. destruct ok as [k|]; [|done].
    destruct (indexSelections st !! (f, k)) eqn:E; [by rewrite E|].
    simpl. by rewrite lookup_insert_eq.
  - intros k v Hv. unfold getIndexSelection. by rewrite Hv.
  - apply dom_selections_addPatternQuery.
  - apply dom_selections_addTriple.
Qed.
End selection_cache.

Section sync_nodes.
Implicit Types (st : TripleStore) (t : Triple) (n : nat) (f : Field) (k : Value)
               (pat : Pattern) (q : Sync).

Lemma q_id_touch D b f q : q_id (touch D b f q) = q_id q.
Proof. destruct b; [apply q_id_sync_next|done]. Qed.

Lemma q_id_run D (bs : list (bool * Field)) q : q_id (run D bs q) = q_id q.
Proof.
  revert q. induction bs as [|[b f] bs IH]; intros q; simpl; [done|].
  by rewrite IH, q_id_touch.
Qed.

Lemma fmap_run_pattern D (bs : Sync → list (bool * Field)) (l : list Sync) :
  q_pattern <$> ((λ q, run D (bs q) q) <$> l) = q_pattern <$> l.
Proof.
  rewrite <- list_fmap_compose. apply list_fmap_ext. intros _ q _. simpl.
  apply q_pattern_run.
Qed.

Lemma fmap_run_id D (bs : Sync → list (bool * Field)) (l : list Sync) :
  q_id <$> ((λ q, run D (bs q) q) <$> l) = q_id <$> l.
Proof.
  rewrite <- list_fmap_compose. apply list_fmap_ext. intros _ q _. simpl.
  apply q_id_run.
Qed.

(** X11: Sync nodes are created by [addPatternQuery] only, one per call with
    a pattern that has a concrete field and none for the all-wildcard
    pattern; a node keeps its place, id and pattern for good.  The
    returned subscription is the new node, or the ALL stream itself for
    the all-wildcard pattern (which then leaves the store untouched). *)
Theorem sync_nodes_created_once qid pat emit t st n :
  q_pattern <$> queries (addTriple t st n).1.2 = q_pattern <$> queries st
  ∧ q_id <$> queries (addTriple t st n).1.2 = q_id <$> queries st
  ∧ (if decide (constrained pat) then
       q_pattern <$> queries (addPatternQuery qid pat emit st).2
         = (q_pattern <$> queries st) ++ [pat]
       ∧ q_id <$> queries (addPatternQuery qid pat emit st).2
         = (q_id <$> queries st) ++ [qid]
       ∧ (addPatternQuery qid pat emit st).1
         = mkSub (ResSync (length (queries st))) emit
     else
       addPatternQuery qid pat emit st = (mkSub ResAll emit, st)).
Proof.
  split; [|split].
  - rewrite addTriple_unfold. destruct (has st t); [done|]. cbn [fst snd].
    rewrite queries_emissions_delivered, <- list_fmap_compose.
    apply list_fmap_ext. intros _ q _. apply q_pattern_delivered.
  - rewrite addTriple_unfold. destruct (has st t); [done|]. cbn [fst snd].
    rewrite queries_emissions_delivered, <- list_fmap_compose.
    apply list_fmap_ext. intros _ q _. apply q_id_delivered.
  - destruct (decide (constrained pat)) as [Hc|Hc];
      [|by apply addPatternQuery_wildcard].
    rewrite addPatternQuery_unfold by done. cbn [fst snd].
    rewrite queries_submits. set (st4 := set_queries _ _).
    change (queries st4) with
      (queries st ++ [wire (selected pat st) FO (wire (selected pat st) FP
         (wire (selected pat st) FS (mkSync qid pat (None, None, None) [])))]).
    rewrite fmap_run_pattern, fmap_run_id, !fmap_app. simpl.
    by rewrite !q_pattern_wire, !q_id_wire.
Qed.
End sync_nodes.

Section construction.
Implicit Types (st : TripleStore) (t : Triple) (ts : list Triple) (n : nat).

Lemma constructor_Some ts n :
  constructor (Some ts) n
  = ((addTriples ts empty_store n).1.2, (addTriples ts empty_store n).2).
Proof.
  unfold constructor. by destruct (addTriples ts empty_store n) as [[ok st] n'].
Qed.

Lemma queries_addTriples_nil ts st n :
  queries st = [] → queries (addTriples ts st n).1.2 = [].
Proof.
  revert st n. induction ts as [|t ts IH]; intros st n Hq; [done|].
  rewrite addTriples_cons. cbn [fst snd]. apply IH.
  rewrite addTriple_unfold. destruct (has st t); [done|]. cbn [fst snd].
  rewrite queries_emissions_delivered.
  change (queries (inserted t st n)) with (queries st). by rewrite Hq.
Qed.

Lemma dom_selections_addTriples ts st n :
  dom (indexSelections (addTriples ts st n).1.2) = dom (indexSelections st).
Proof.
  revert st n. induction ts as [|t ts IH]; intros st n; [done|].
  rewrite addTriples_cons. cbn [fst snd].
  by rewrite IH, dom_selections_addTriple.
Qed.

Lemma plain_addTriples ts st n :
  (∀ t, t ∈ ts → primitive_triple t = true) → plain st →
  plain (addTriples ts st n).1.2.
Proof.
  revert st n. induction ts as [|t ts IH]; intros st n Hp Hpl; [done|].
  rewrite addTriples_cons. cbn [fst snd]. apply IH.
  - intros t' Hin. apply Hp. by right.
  - apply plain_addTriple; [apply Hp; by left|done].
Qed.

(** X12: A store constructed from a collection of triples is a store a
    program can build, without selection or sync node, that holds
    triples of the collection only; if these are triples of primitive
    terms it holds exactly them, each once: [has] is true for them and
    for nothing else, and the static counter has advanced by the number
    of distinct triples given. *)
Theorem constructor_with_triples ts n :
  let r := constructor (Some ts) n in
  reachable r.1 r.2
  ∧ queries r.1 = []
  ∧ indexSelections r.1 = ∅
  ∧ (∀ t, stored r.1 t → t ∈ ts)
  ∧ ((∀ t, t ∈ ts → primitive_triple t = true) →
     (∀ t, has r.1 t = true ↔ t ∈ ts)
     ∧ stored_set r.1 = list_to_set ts
     ∧ r.2 = n + size (list_to_set ts : gset Triple)
     ∧ size (allIDs r.1) = size (list_to_set ts : gset Triple)).
Proof.
  cbv zeta. rewrite constructor_Some. cbn [fst snd].
  pose proof (reach_new n) as Hr.
  pose proof (data_inv_empty n) as Hinv.
  assert (He : stored_set empty_store = ∅).
  { unfold stored_set. simpl. apply map_img_empty_L. }
  split; [by apply reachable_addTriples|].
  split; [by apply queries_addTriples_nil|].
  split; [apply dom_empty_inv_L; by rewrite dom_selections_addTriples|].
  split.
  - intros t [[id Hid]|Hin]%(stored_addTriples_inv _ _ _ _ Hinv); [|done].
    simpl in Hid. by rewrite lookup_empty in Hid.
  - intros Hp.
    destruct (addTriples_counter_aux ts empty_store n Hr Hp) as (Hc & Hs & _).
    rewrite He, difference_empty_L in Hc, Hs.
    change (allIDs empty_store) with (∅ : gset nat) in Hs.
    rewrite size_empty in Hs.
    split; [|split; [|done]].
    + intros t.
      pose proof (data_inv_addTriples ts empty_store n Hinv) as Hinv'.
      destruct (addTriples_stored_inv ts empty_store n t Hinv Hp) as [Hst _].
      split.
      * intros Hh. apply has_equiv_stored in Hh as [id Hid].
        destruct (equiv_is_Some _ _ Hid) as [t' Ht'].
        assert (t' = t) as ->.
        { rewrite Ht' in Hid.
          apply (equiv_true_l _ _ (plain_addTriples ts empty_store n Hp
                                     plain_empty _ _ Ht')) in Hid.
          congruence. }
        destruct (proj1 Hst (ex_intro _ id Ht')) as [[id' Hid']|?]; [|done].
        simpl in Hid'. by rewrite lookup_empty in Hid'.
      * intros Hin. apply (stored_has _ _ _ Hinv'), Hst. by right.
    + rewrite (stored_set_addTriples _ _ _ Hinv Hp), He. set_solver.
Qed.
End construction.

Section shared_counter.
Implicit Types (a b : TripleStore) (n : nat).

Lemma reachable2_fst a b n : reachable2 a b n → reachable a n.
Proof.
  induction 1; try done.
  - by apply reach_elsewhere.
  - by apply reach_addTriple.
  - rewrite counter_addTriple. destruct (has b t); [done|by apply reach_elsewhere].
  - by apply reach_addPatternQuery.
Qed.

Lemma reachable2_snd a b n : reachable2 a b n → reachable b n.
Proof.
  induction 1; try done.
  - apply reach_new.
  - by apply reach_elsewhere.
  - rewrite counter_addTriple. destruct (has a t); [done|by apply reach_elsewhere].
  - by apply reach_addTriple.
  - by apply reach_addPatternQuery.
Qed.

(** X13: Identifiers are unique in the whole program: two stores never hold
    the same identifier, because both draw from the one static counter. *)
Theorem identifiers_unique_across_stores a b n :
  reachable2 a b n →
  allIDs a ## allIDs b
  ∧ (∀ id, id ∈ allIDs a ∪ allIDs b → id < n).
Proof.
  intros H. split.
  - induction H as [a n Hr|a b n H IH|a b n t H IH|a b n t H IH
                    |a b n qid pat emit H IH|a b n qid pat emit H IH].
    + simpl. set_solver.
    + done.
    + rewrite allIDs_addTriple. destruct (has a t); [done|].
      pose proof (fresh_id _ _ (reachable_data_inv _ _ (reachable2_snd _ _ _ H))).
      set_solver.
    + rewrite allIDs_addTriple. destruct (has b t); [done|].
      pose proof (fresh_id _ _ (reachable_data_inv _ _ (reachable2_fst _ _ _ H))).
      set_solver.
    + by destruct (same_data_addPatternQuery qid pat emit a) as (_&_&_&_&->).
    + by destruct (same_data_addPatternQuery qid pat emit b) as (_&_&_&_&->).
  - intros id [Hid|Hid]%elem_of_union.
    + pose proof (reachable_data_inv _ _ (reachable2_fst _ _ _ H)) as Hinv.
      rewrite (inv_all _ _ Hinv) in Hid. apply elem_of_dom in Hid as [t Ht].
      by eapply inv_fresh.
    + pose proof (reachable_data_inv _ _ (reachable2_snd _ _ _ H)) as Hinv.
      rewrite (inv_all _ _ Hinv) in Hid. apply elem_of_dom in Hid as [t Ht].
      by eapply inv_fresh.
Qed.
End shared_counter.

(** ** What pattern queries show *)

Section query_values.
Implicit Types (st D : TripleStore) (t : Triple) (n : nat) (f : Field) (k : Value)
               (pat : Pattern) (q : Sync).

Lemma query_value_is_current_aux st n q :
  reachable st n → plain st → q ∈ queries st →
  (q_out q = [] ↔
   ∃ g j, pfield g (q_pattern q) = Some j ∧ index_of st g !! j = None)
  ∧ (∀ ids, last (q_out q) = Some ids →
       ids = matching st (q_pattern q)
       ∧ ∀ id, id ∈ ids ↔
               ∃ t, triples st !! id = Some t ∧ matches (q_pattern q) t).
Proof.
  intros Hr Hpl Hq.
  pose proof (reachable_data_inv _ _ Hr) as Hd.
  pose proof (proj1 (Forall_forall _ _)
                (qi_sync _ (reachable_query_inv _ _ Hr Hpl)) _ Hq) as Hs.
  pose proof (si_out _ _ Hs) as Ho.
  pose proof (si_constrained _ _ Hs) as Hc.
  split.
  - rewrite <- (not_all_live _ _ _ Hd Hc).
    destruct (all_live st (q_pattern q)); split; try done.
    intros Hnil. by rewrite Hnil in Ho.
  - intros ids Hl. destruct (all_live st (q_pattern q)).
    + assert (ids = matching st (q_pattern q)) as -> by congruence.
      split; [done|]. intros id. by apply (matching_spec st n).
    + by rewrite Ho in Hl.
Qed.

(** X14: At any moment a sync node of a store of facts of primitive
    terms has either emitted nothing, which is the case exactly while
    some concrete field of its pattern has no index entry, or its last
    emission is the set of the ids of all stored triples that match its
    pattern. *)
Theorem query_value_is_current st n q :
  reachable st n → plain st → q ∈ queries st →
  (q_out q = [] ↔
   ∃ g j, pfield g (q_pattern q) = Some j ∧ index_of st g !! j = None)
  ∧ (∀ ids, last (q_out q) = Some ids →
       ids = matching st (q_pattern q)
       ∧ ∀ id, id ∈ ids ↔
               ∃ t, triples st !! id = Some t ∧ matches (q_pattern q) t).
Proof. exact (query_value_is_current_aux st n q). Qed.

Lemma deref_subseteq D n (r : SetRef) : data_inv D n → deref D r ⊆ allIDs D.
Proof.
  intros Hinv. destruct r as [|f k]; simpl; [done|].
  destruct (index_of D f !! k) as [ids|] eqn:E; simpl; [|set_solver].
  intros id Hid. destruct (inv_sound _ _ Hinv _ _ _ _ E Hid) as (t & Ht & _).
  rewrite (inv_all _ _ Hinv). apply elem_of_dom. by exists t.
Qed.

Lemma out_bounded_sync_next D n f (v : SetRef) q :
  data_inv D n → out_bounded D q → out_bounded D (sync_next D f v q).
Proof.
  intros Hinv Hb. unfold out_bounded. rewrite q_out_sync_next.
  destruct (set_latest f v (q_latest q)) as [[[a|] [b|]] [c|]]; try done.
  apply Forall_app. split; [done|]. apply Forall_singleton.
  pose proof (deref_subseteq D n c Hinv). set_solver.
Qed.

Lemma out_bounded_run D n (bs : list (bool * Field)) q :
  data_inv D n → out_bounded D q → out_bounded D (run D bs q).
Proof.
  intros Hinv. revert q. induction bs as [|[b f] bs IH]; intros q Hb; [done|].
  simpl. apply IH. destruct b; [by eapply out_bounded_sync_next|done].
Qed.

Lemma out_bounded_on_all D n f q :
  data_inv D n → out_bounded D q → out_bounded D (on_all D f q).
Proof.
  intros Hinv Hb. unfold on_all.
  destruct (pfield f (q_pattern q)); [done|by eapply out_bounded_sync_next].
Qed.

Lemma out_bounded_on_sel D n f (e : Edit) q :
  data_inv D n → out_bounded D q → out_bounded D (on_sel D f e q).
Proof.
  intros Hinv Hb. unfold on_sel.
  destruct (pfield f (q_pattern q)); [|done].
  destruct (equiv_term _ _); [by eapply out_bounded_sync_next|done].
Qed.

Lemma out_bounded_delivered t D n q :
  data_inv D n → out_bounded D q → out_bounded D (delivered t D q).
Proof.
  intros Hinv Hb. unfold delivered.
  do 3 (eapply out_bounded_on_sel; [done|]).
  by do 3 (eapply out_bounded_on_all; [done|]).
Qed.

Lemma out_bounded_wire D n f q :
  data_inv D n → out_bounded D q → out_bounded D (wire D f q).
Proof.
  intros Hinv Hb. unfold wire.
  destruct (source_current _ _ _); [by eapply out_bounded_sync_next|done].
Qed.

Lemma out_bounded_mono st st' q :
  allIDs st ⊆ allIDs st' → out_bounded st q → out_bounded st' q.
Proof.
  intros Hsub Hb. eapply Forall_impl; [exact Hb|]. intros ids ?. set_solver.
Qed.

Lemma reachable_out_bounded st n :
  reachable st n → Forall (out_bounded st) (queries st).
Proof.
  induction 1 as [n|st n _ IH|st n t Hr IH|st n qid pat emit Hr IH].
  - constructor.
  - done.
  - pose proof (reachable_data_inv _ _ Hr) as Hinv.
    rewrite addTriple_unfold. destruct (has st t); [done|]. cbn [fst snd].
    rewrite queries_emissions_delivered. apply Forall_fmap.
    eapply Forall_impl; [exact IH|]. intros q Hb. cbv beta.
    apply (out_bounded_mono (inserted t st n)); [done|].
    apply (out_bounded_delivered _ _ (S n)); [by apply data_inv_inserted|].
    apply (out_bounded_mono st); [simpl; set_solver|done].
  - pose proof (reachable_data_inv _ _ Hr) as Hinv.
    destruct (decide (constrained pat)) as [Hc|Hc];
      [|by rewrite addPatternQuery_wildcard].
    rewrite addPatternQuery_unfold by done. cbn [snd].
    rewrite queries_submits. set (st4 := set_queries _ _).
    assert (Hd3 : data_inv (selected pat st) n)
      by (eapply same_data_inv; [apply same_data_selected|done]).
    assert (Hd4 : data_inv st4 n)
      by (eapply same_data_inv; [|exact Hd3]; by repeat split).
    assert (Ha : ∀ q, out_bounded st4 q →
              out_bounded (submit FO (pfield FO pat) (submit FP (pfield FP pat)
                             (submit FS (pfield FS pat) st4))) q).
    { intros q. apply out_bounded_mono.
      assert (same_data st4 (submit FO (pfield FO pat) (submit FP (pfield FP pat)
                (submit FS (pfield FS pat) st4)))) as (_&_&_&_&->); [|done].
      eapply same_data_trans; [|apply same_data_submit].
      eapply same_data_trans; [|apply same_data_submit].
      apply same_data_submit. }
    apply Forall_fmap.
    change (queries st4) with
      (queries st ++ [wire (selected pat st) FO (wire (selected pat st) FP
         (wire (selected pat st) FS (mkSync qid pat (None, None, None) [])))]).
    apply Forall_app. split.
    + eapply Forall_impl; [exact IH|]. intros q Hb. cbv beta.
      apply Ha, (out_bounded_run _ n); [done|].
      apply (out_bounded_mono st); [|done].
      change (allIDs st4) with (allIDs (selected pat st)).
      by destruct (same_data_selected pat st) as (_&_&_&_&->).
    + apply Forall_singleton. cbv beta.
      apply Ha, (out_bounded_run _ n); [done|].
      apply (out_bounded_mono (selected pat st)); [done|].
      do 3 (apply (out_bounded_wire _ n); [done|]). constructor.
Qed.

Lemma length_omap_total {A B} (g : A → option B) (l : list A) :
  (∀ x, x ∈ l → is_Some (g x)) → length (omap g l) = length l.
Proof.
  induction l as [|x l IH]; intros H; [done|].
  destruct (H x) as [y Hy]; [left|].
  cbn [omap list_omap]. rewrite Hy. cbn [length]. f_equal.
  apply IH. intros z Hz. apply H. by right.
Qed.

Lemma NoDup_omap_inj {A B} (g : A → option B) (l : list A) :
  NoDup l →
  (∀ x y z, x ∈ l → y ∈ l → g x = Some z → g y = Some z → x = y) →
  NoDup (omap g l).
Proof.
  induction 1 as [|x l Hx Hnd IH]; intros Hinj; [constructor|].
  assert (Hrest : NoDup (omap g l)).
  { apply IH. intros a b z Ha Hb. apply Hinj; by right. }
  cbn [omap list_omap]. destruct (g x) as [z|] eqn:E; [|done].
  apply NoDup_cons. split; [|done].
  intros (y & Hy & Hgy)%list_elem_of_omap.
  assert (x = y) by (eapply Hinj; [left|by right|done|done]). by subst.
Qed.

(** X15: Whatever a pattern query has emitted consists of ids of the store,
    so [asTriples] finds a triple in every slot it reads: it yields one
    triple per id, no triple twice, and exactly the triples stored under
    the ids of the set. *)
Theorem emitted_ids_resolve st n q ids :
  reachable st n → q ∈ queries st → ids ∈ q_out q →
  ids ⊆ allIDs st
  ∧ length (asTriples st ids) = size ids
  ∧ NoDup (asTriples st ids)
  ∧ ∀ t, t ∈ asTriples st ids ↔ ∃ id, id ∈ ids ∧ triples st !! id = Some t.
Proof.
  intros Hr Hq Hids.
  pose proof (reachable_data_inv _ _ Hr) as Hinv.
  assert (Hsub : ids ⊆ allIDs st).
  { pose proof (proj1 (Forall_forall _ _) (reachable_out_bounded _ _ Hr) _ Hq) as Hb.
    by apply (proj1 (Forall_forall _ _) Hb). }
  split; [done|]. unfold asTriples. split; [|split].
  - rewrite length_omap_total; [done|].
    intros id Hid%elem_of_elements. apply Hsub in Hid.
    rewrite (inv_all _ _ Hinv) in Hid. by apply elem_of_dom.
  - apply NoDup_omap_inj; [apply NoDup_elements|].
    intros x y z _ _ Hx Hy. by eapply (reachable_unique _ _ Hr).
  - intros t. rewrite list_elem_of_omap. by setoid_rewrite elem_of_elements.
Qed.
End query_values.

Section incremental_update.
Implicit Types (st : TripleStore) (t : Triple) (n : nat) (q : Sync).

Lemma on_all_wild D f q :
  pfield f (q_pattern q) = None → on_all D f q = sync_next D f RAll q.
Proof. intros H. unfold on_all. by rewrite H. Qed.

Lemma on_all_concrete D f q k :
  pfield f (q_pattern q) = Some k → on_all D f q = q.
Proof. intros H. unfold on_all. by rewrite H. Qed.

Lemma on_sel_wild D f (e : Edit) q :
  pfield f (q_pattern q) = None → on_sel D f e q = q.
Proof. intros H. unfold on_sel. by rewrite H. Qed.

Lemma on_sel_own D f k q :
  pfield f (q_pattern q) = Some k →
  on_sel D f (mkEdit (RIdx f k) k) q = sync_next D f (RIdx f k) q.
Proof. intros H. unfold on_sel. rewrite H. simpl. by rewrite equiv_term_refl. Qed.

(** Whatever the terms: the emissions of a successful [addTriple(t)]
    leave a node whose pattern [t] matches with the current
    intersection as its last value. *)
Lemma delivered_matching_last t D q :
  matches (q_pattern q) t →
  last (q_out (delivered t D q)) = Some (matching D (q_pattern q)).
Proof.
  intros Hm. unfold delivered, matching, src_ref.
  assert (Hf : ∀ f, pfield f (q_pattern q) = None
                    ∨ pfield f (q_pattern q) = Some (field f t)).
  { intros f. destruct (pfield f (q_pattern q)) as [k|] eqn:E; [|by left].
    right. by rewrite (Hm _ _ E). }
  destruct (q_latest q) as [[a b] c] eqn:El.
  destruct (Hf FS) as [ES|ES], (Hf FP) as [EP|EP], (Hf FO) as [EO|EO];
    rewrite ES, EP, EO.
  all: first [rewrite (on_all_wild D FS) by done
             |rewrite (on_all_concrete D FS _ _ ES)].
  all: first [rewrite (on_all_wild D FP) by (by rewrite ?q_pattern_sync_next)
             |rewrite (on_all_concrete D FP _ (field FP t))
                by (by rewrite ?q_pattern_sync_next)].
  all: first [rewrite (on_all_wild D FO) by (by rewrite ?q_pattern_sync_next)
             |rewrite (on_all_concrete D FO _ (field FO t))
                by (by rewrite ?q_pattern_sync_next)].
  all: first [rewrite (on_sel_wild D FS) by (by rewrite ?q_pattern_sync_next)
             |rewrite (on_sel_own D FS) by (by rewrite ?q_pattern_sync_next)].
  all: first [rewrite (on_sel_wild D FP) by (by rewrite ?q_pattern_sync_next)
             |rewrite (on_sel_own D FP) by (by rewrite ?q_pattern_sync_next)].
  all: first [rewrite (on_sel_wild D FO) by (by rewrite ?q_pattern_sync_next)
             |rewrite (on_sel_own D FO) by (by rewrite ?q_pattern_sync_next)].
  all: eapply last_sync_next_complete;
       rewrite ?q_latest_sync_next, El; reflexivity.
Qed.
(** X16: Insertion keeps the queries up to date: after a successful
    [addTriple(t)] every sync node whose pattern [t] matches has as its
    last emission a set that contains the new id, namely the ids of the
    triples that matched before together with the new one; in a store
    of facts of primitive terms the last emission of a node whose
    pattern [t] does not match does not contain the new id. *)
Theorem insertion_updates_queries st n t st' n' q :
  reachable st n → addTriple t st n = (true, st', n') → q ∈ queries st' →
  (matches (q_pattern q) t →
   ∃ ids, last (q_out q) = Some ids ∧ n ∈ ids
          ∧ ∀ id, id ∈ ids ↔
                  id = n ∨ ∃ t0, triples st !! id = Some t0
                                 ∧ matches (q_pattern q) t0)
  ∧ (plain st' → ¬ matches (q_pattern q) t →
     ∀ ids, last (q_out q) = Some ids → n ∉ ids).
Proof.
  intros Hr Hadd Hq.
  pose proof (reach_addTriple st n t Hr) as Hr'. rewrite Hadd in Hr'.
  cbn [fst snd] in Hr'.
  pose proof (reachable_data_inv _ _ Hr) as Hd.
  pose proof (reachable_data_inv _ _ Hr') as Hd'.
  assert (Hst' : st' = emissions t (inserted t st n)).
  { revert Hadd. rewrite addTriple_unfold. destruct (has st t); [done|].
    by intros [= <- <-]. }
  assert (Htr : triples st' = <[n := t]> (triples st)) by (by rewrite Hst').
  split.
  - intros Hm.
    assert (Ho : last (q_out q) = Some (matching st' (q_pattern q))).
    { revert Hq. rewrite Hst', queries_emissions_delivered.
      intros (q0 & -> & _)%list_elem_of_fmap.
      rewrite q_pattern_delivered in Hm |- *.
      by rewrite (delivered_matching_last _ _ _ Hm). }
    exists (matching st' (q_pattern q)). split; [done|].
    assert (Hin : ∀ id, id ∈ matching st' (q_pattern q) ↔
              ∃ t0, triples st' !! id = Some t0 ∧ matches (q_pattern q) t0)
      by (intros id; by apply (matching_spec st' n')).
    split.
    + apply Hin. exists t. by rewrite Htr, lookup_insert_eq.
    + intros id. rewrite Hin, Htr. split.
      * intros (t0 & Ht0 & Hm0). rewrite lookup_insert in Ht0.
        case_decide; [by left|right; by exists t0].
      * intros [->|(t0 & Ht0 & Hm0)].
        -- exists t. by rewrite lookup_insert_eq.
        -- exists t0. split; [|done]. rewrite lookup_insert_ne; [done|].
           pose proof (inv_fresh _ _ Hd _ _ Ht0). lia.
  - intros Hpl Hm ids Hl Hin.
    destruct (query_value_is_current_aux st' n' q Hr' Hpl Hq) as [_ Hval].
    destruct (Hval _ Hl) as [_ Hmem].
    apply Hmem in Hin as (t0 & Ht0 & Hm0).
    rewrite Htr, lookup_insert_eq in Ht0. congruence.
Qed.
End incremental_update.

(** ** Parametric queries and joins, continued *)

Section param_query_raw.
Implicit Types (st : TripleStore) (pat : Pattern) (f : Field).

Lemma replay_unconstrained st pat : ¬ constrained pat → replay st pat = [].
Proof.
  unfold constrained, replay, replay_of.
  destruct (pfield FS pat), (pfield FP pat), (pfield FO pat); simpl; done.
Qed.

Lemma addParamQuery_store qid pat st :
  isQVar (pfield FS pat) || isQVar (pfield FP pat) || isQVar (pfield FO pat) = true →
  (addParamQuery qid pat st).2
  = (addPatternQuery (qid +:+ "-raw") (raw_pattern pat) true st).2.
Proof.
  intros Hv. unfold addParamQuery, qvarResolver. by rewrite Hv.
Qed.

(** X17: A query variable is never used as a key.  With at least one
    variable in the pattern, [addParamQuery] subscribes the pattern in
    which every variable is replaced by the wildcard and every other
    field is kept: no narrow-cast is built and nothing is re-pushed for
    a variable field, and a pattern of three variables leaves the store
    as it is. *)
Theorem param_query_variables_are_wildcards qid pat st :
  isQVar (pfield FS pat) || isQVar (pfield FP pat) || isQVar (pfield FO pat) = true →
  let st' := (addParamQuery qid pat st).2 in
  (∀ f, pfield f (raw_pattern pat)
        = if isQVar (pfield f pat) then None else pfield f pat)
  ∧ pushes st' = pushes st ++ replay st (raw_pattern pat)
  ∧ dom (indexSelections st')
    = dom (indexSelections st) ∪ concrete_keys (raw_pattern pat)
  ∧ (∀ f, isQVar (pfield f pat) = true →
          key_of f (raw_pattern pat) = ∅ ∧ replay_of st f (raw_pattern pat) = [])
  ∧ (isQVar (pfield FS pat) && isQVar (pfield FP pat) && isQVar (pfield FO pat)
     = true → st' = st).
Proof.
  intros Hv. cbv zeta. rewrite (addParamQuery_store _ _ _ Hv).
  assert (Hraw : ∀ f, pfield f (raw_pattern pat)
                 = if isQVar (pfield f pat) then None else pfield f pat)
    by (by intros []).
  split; [done|]. split; [|split; [|split]].
  - destruct (decide (constrained (raw_pattern pat))) as [Hc|Hc].
    + by apply pushes_addPatternQuery.
    + rewrite addPatternQuery_wildcard, replay_unconstrained by done.
      by rewrite app_nil_r.
  - apply dom_selections_addPatternQuery.
  - intros f Hf. unfold key_of, replay_of. by rewrite Hraw, Hf.
  - intros [[HS HP]%andb_true_iff HO]%andb_true_iff.
    rewrite addPatternQuery_wildcard; [done|].
    unfold constrained. by rewrite !Hraw, HS, HP, HO.
Qed.
End param_query_raw.

Section join_runs.
Implicit Types (j : JoinSync) (us : list (Side * Solutions)).

Lemma join_next_out_nonempty side (v : Solutions) j :
  Forall (λ x : Solutions, x ≠ []) (j_out j) →
  Forall (λ x : Solutions, x ≠ []) (j_out (join_next side v j)).
Proof.
  intros H. unfold join_next, join_xform.
  destruct side, (j_a j), (j_b j); simpl; try done;
    destruct (join _ _) eqn:E; simpl; try done;
    (apply Forall_app; split; [done|]; by apply Forall_singleton).
Qed.

Lemma join_run_one_side side us j :
  (∀ u, u ∈ us → u.1 = side) →
  match side with SideA => j_b j | SideB => j_a j end = None →
  j_out (join_run j us) = j_out j
  ∧ match side with
    | SideA => j_b (join_run j us)
    | SideB => j_a (join_run j us)
    end = None.
Proof.
  revert j. induction us as [|[s v] us IH]; intros j Hall Hn; [done|].
  assert (s = side) as -> by (apply (Hall (s, v)); left).
  simpl. destruct (IH (join_next side v j)) as [Ho Hl].
  - intros u Hu. apply Hall. by right.
  - unfold join_next. destruct side; rewrite Hn; simpl; [done|].
    by destruct (j_a j).
  - unfold join_run in *. rewrite Ho, Hl. split; [|done].
    unfold join_next. destruct side; rewrite Hn; simpl; [done|].
    by destruct (j_a j).
Qed.

(** X18: Over any sequence of deliveries from its two inputs a join node
    never emits an empty set, and it emits nothing at all as long as
    only one of its inputs has delivered. *)
Theorem join_never_emits_empty id us :
  Forall (λ x : Solutions, x ≠ []) (j_out (join_run (addQueryJoin id) us))
  ∧ (∀ side, (∀ u, u ∈ us → u.1 = side) →
             j_out (join_run (addQueryJoin id) us) = []).
Proof.
  split.
  - assert (Hgen : ∀ j, Forall (λ x : Solutions, x ≠ []) (j_out j) →
                   Forall (λ x : Solutions, x ≠ []) (j_out (join_run j us))).
    { induction us as [|[s v] us IH]; intros j Hj; [done|].
      simpl. apply IH. by apply join_next_out_nonempty. }
    apply Hgen. constructor.
  - intros side Hall.
    destruct (join_run_one_side side us (addQueryJoin id) Hall) as [-> _]; [|done].
    by destruct side.
Qed.
End join_runs.

Section push_log.
Implicit Types (st : TripleStore) (t : Triple) (n : nat) (f : Field) (p : Push).

Lemma push_ok_extends st st' p : extends st st' → push_ok st p → push_ok st' p.
Proof.
  intros (_ & Hidx & _) Hp.
  assert (He : ∀ f e, edit_ok st f e → edit_ok st' f e).
  { intros f e [H1 [ids Hids]]. split; [done|].
    destruct (Hidx _ _ _ Hids) as (ids' & -> & _). by eexists. }
  destruct p as [r|f e|f k e]; simpl in *; [done|by apply He|].
  destruct Hp. split; [done|by apply He].
Qed.

Lemma replay_of_ok st f pat p : p ∈ replay_of st f pat → push_ok st p.
Proof.
  unfold replay_of. destruct (pfield f pat) as [k|]; [|by intros ?%elem_of_nil].
  destruct (index_of st f !! k) as [ids|] eqn:E; [|by intros ?%elem_of_nil].
  intros ->%list_elem_of_singleton. unfold push_ok, edit_ok. cbn [index key].
  rewrite E. eauto.
Qed.

Lemma replay_ok st pat p : p ∈ replay st pat → push_ok st p.
Proof.
  unfold replay. rewrite !elem_of_app.
  intros [H|[H|H]]; by eapply replay_of_ok.
Qed.

(** X19: Every push the store has ever made is well-formed: on ALL it is
    the global id set, and an edit on S, P or O, or re-pushed on a
    narrow-cast, carries as [index] the index set stored under its own
    [key], which exists (and on a narrow-cast the key is the one of the
    narrow-cast). *)
Theorem pushes_are_well_formed st n p :
  reachable st n → p ∈ pushes st → push_ok st p.
Proof.
  intros Hr. revert p.
  induction Hr as [n|st n _ IH|st n t Hr IH|st n qid pat emit Hr IH]; intros p Hp.
  - by apply elem_of_nil in Hp.
  - by apply IH.
  - pose proof (reachable_data_inv _ _ Hr) as Hinv.
    pose proof (extends_addTriple st n t Hinv) as Hext.
    revert Hp Hext. rewrite addTriple_unfold.
    destruct (has st t); cbn [fst snd]; [intros; by apply IH|].
    intros Hp Hext.
    assert (Hpush : pushes (emissions t (inserted t st n))
              = pushes st ++
                [ PushAll RAll;
                  PushField FS (mkEdit (RIdx FS (field FS t)) (field FS t));
                  PushField FP (mkEdit (RIdx FP (field FP t)) (field FP t));
                  PushField FO (mkEdit (RIdx FO (field FO t)) (field FO t)) ]).
    { unfold emissions, next_field, next_all. simpl. by rewrite <- !app_assoc. }
    rewrite Hpush in Hp. apply elem_of_app in Hp as [Hp|Hp].
    + eapply push_ok_extends; [done|by apply IH].
    + rewrite !elem_of_cons, elem_of_nil in Hp.
      destruct Hp as [->|[->|[->|[->|[]]]]]; simpl; [done|..];
        (split; [done|]); simpl; rewrite lookup_insert_eq; by eexists.
  - pose proof (extends_addPatternQuery qid pat emit st) as Hext.
    destruct (decide (constrained pat)) as [Hc|Hc].
    + rewrite pushes_addPatternQuery in Hp by done.
      apply elem_of_app in Hp as [Hp|Hp];
        (eapply push_ok_extends; [done|]); [by apply IH|by eapply replay_ok].
    + rewrite addPatternQuery_wildcard in Hp |- * by done. by apply IH.
Qed.
End push_log.

(** ** The gesture stream *)

Section gesture_facts.
Context {Num : Type} {NumOps : Number Num}.
Implicit Types (opts : @GestureStreamOpts Num) (s : @GestureState Num)
  (e : @UIEvent Num) (rect : Num * Num) (es : list ((Num * Num) * @UIEvent Num)).

Lemma throws_dec (o : @GestureOutcome Num) :
  {o = TypeErrorThrown} + {o ≠ TypeErrorThrown}.
Proof. destruct o; [by right | by left]. Defined.

Lemma gesture_step_clickPos opts dpr rect e s :
  clickPos (gesture_step opts dpr rect e s).2 =
    match gesture_type e with
    | START => Some (gesture_pos opts dpr rect e)
    | END => None
    | _ => clickPos s
    end.
Proof.
  unfold gesture_step. destruct (gesture_type e); try reflexivity.
  by destruct (clickPos s).
Qed.

Lemma gesture_step_zoom opts dpr rect e s :
  gesture_type e ≠ ZOOM → zoom (gesture_step opts dpr rect e s).2 = zoom s.
Proof.
  unfold gesture_step. destruct (gesture_type e); try done.
  by destruct (clickPos s).
Qed.

Lemma gesture_step_throws opts dpr rect e s :
  (gesture_step opts dpr rect e s).1 = TypeErrorThrown ↔
  gesture_type e = DRAG ∧ clickPos s = None.
Proof.
  unfold gesture_step. destruct (gesture_type e) eqn:E; cbn [fst];
    try (split; [done | by intros [? _]]).
  destruct (clickPos s); cbn [fst]; split; try done. by intros [_ ?].
Qed.

Lemma gesture_run_cons opts dpr rect e es s :
  (gesture_step opts dpr rect e s).1 ≠ TypeErrorThrown →
  gesture_run opts dpr ((rect, e) :: es) s =
    ((gesture_step opts dpr rect e s).1
       :: (gesture_run opts dpr es (gesture_step opts dpr rect e s).2).1,
     (gesture_run opts dpr es (gesture_step opts dpr rect e s).2).2).
Proof.
  intros Hne. cbn [gesture_run]. cbv zeta.
  by destruct (gesture_step opts dpr rect e s).1.
Qed.

Lemma gesture_run_throw opts dpr rect e es s :
  (gesture_step opts dpr rect e s).1 = TypeErrorThrown →
  gesture_run opts dpr ((rect, e) :: es) s =
    ([TypeErrorThrown], (gesture_step opts dpr rect e s).2).
Proof. intros Heq. cbn [gesture_run]. cbv zeta. by rewrite Heq. Qed.

Lemma gesture_run_app opts dpr es es' s :
  Forall (λ o, o ≠ TypeErrorThrown) (gesture_run opts dpr es s).1 →
  gesture_run opts dpr (es ++ es') s =
    ((gesture_run opts dpr es s).1
       ++ (gesture_run opts dpr es' (gesture_run opts dpr es s).2).1,
     (gesture_run opts dpr es' (gesture_run opts dpr es s).2).2).
Proof.
  revert s. induction es as [|[rect e] es IH]; intros s Hall.
  - cbn [gesture_run app fst snd]. by destruct (gesture_run opts dpr es' s).
  - destruct (throws_dec (gesture_step opts dpr rect e s).1)
      as [Ht|Ht].
    + rewrite (gesture_run_throw _ _ _ _ _ _ Ht) in Hall.
      by apply Forall_cons in Hall as [? _].
    + rewrite (gesture_run_cons _ _ _ _ _ _ Ht) in Hall.
      apply Forall_cons in Hall as [_ Hall]. cbn [fst] in Hall.
      change (((rect, e) :: es) ++ es') with ((rect, e) :: (es ++ es')).
      rewrite !(gesture_run_cons _ _ _ _ _ _ Ht). cbn [fst snd].
      by rewrite (IH _ Hall).
Qed.

Lemma gesture_run_length opts dpr es s :
  Forall (λ o, o ≠ TypeErrorThrown) (gesture_run opts dpr es s).1 →
  length (gesture_run opts dpr es s).1 = length es.
Proof.
  revert s. induction es as [|[rect e] es IH]; intros s Hall; [done|].
  destruct (throws_dec (gesture_step opts dpr rect e s).1) as [Ht|Ht].
  - rewrite (gesture_run_throw _ _ _ _ _ _ Ht) in Hall.
    by apply Forall_cons in Hall as [? _].
  - rewrite (gesture_run_cons _ _ _ _ _ _ Ht) in Hall |- *.
    apply Forall_cons in Hall as [_ Hall]. cbn [fst] in Hall |- *.
    cbn [length]. f_equal. by apply IH.
Qed.

Lemma gesture_run_with_click opts dpr es s c :
  clickPos s = Some c →
  Forall (λ re, gesture_type re.2 ≠ START ∧ gesture_type re.2 ≠ END) es →
  Forall (λ o, o ≠ TypeErrorThrown) (gesture_run opts dpr es s).1
  ∧ clickPos (gesture_run opts dpr es s).2 = Some c.
Proof.
  revert s. induction es as [|[rect e] es IH]; intros s Hc Hall.
  - by split; [constructor|].
  - apply Forall_cons in Hall as [[Hs He] Hall]. cbn [snd] in Hs, He.
    assert ((gesture_step opts dpr rect e s).1 ≠ TypeErrorThrown) as Ht.
    { intros [_ Hn]%gesture_step_throws. congruence. }
    rewrite (gesture_run_cons _ _ _ _ _ _ Ht). cbn [fst snd].
    destruct (IH (gesture_step opts dpr rect e s).2) as [IH1 IH2]; [|done|].
    { rewrite gesture_step_clickPos. by destruct (gesture_type e). }
    split; [by constructor | done].
Qed.

Lemma gesture_run_without_click opts dpr es s :
  clickPos s = None →
  Forall (λ re, gesture_type re.2 ≠ START ∧ gesture_type re.2 ≠ DRAG) es →
  Forall (λ o, o ≠ TypeErrorThrown) (gesture_run opts dpr es s).1
  ∧ clickPos (gesture_run opts dpr es s).2 = None.
Proof.
  revert s. induction es as [|[rect e] es IH]; intros s Hc Hall.
  - by split; [constructor|].
  - apply Forall_cons in Hall as [[Hs He] Hall]. cbn [snd] in Hs, He.
    assert ((gesture_step opts dpr rect e s).1 ≠ TypeErrorThrown) as Ht.
    { by intros [? _]%gesture_step_throws. }
    rewrite (gesture_run_cons _ _ _ _ _ _ Ht). cbn [fst snd].
    destruct (IH (gesture_step opts dpr rect e s).2) as [IH1 IH2]; [|done|].
    { rewrite gesture_step_clickPos. by destruct (gesture_type e). }
    split; [by constructor | done].
Qed.

Lemma gesture_step_same opts dpr rect e s s' :
  same_gesture s s' →
  (gesture_step opts dpr rect e s).1 = (gesture_step opts dpr rect e s').1
  ∧ same_gesture (gesture_step opts dpr rect e s).2
                 (gesture_step opts dpr rect e s').2.
Proof.
  intros [Hc Hz]. unfold gesture_step, same_gesture. rewrite Hc, Hz.
  destruct (gesture_type e); cbn [fst snd clickPos zoom]; try done.
  by destruct (clickPos s').
Qed.

(** X20 (gestureStream): a drag reports the position of the last start.
    After an event classified START (mouse down or touch start), through
    any events that are neither START nor END, an event classified DRAG
    is answered without a throw by a DRAG gesture whose [click] is the
    position computed for the START event and whose [delta] is the
    difference of the two positions, component by component. *)
Theorem drag_reports_last_start opts dpr r1 e1 mid r2 e2 s :
  gesture_type e1 = START →
  Forall (λ re, gesture_type re.2 ≠ START ∧ gesture_type re.2 ≠ END) mid →
  gesture_type e2 = DRAG →
  let p1 := gesture_pos opts dpr r1 e1 in
  let p2 := gesture_pos opts dpr r2 e2 in
  let r := gesture_run opts dpr ((r1, e1) :: mid ++ [(r2, e2)]) s in
  length r.1 = length mid + 2
  ∧ Forall (λ o, o ≠ TypeErrorThrown) r.1
  ∧ clickPos r.2 = Some p1
  ∧ ∃ body, last r.1 = Some (Gesture DRAG body)
      ∧ g_pos body = p2
      ∧ g_click body = Some p1
      ∧ g_delta body = Some (num_sub p2.1 p1.1, num_sub p2.2 p1.2).
Proof.
  intros H1 Hmid H2. cbv zeta.
  assert ((gesture_step opts dpr r1 e1 s).1 ≠ TypeErrorThrown) as Ht1.
  { intros [? _]%gesture_step_throws. congruence. }
  rewrite (gesture_run_cons _ _ _ _ _ _ Ht1). cbn [fst snd].
  set (s1 := (gesture_step opts dpr r1 e1 s).2).
  assert (clickPos s1 = Some (gesture_pos opts dpr r1 e1)) as Hc1.
  { unfold s1. by rewrite gesture_step_clickPos, H1. }
  destruct (gesture_run_with_click opts dpr mid s1 _ Hc1 Hmid) as [Hok Hc2].
  rewrite (gesture_run_app _ _ _ _ _ Hok). cbn [fst snd].
  set (s2 := (gesture_run opts dpr mid s1).2) in *.
  pose proof (gesture_run_length opts dpr mid s1 Hok) as Hlen.
  assert ((gesture_step opts dpr r2 e2 s2).1 ≠ TypeErrorThrown) as Ht2.
  { intros [_ Hn]%gesture_step_throws. congruence. }
  rewrite (gesture_run_cons _ _ _ _ _ _ Ht2). cbn [gesture_run fst snd].
  split; [|split; [|split]].
  - cbn [length]. rewrite length_app, Hlen. cbn [length]. lia.
  - constructor; [done|]. apply Forall_app. split; [done|].
    by constructor.
  - by rewrite gesture_step_clickPos, H2.
  - change (?x :: ?l ++ [?y]) with ((x :: l) ++ [y]).
    rewrite last_snoc. unfold gesture_step. rewrite H2, Hc2.
    cbn [fst]. by eexists.
Qed.

(** X21 (gestureStream): a drag with no start on record throws.  From
    the initial state of the closure, or from any state whose click
    position is null, after any events that are neither START nor DRAG
    (moves, wheel events, ends), an event classified DRAG, such as a
    mouse move with a button held that was pressed outside the element,
    makes the transform throw on [clickPos[0]]; the events before it
    are answered without a throw, and none of their gestures carries a
    [click] or a [delta]. *)
Theorem drag_without_start_throws opts dpr es rect e s :
  clickPos s = None →
  Forall (λ re, gesture_type re.2 ≠ START ∧ gesture_type re.2 ≠ DRAG) es →
  gesture_type e = DRAG →
  clickPos (gesture_init opts) = None
  ∧ (gesture_run opts dpr (es ++ [(rect, e)]) s).1 =
      (gesture_run opts dpr es s).1 ++ [TypeErrorThrown]
  ∧ Forall (λ o, ∃ ty body, o = Gesture ty body
                  ∧ g_click body = None ∧ g_delta body = None)
           (gesture_run opts dpr es s).1.
Proof.
  intros Hc Hes He. split; [done|].
  destruct (gesture_run_without_click opts dpr es s Hc Hes) as [Hok Hc'].
  split.
  - rewrite (gesture_run_app _ _ _ _ _ Hok). cbn [fst]. f_equal.
    rewrite gesture_run_throw; [done|].
    apply gesture_step_throws. by split.
  - clear Hok Hc'. revert s Hc. induction es as [|[r0 e0] es IH]; intros s Hc.
    { constructor. }
    apply Forall_cons in Hes as [[Hs Hd] Hes]. cbn [snd] in Hs, Hd.
    assert ((gesture_step opts dpr r0 e0 s).1 ≠ TypeErrorThrown) as Ht.
    { by intros [? _]%gesture_step_throws. }
    rewrite (gesture_run_cons _ _ _ _ _ _ Ht). cbn [fst]. constructor.
    + unfold gesture_step. destruct (gesture_type e0); try done;
        cbn [fst]; by do 2 eexists.
    + apply IH; [done|]. rewrite gesture_step_clickPos.
      by destruct (gesture_type e0).
Qed.

(** X22 (gestureStream): the flag [isDown] is written but never read
    across events.  Two states of the closure that agree on the click
    position and the zoom give, for any sequence of events, the same
    outcomes (gestures or throw) and end in states that agree again:
    whatever [isDown] holds has no effect on what the stream emits. *)
Theorem isDown_never_observed opts dpr es s s' :
  same_gesture s s' →
  (gesture_run opts dpr es s).1 = (gesture_run opts dpr es s').1
  ∧ same_gesture (gesture_run opts dpr es s).2 (gesture_run opts dpr es s').2.
Proof.
  revert s s'. induction es as [|[rect e] es IH]; intros s s' Hs; [done|].
  destruct (gesture_step_same opts dpr rect e s s' Hs) as [Ho Hs'].
  destruct (throws_dec (gesture_step opts dpr rect e s).1)
    as [Ht|Ht].
  - rewrite (gesture_run_throw _ _ _ _ _ _ Ht).
    rewrite Ho in Ht. by rewrite (gesture_run_throw _ _ _ _ _ _ Ht).
  - rewrite (gesture_run_cons _ _ _ _ _ _ Ht).
    rewrite Ho in Ht. rewrite (gesture_run_cons _ _ _ _ _ _ Ht).
    cbn [fst snd]. destruct (IH _ _ Hs') as [IH1 IH2].
    by rewrite Ho, IH1.
Qed.

(** X23 (gestureStream): the zoom is touched by wheel events only, and
    in absolute mode every zoom value is a clamped one.  An event that is
    not classified ZOOM leaves the zoom of the closure as it is and, if
    it is answered by a gesture, reports that zoom with a zoom delta of
    0.  With [absZoom] set, the initial zoom and the zoom reported by
    every gesture of any run from the initial state is a result of
    [clamp(_, minZoom, maxZoom)]; with [absZoom] unset a wheel event
    stores and reports its bare delta as the zoom. *)
Theorem zoom_only_by_wheel opts dpr rect e s es :
  (gesture_type e ≠ ZOOM →
     zoom (gesture_step opts dpr rect e s).2 = zoom s
     ∧ ∀ ty body, (gesture_step opts dpr rect e s).1 = Gesture ty body →
         g_zoom body = zoom s ∧ g_zoomDelta body = num_of_Z 0)
  ∧ (gesture_type e = ZOOM → o_absZoom opts = false →
     zoom (gesture_step opts dpr rect e s).2 = gesture_zdelta opts e
     ∧ ∃ body, (gesture_step opts dpr rect e s).1 = Gesture ZOOM body
         ∧ g_zoom body = gesture_zdelta opts e
         ∧ g_zoomDelta body = gesture_zdelta opts e)
  ∧ (o_absZoom opts = true →
     ∀ o z, o ∈ (gesture_run opts dpr es (gesture_init opts)).1 →
       outcome_zoom o = Some z →
       ∃ x, z = clamp x (o_minZoom opts) (o_maxZoom opts)).
Proof.
  split; [|split].
  - intros Hz. split; [by apply gesture_step_zoom|].
    intros ty body. unfold gesture_step.
    destruct (gesture_type e); try done; cbn [fst];
      try (by intros [= <- <-]).
    destruct (clickPos s); cbn [fst]; [|done]. by intros [= <- <-].
  - intros Hz Habs. unfold gesture_step. rewrite Hz, Habs. cbn [fst snd zoom].
    split; [done|]. by eexists.
  - intros Habs.
    assert (∀ s0, (∃ x, zoom s0 = clamp x (o_minZoom opts) (o_maxZoom opts)) →
      ∀ o z, o ∈ (gesture_run opts dpr es s0).1 → outcome_zoom o = Some z →
        ∃ x, z = clamp x (o_minZoom opts) (o_maxZoom opts)) as Hrun.
    { induction es as [|[r0 e0] es' IH]; intros s0 Hs0 o z Ho Hoz.
      { by apply elem_of_nil in Ho. }
      destruct (throws_dec (gesture_step opts dpr r0 e0 s0).1)
        as [Ht|Ht].
      { rewrite (gesture_run_throw _ _ _ _ _ _ Ht) in Ho. cbn [fst] in Ho.
        apply list_elem_of_singleton in Ho as ->. done. }
      rewrite (gesture_run_cons _ _ _ _ _ _ Ht) in Ho. cbn [fst] in Ho.
      assert ((∃ x, zoom (gesture_step opts dpr r0 e0 s0).2
                    = clamp x (o_minZoom opts) (o_maxZoom opts))
              ∧ ∀ z', outcome_zoom (gesture_step opts dpr r0 e0 s0).1 = Some z' →
                  ∃ x, z' = clamp x (o_minZoom opts) (o_maxZoom opts))
        as [Hnext Hout].
      { clear Ht Ho. unfold gesture_step. rewrite Habs.
        destruct (gesture_type e0); cbn [fst snd zoom outcome_zoom g_zoom];
          try (split; [done | by intros ? [= <-]]).
        - destruct (clickPos s0); cbn [fst snd zoom outcome_zoom g_zoom];
            (split; [done|]); [by intros ? [= <-] | done].
        - split; [by eexists|]. intros ? [= <-]. by eexists. }
      apply elem_of_cons in Ho as [->|Ho]; [by apply Hout|].
      by apply (IH _ Hnext o z). }
    apply Hrun. unfold gesture_init. cbn [zoom]. by eexists.
Qed.

(** X24 (gestureStream): the gesture type is read off the event alone,
    and [click] and [delta] go with DRAG.  Whenever the transform
    answers an event with a gesture, its type is the one of the event's
    name (touch start, move, end and cancel give START, DRAG, END and
    END; mouse down and up give START and END whatever the buttons; a
    mouse move gives DRAG with a button held and MOVE without; a wheel
    event gives ZOOM), the gesture carries the position and the buttons
    computed from the event, and it has a [click] and a [delta] exactly
    when its type is DRAG.  A touch event reports 0 buttons on a touch
    move and 1 otherwise. *)
Theorem gesture_type_from_event opts dpr rect e s ty body :
  (gesture_step opts dpr rect e s).1 = Gesture ty body →
  ty = gesture_type e
  ∧ g_pos body = gesture_pos opts dpr rect e
  ∧ g_buttons body = gesture_buttons e
  ∧ (is_Some (g_click body) ↔ ty = DRAG)
  ∧ (is_Some (g_delta body) ↔ ty = DRAG)
  ∧ (∀ name x y, e = TouchEvent name x y →
       ty = touchEventMap name
       ∧ g_buttons body
         = num_of_Z (if decide (name = touchmove) then 0 else 1))
  ∧ (∀ name b x y w d, e = MouseEvent name b x y w d →
       g_buttons body = b
       ∧ (name = mousedown → ty = START)
       ∧ (name = mouseup → ty = END)
       ∧ (name = wheel → ty = ZOOM)
       ∧ (name = mousemove → ty = if num_gt0 b then DRAG else MOVE)).
Proof.
  intros Hstep.
  assert (ty = gesture_type e ∧ g_pos body = gesture_pos opts dpr rect e
          ∧ g_buttons body = gesture_buttons e
          ∧ (is_Some (g_click body) ↔ ty = DRAG)
          ∧ (is_Some (g_delta body) ↔ ty = DRAG)) as (Hty & Hpos & Hb & Hc & Hd).
  { revert Hstep. unfold gesture_step.
    destruct (gesture_type e) eqn:E; cbn [fst];
      try (intros [= <- <-]; cbn [g_pos g_buttons g_click g_delta];
           repeat split; try done; by intros ?%is_Some_None).
    destruct (clickPos s); cbn [fst]; [|done].
    intros [= <- <-]. cbn [g_pos g_buttons g_click g_delta].
    repeat split; eauto. }
  repeat split; try tauto.
  - subst e. done.
  - subst e. rewrite Hb. cbn [gesture_buttons]. unfold num_of_bool.
    by destruct name.
  - subst e. done.
  - subst e. intros ->. done.
  - subst e. intros ->. done.
  - subst e. intros ->. done.
  - subst e. intros ->. done.
Qed.

End gesture_facts.

(** ** Instances of the statements on sample data *)

Section sample_instances.

Lemma late_node_in : late_node ∈ queries late_store.
Proof.
  assert (queries late_store = [late_node]) as -> by (by vm_compute).
  apply list_elem_of_here.
Defined.

Lemma late_node_out : {[0]} ∈ q_out late_node.
Proof.
  assert (q_out late_node = [{[0]}]) as -> by (by vm_compute).
  apply list_elem_of_here.
Defined.

Lemma reachable_late_store : reachable late_store 1.
Proof.
  exact (reach_addPatternQuery store_abc 1 "q" pat_ab false reachable_store_abc).
Defined.

Lemma late_node_abd_in : late_node_abd ∈ queries late_store_abd.
Proof.
  assert (queries late_store_abd = [late_node_abd]) as -> by (by vm_compute).
  apply list_elem_of_here.
Defined.

Lemma addTriple_abd_late :
  addTriple abd late_store 1 = (true, late_store_abd, 2).
Proof. by vm_compute. Defined.

Lemma push_all_in : PushAll RAll ∈ pushes store_abc.
Proof. apply list_elem_of_In. vm_compute. by left. Defined.

Lemma primitive_abc_abd :
  ∀ t, t ∈ [abc; abd] → primitive_triple t = true.
Proof.
  intros t Ht. apply elem_of_cons in Ht as [->|Ht]; [reflexivity|].
  apply elem_of_cons in Ht as [->|Ht]; [reflexivity|].
  by apply elem_of_nil in Ht.
Defined.

Lemma plain_late_store : plain late_store.
Proof. exact (plain_addPatternQuery "q" pat_ab false store_abc plain_store_abc). Defined.

Lemma plain_late_store_abd : plain late_store_abd.
Proof. exact (plain_addTriple abd late_store 1 eq_refl plain_late_store). Defined.

Lemma addTriples_true_iff_witness :
  reachable empty_store 0
  ∧ ((addTriples [abc; abd] empty_store 0).1.1 = true ↔
     NoDup [abc; abd] ∧ ∀ t, t ∈ [abc; abd] → ¬ stored empty_store t).
Proof.
  split; [exact (reach_new 0)|].
  exact (proj2 (addTriples_true_iff [abc; abd] empty_store 0 (reach_new 0))
               primitive_abc_abd).
Defined.

Lemma addTriples_stored_witness :
  reachable store_abc 1
  ∧ (stored (addTriples [abc; abd] store_abc 1).1.2 abd ↔
     stored store_abc abd ∨ abd ∈ [abc; abd]).
Proof.
  split; [exact reachable_store_abc|].
  exact (proj1 (proj2 (proj2 (addTriples_stored [abc; abd] store_abc 1 abd
                                reachable_store_abc)) primitive_abc_abd)).
Defined.

Lemma addTriples_counter_witness :
  reachable store_abc 1
  ∧ (addTriples [abc; abd] store_abc 1).2
    = 1 + size (list_to_set [abc; abd] ∖ stored_set store_abc).
Proof.
  split; [exact reachable_store_abc|].
  exact (proj1 (proj2 (addTriples_counter [abc; abd] store_abc 1
                         reachable_store_abc) primitive_abc_abd)).
Defined.

Lemma store_is_a_set_witness :
  reachable store_abc 1 ∧ unique_triples store_abc.
Proof.
  split; [exact reachable_store_abc|].
  exact (proj1 (store_is_a_set store_abc 1 reachable_store_abc)).
Defined.

Lemma index_invariant_witness :
  reachable store_abc 1
  ∧ (is_Some (index_of store_abc FS !! VStr "a") ↔
     ∃ t, stored store_abc t ∧ field FS t = VStr "a").
Proof.
  split; [exact reachable_store_abc|].
  exact (proj1 (proj2 (index_invariant store_abc 1 FS (VStr "a")
                         reachable_store_abc))).
Defined.

Lemma index_partitions_ids_witness :
  reachable store_abc 1
  ∧ (∀ id, id ∈ allIDs store_abc ↔
           ∃ k ids, index_of store_abc FP !! k = Some ids ∧ id ∈ ids).
Proof.
  split; [exact reachable_store_abc|].
  exact (proj1 (index_partitions_ids store_abc 1 FP reachable_store_abc)).
Defined.

Lemma findInIndices_returns_id_witness :
  reachable store_abc 1
  ∧ (∀ id, findInIndices store_abc (indexS store_abc !! field FS abc)
             (indexP store_abc !! field FP abc)
             (indexO store_abc !! field FO abc) abc = Some id ↔
           triples store_abc !! id = Some abc).
Proof.
  split; [exact reachable_store_abc|].
  exact (proj1 (proj2 (proj2 (findInIndices_returns_id store_abc 1 abc
                                reachable_store_abc)) eq_refl)).
Defined.

Lemma store_only_grows_witness :
  reachable empty_store 0
  ∧ steps empty_store 0 store_abc 1
  ∧ extends empty_store store_abc.
Proof.
  split; [exact (reach_new 0)|].
  split; [exact (steps_addTriple empty_store 0 empty_store 0 abc
                   (steps_refl empty_store 0))|].
  exact (proj1 (proj2 (store_only_grows empty_store 0 store_abc 1 (reach_new 0)
                         (steps_addTriple empty_store 0 empty_store 0 abc
                            (steps_refl empty_store 0))))).
Defined.

Lemma identifiers_unique_across_stores_witness :
  reachable2 store_abc store_abd_second 2
  ∧ allIDs store_abc ## allIDs store_abd_second.
Proof.
  split.
  - exact (reach2_addTriple_snd store_abc empty_store 1 abd
             (reach2_second store_abc 1 reachable_store_abc)).
  - exact (proj1 (identifiers_unique_across_stores store_abc store_abd_second 2
                    (reach2_addTriple_snd store_abc empty_store 1 abd
                       (reach2_second store_abc 1 reachable_store_abc)))).
Defined.

Lemma query_value_is_current_witness :
  reachable late_store 1
  ∧ plain late_store
  ∧ late_node ∈ queries late_store
  ∧ (∀ ids, last (q_out late_node) = Some ids →
            ids = matching late_store (q_pattern late_node)
            ∧ ∀ id, id ∈ ids ↔
                    ∃ t, triples late_store !! id = Some t
                         ∧ matches (q_pattern late_node) t).
Proof.
  split; [exact reachable_late_store|].
  split; [exact plain_late_store|].
  split; [exact late_node_in|].
  exact (proj2 (query_value_is_current late_store 1 late_node
                  reachable_late_store plain_late_store late_node_in)).
Defined.

Lemma emitted_ids_resolve_witness :
  reachable late_store 1
  ∧ late_node ∈ queries late_store
  ∧ {[0]} ∈ q_out late_node
  ∧ length (asTriples late_store {[0]}) = size ({[0]} : gset nat).
Proof.
  split; [exact reachable_late_store|].
  split; [exact late_node_in|].
  split; [exact late_node_out|].
  exact (proj1 (proj2 (emitted_ids_resolve late_store 1 late_node {[0]}
                         reachable_late_store late_node_in late_node_out))).
Defined.

Lemma insertion_updates_queries_witness :
  reachable late_store 1
  ∧ addTriple abd late_store 1 = (true, late_store_abd, 2)
  ∧ late_node_abd ∈ queries late_store_abd
  ∧ (matches (q_pattern late_node_abd) abd →
     ∃ ids, last (q_out late_node_abd) = Some ids ∧ 1 ∈ ids
            ∧ ∀ id, id ∈ ids ↔
                    id = 1 ∨ ∃ t0, triples late_store !! id = Some t0
                                   ∧ matches (q_pattern late_node_abd) t0).
Proof.
  split; [exact reachable_late_store|].
  split; [exact addTriple_abd_late|].
  split; [exact late_node_abd_in|].
  exact (proj1 (insertion_updates_queries late_store 1 abd late_store_abd 2
                  late_node_abd reachable_late_store addTriple_abd_late
                  late_node_abd_in)).
Defined.

Lemma param_query_variables_are_wildcards_witness :
  isQVar (pfield FS pat_friend) || isQVar (pfield FP pat_friend)
    || isQVar (pfield FO pat_friend) = true
  ∧ pushes (addParamQuery "f" pat_friend friends).2
    = pushes friends ++ replay friends (raw_pattern pat_friend).
Proof.
  split; [reflexivity|].
  exact (proj1 (proj2 (param_query_variables_are_wildcards "f" pat_friend friends
                         eq_refl))).
Defined.

Lemma pushes_are_well_formed_witness :
  reachable store_abc 1
  ∧ PushAll RAll ∈ pushes store_abc
  ∧ push_ok store_abc (PushAll RAll).
Proof.
  split; [exact reachable_store_abc|].
  split; [exact push_all_in|].
  exact (pushes_are_well_formed store_abc 1 (PushAll RAll)
           reachable_store_abc push_all_in).
Defined.

Lemma mid_wheel :
  Forall (λ re : (Z * Z) * @UIEvent Z,
            gesture_type (NumOps := Z_number) re.2 ≠ START
            ∧ gesture_type (NumOps := Z_number) re.2 ≠ END)
         [(rect0, ev_wheel)].
Proof. repeat constructor; discriminate. Defined.

Lemma before_wheel :
  Forall (λ re : (Z * Z) * @UIEvent Z,
            gesture_type (NumOps := Z_number) re.2 ≠ START
            ∧ gesture_type (NumOps := Z_number) re.2 ≠ DRAG)
         [(rect0, ev_wheel)].
Proof. repeat constructor; discriminate. Defined.

Lemma drag_reports_last_start_witness :
  gesture_type (NumOps := Z_number) ev_down = START
  ∧ gesture_type (NumOps := Z_number) ev_drag = DRAG
  ∧ clickPos (gesture_run (NumOps := Z_number) sample_opts 1%Z
                ((rect0, ev_down) :: [(rect0, ev_wheel)] ++ [(rect0, ev_drag)])
                (gesture_init (NumOps := Z_number) sample_opts)).2
    = Some (gesture_pos (NumOps := Z_number) sample_opts 1%Z rect0 ev_down).
Proof.
  split; [reflexivity|]. split; [reflexivity|].
  exact (proj1 (proj2 (proj2
           (drag_reports_last_start (NumOps := Z_number) sample_opts 1%Z
              rect0 ev_down [(rect0, ev_wheel)] rect0 ev_drag
              (gesture_init (NumOps := Z_number) sample_opts)
              eq_refl mid_wheel eq_refl)))).
Defined.

Lemma drag_without_start_throws_witness :
  clickPos (gesture_init (NumOps := Z_number) sample_opts) = None
  ∧ gesture_type (NumOps := Z_number) ev_drag = DRAG
  ∧ (gesture_run (NumOps := Z_number) sample_opts 1%Z
       ([(rect0, ev_wheel)] ++ [(rect0, ev_drag)])
       (gesture_init (NumOps := Z_number) sample_opts)).1
    = (gesture_run (NumOps := Z_number) sample_opts 1%Z [(rect0, ev_wheel)]
         (gesture_init (NumOps := Z_number) sample_opts)).1
      ++ [TypeErrorThrown].
Proof.
  split; [reflexivity|]. split; [reflexivity|].
  exact (proj1 (proj2
           (drag_without_start_throws (NumOps := Z_number) sample_opts 1%Z
              [(rect0, ev_wheel)] rect0 ev_drag
              (gesture_init (NumOps := Z_number) sample_opts)
              eq_refl before_wheel eq_refl))).
Defined.

Lemma isDown_never_observed_witness :
  same_gesture (gesture_init (NumOps := Z_number) sample_opts)
               (mkGState true None 1%Z)
  ∧ (gesture_run (NumOps := Z_number) sample_opts 1%Z
       [(rect0, ev_down); (rect0, ev_drag)]
       (gesture_init (NumOps := Z_number) sample_opts)).1
    = (gesture_run (NumOps := Z_number) sample_opts 1%Z
         [(rect0, ev_down); (rect0, ev_drag)] (mkGState true None 1%Z)).1.
Proof.
  split; [split; reflexivity|].
  exact (proj1 (isDown_never_observed (NumOps := Z_number) sample_opts 1%Z
                  [(rect0, ev_down); (rect0, ev_drag)]
                  (gesture_init (NumOps := Z_number) sample_opts)
                  (mkGState true None 1%Z) (conj eq_refl eq_refl))).
Defined.

Lemma gesture_type_from_event_witness :
  (gesture_step (NumOps := Z_number) sample_opts 1%Z rect0 ev_touch
     (gesture_init (NumOps := Z_number) sample_opts)).1
  = Gesture START (mkInfo (3%Z, 4%Z) None None 1%Z 0%Z 1%Z)
  ∧ START = gesture_type (NumOps := Z_number) ev_touch.
Proof.
  split; [reflexivity|].
  exact (proj1 (gesture_type_from_event (NumOps := Z_number) sample_opts 1%Z
                  rect0 ev_touch (gesture_init (NumOps := Z_number) sample_opts)
                  START (mkInfo (3%Z, 4%Z) None None 1%Z 0%Z 1%Z) eq_refl)).
Defined.

End sample_instances.
